(** * ImgToPDF: a shallow embedding of [ImgToPDF.py] and its specification

    The file has three parts.

    - The model follows the Python module: characters and strings
      ([str.isspace], [str.isdigit], [str.lower], the class [\d]); the
      scan of a drop payload; [natural_key] and the order that
      [list.sort(key=natural_key)] uses; paths, the file system and the
      system calls; the collaborators Pillow and img2pdf; the module-level
      functions; the selection state with the handlers [pick_folder],
      [pick_files], [on_drop], [pick_output_folder] and [merge_to_pdf].
    - The vocabulary of the statements.
    - The facts, grouped by component, each group ending with the
      properties C1 .. C10 of the specification that it settles; then
      further properties of the code, X1 .. X25: errors and listings, the
      payload format, paths, the order of the system calls, selections,
      merging, what a run leaves on disk, and timestamps.

    Python exceptions are values of [exn] carried by the [Res] type, and code
    that touches the disk runs in the state-and-exception monad [IO] over a
    [World].

    Modelling decisions:
    - characters are the code points U+0000 to U+00FF (the type [ascii]),
      and the character classes are Python's, restricted to that range;
    - a path is an absolute path of a POSIX system without symbolic
      links: the list of its components below the one root, where
      [Path.resolve()] removes the ['..'] components; the disk is keyed by
      resolved paths, and a file test looks a path up as it is written;
    - a file holds an image a decoder accepts, a generated document, other
      bytes, or what a failed write left of one of these; its encoding into
      bytes is not modelled;
    - a write fails where the world says the device refuses it, and the
      interpreter and Pillow keep their default limits (4300 digits for
      [int], 178,956,970 pixels for [Image.open]);
    - the encoder img2pdf is not part of the repository and is modelled from
      its contract in section 6 of the specification. *)

From Stdlib Require Import ZArith NArith Ascii String List Bool Lia Permutation Sorted.
From Stdlib Require DecimalString DecimalZ DecimalPos.
From stdpp Require Import base option list gmap strings fin_maps.

Import ListNotations.
Local Open Scope string_scope.
Local Open Scope list_scope.

(** Let [simpl] compute string concatenation, as it does list
    concatenation. *)
#[local] Arguments String.append !s1 s2 : simpl nomatch.

(* ===================================================================== *)
(** * Characters and strings *)
(* ===================================================================== *)

Module Chr.

Definition code (c : ascii) : N := N_of_ascii c.

Definition in_range (lo hi : N) (c : ascii) : bool :=
  ((lo <=? code c) && (code c <=? hi))%N.

(** [str.isspace] on one character: TAB, LF, VT, FF, CR, the four
    information separators U+001C..U+001F, SPACE, NEL and NBSP. *)
Definition isspace (c : ascii) : bool :=
  in_range 9 13 c || in_range 28 32 c || (code c =? 133)%N || (code c =? 160)%N.

(** The class [\d] of [re] on [str] patterns: Unicode category Nd, which
    below U+0100 is exactly 0..9. *)
Definition re_digit (c : ascii) : bool := in_range 48 57 c.

(** [str.isdigit] on one character: the decimal digits and also the
    superscript digits U+00B2, U+00B3 and U+00B9. *)
Definition isdigit (c : ascii) : bool :=
  re_digit c || (code c =? 178)%N || (code c =? 179)%N || (code c =? 185)%N.

(** [str.lower] on one character: A..Z and the Latin-1 capitals
    U+00C0..U+00DE except the multiplication sign U+00D7. *)
Definition lower (c : ascii) : ascii :=
  if in_range 65 90 c
     || (in_range 192 222 c && negb (code c =? 215)%N)
  then ascii_of_N (code c + 32)
  else c.

(** The value of a decimal digit. *)
Definition digit_value (c : ascii) : N := (code c - 48)%N.

Definition lbrace : ascii := "{"%char.
Definition rbrace : ascii := "}"%char.

End Chr.

Module Str.

Fixpoint all (P : ascii -> bool) (s : string) : bool :=
  match s with
  | EmptyString => true
  | String c s' => P c && all P s'
  end.

Fixpoint map (f : ascii -> ascii) (s : string) : string :=
  match s with
  | EmptyString => EmptyString
  | String c s' => String (f c) (map f s')
  end.

(** Truthiness of a [str]: non-empty. *)
Definition nonempty (s : string) : bool :=
  match s with EmptyString => false | String _ _ => true end.

(** [s + ch]. *)
Definition snoc (s : string) (c : ascii) : string := s ++ String c EmptyString.

(** [str.isspace] is not needed on whole strings; [str.isdigit] is: true
    iff the string is non-empty and every character is a digit. *)
Definition isdigit (s : string) : bool := nonempty s && all Chr.isdigit s.

Definition lower (s : string) : string := map Chr.lower s.

(** Characters of a string, front to back. *)
Definition chars (s : string) : list ascii := list_ascii_of_string s.

(** Python's [<] on [str]: lexicographic on code points, a proper prefix
    first. *)
Fixpoint compare (a b : string) : comparison :=
  match a, b with
  | EmptyString, EmptyString => Eq
  | EmptyString, String _ _ => Lt
  | String _ _, EmptyString => Gt
  | String x a', String y b' =>
      match N.compare (Chr.code x) (Chr.code y) with
      | Eq => compare a' b'
      | o => o
      end
  end.

End Str.

(* ===================================================================== *)
(** * The drop-payload tokenizer of [ImageToPdfApp.on_drop] *)
(* ===================================================================== *)

Module Drop.

(** The three loop variables of the scan: [paths], [buf], [in_brace]. *)
Record scan : Type := Scan {
  paths : list string;
  buf : string;
  in_brace : bool
}.

Definition start : scan := Scan [] "" false.

(** [if buf: paths.append(buf)]. *)
Definition flushed (ps : list string) (b : string) : list string :=
  if Str.nonempty b then ps ++ [b] else ps.

(** One iteration of [for ch in raw]. *)
Definition step (st : scan) (ch : ascii) : scan :=
  if Ascii.eqb ch Chr.lbrace then
    Scan (paths st) "" true
  else if Ascii.eqb ch Chr.rbrace then
    Scan (flushed (paths st) (buf st)) "" false
  else if Chr.isspace ch && negb (in_brace st) then
    Scan (flushed (paths st) (buf st)) "" (in_brace st)
  else
    Scan (paths st) (Str.snoc (buf st) ch) (in_brace st).

Fixpoint run (st : scan) (raw : string) : scan :=
  match raw with
  | EmptyString => st
  | String ch raw' => run (step st ch) raw'
  end.

(** The statement after the loop: [if buf: paths.append(buf)]. *)
Definition finish (st : scan) : list string := flushed (paths st) (buf st).

Definition tokenize (raw : string) : list string := finish (run start raw).

End Drop.

(* ===================================================================== *)
(** * Exceptions *)
(* ===================================================================== *)

(** The exceptions the modelled code can raise. *)
Inductive exn : Type :=
| ValueError
| TypeError
| FileNotFoundError
| FileExistsError
| NotADirectoryError
| IsADirectoryError
| IndexError
| UnidentifiedImageError
| ImageOpenError
| DecompressionBombError
| OSError.

(** The outcome of a call: a value, or a raised exception. *)
Inductive Res (A : Type) : Type :=
| Ok (a : A)
| Raise (e : exn).

Arguments Ok {A} a.
Arguments Raise {A} e.

#[global] Instance res_ret : MRet Res := λ A a, Ok a.
#[global] Instance res_bind : MBind Res :=
  λ A B f m, match m with Ok a => f a | Raise e => Raise e end.

Definition returned {A} (r : Res A) : bool :=
  match r with Ok _ => true | Raise _ => false end.

(* ===================================================================== *)
(** * Lexicographic comparison (Python's sequence ordering) *)
(* ===================================================================== *)

Section Lex.
Context {A : Type} (cmp : A → A → comparison).

Fixpoint lex_compare (a b : list A) : comparison :=
  match a, b with
  | [], [] => Eq
  | [], _ :: _ => Lt
  | _ :: _, [] => Gt
  | x :: a', y :: b' =>
      match cmp x y with
      | Eq => lex_compare a' b'
      | o => o
      end
  end.

End Lex.

(* ===================================================================== *)
(** * Paths ([pathlib.PurePosixPath]) *)
(* ===================================================================== *)

(** A path is the list of its components below the root of a symlink-free
    POSIX file system: the root is [[]], and [/x/y/a.png] is
    [["x"; "y"; "a.png"]]; a component may be ['..'].  Relative tokens are
    read from the root (the working directory of the model). *)
Module Path.

Definition t : Type := list string.

(** [p.name]: the final component, [''] for the root. *)
Definition name (p : t) : string := List.last p "".

(** [p.parent]; the root is its own parent. *)
Definition parent (p : t) : t := List.removelast p.

(** The part of [s] from its last dot on, when [s] has a dot. *)
Fixpoint from_last_dot (s : string) : option string :=
  match s with
  | EmptyString => None
  | String c s' =>
      match from_last_dot s' with
      | Some x => Some x
      | None => if Ascii.eqb c "."%char then Some s else None
      end
  end.

(** [p.suffix]: [name[i:]] for [i = name.rfind('.')] when
    [0 < i < len(name) - 1], else ['']. *)
Definition suffix (p : t) : string :=
  match name p with
  | EmptyString => ""
  | String _ rest =>
      match from_last_dot rest with
      | Some x => if String.eqb x "." then "" else x
      | None => ""
      end
  end.

(** [s.split('/')]. *)
Fixpoint split_sep (cur : string) (s : string) : list string :=
  match s with
  | EmptyString => [cur]
  | String c s' =>
      if Ascii.eqb c "/"%char then cur :: split_sep "" s'
      else split_sep (Str.snoc cur c) s'
  end.

(** The components that count: not empty and not ['.']. *)
Definition real_part (c : string) : bool :=
  Str.nonempty c && negb (String.eqb c ".").

(** [Path(s)]. *)
Definition of_string (s : string) : t := List.filter real_part (split_sep "" s).

(** ['/'.join(parts)]. *)
Fixpoint join (parts : list string) : string :=
  match parts with
  | [] => ""
  | [c] => c
  | c :: rest => c ++ "/" ++ join rest
  end.

(** [str(p)] for an absolute path. *)
Definition to_string (p : t) : string := "/" ++ join p.

End Path.

(* ===================================================================== *)
(** * [natural_key] *)
(* ===================================================================== *)

Module Natural.

(** An element of the key tuple: an [int] or a [str]. *)
Inductive token : Type :=
| TInt (n : N)
| TStr (s : string).

Definition key : Type := list token.

(** [re.split(r"(\d+)", name)]: the text before the first digit run, then
    alternately a digit run and the text after it.  The two functions are
    the two states of the scan; [cur] is the part being read. *)
Fixpoint split_text (cur : string) (s : string) : list string :=
  match s with
  | EmptyString => [cur]
  | String c s' =>
      if Chr.re_digit c then cur :: split_digits (String c "") s'
      else split_text (Str.snoc cur c) s'
  end
with split_digits (cur : string) (s : string) : list string :=
  match s with
  | EmptyString => [cur; ""]
  | String c s' =>
      if Chr.re_digit c then split_digits (Str.snoc cur c) s'
      else cur :: split_text (String c "") s'
  end.

Definition re_split (name : string) : list string := split_text "" name.

(** [sys.get_int_max_str_digits()], which the program leaves at its
    default. *)
Definition int_max_str_digits : nat := 4300.

(** [int(part)]: the decimal value of a non-empty run of decimal digits,
    unless the run has more than [int_max_str_digits] digits; that, and
    anything else among the strings that reach it, raises [ValueError]. *)
Definition int (part : string) : Res N :=
  if Str.nonempty part && Str.all Chr.re_digit part
  then if (int_max_str_digits <? String.length part)%nat then Raise ValueError
       else Ok (fold_left (λ v c, 10 * v + Chr.digit_value c)%N (Str.chars part) 0%N)
  else Raise ValueError.

(** [int(part) if part.isdigit() else part.lower()]. *)
Definition token_of (part : string) : Res token :=
  if Str.isdigit part then n ← int part; mret (TInt n)
  else mret (TStr (Str.lower part)).

(** [natural_key] on [p.name]. *)
Definition key_of_name (name : string) : Res key := mapM token_of (re_split name).

Definition natural_key (p : Path.t) : Res key := key_of_name (Path.name p).

(** ** Python's comparison of the key tuples *)

(** [x == y] on tuple elements: an [int] never equals a [str]. *)
Definition token_eqb (x y : token) : bool :=
  match x, y with
  | TInt m, TInt n => (m =? n)%N
  | TStr s, TStr t => String.eqb s t
  | _, _ => false
  end.

(** [x < y] on tuple elements: [int] against [str] raises [TypeError]. *)
Definition token_lt (x y : token) : Res bool :=
  match x, y with
  | TInt m, TInt n => Ok (m <? n)%N
  | TStr s, TStr t => Ok (match Str.compare s t with Lt => true | _ => false end)
  | _, _ => Raise TypeError
  end.

(** [a < b] on tuples: the first position where the elements differ
    decides; without one, the shorter tuple is the smaller. *)
Fixpoint tuple_lt (a b : key) : Res bool :=
  match a, b with
  | [], [] => Ok false
  | [], _ :: _ => Ok true
  | _ :: _, [] => Ok false
  | x :: a', y :: b' =>
      if token_eqb x y then tuple_lt a' b' else token_lt x y
  end.

(** ** [list.sort(key=...)] *)

(** [list.sort] computes every key first, then orders the elements with
    [<] on the keys, keeping elements with equal keys in their input
    order.  The model inserts the elements one by one from the left, each
    behind the elements that are not greater. *)
Section Sort.
Context {A : Type}.

Fixpoint insert (k : key) (x : A) (sorted : list (key * A)) : Res (list (key * A)) :=
  match sorted with
  | [] => Ok [(k, x)]
  | (k', y) :: rest =>
      lt ← tuple_lt k k';
      if lt : bool then Ok ((k, x) :: (k', y) :: rest)
      else rest' ← insert k x rest; mret ((k', y) :: rest')
  end.

Fixpoint isort (done : list (key * A)) (todo : list (key * A)) : Res (list (key * A)) :=
  match todo with
  | [] => Ok done
  | (k, x) :: todo' => done' ← insert k x done; isort done' todo'
  end.

Definition sort_by (f : A → Res key) (l : list A) : Res (list A) :=
  keyed ← mapM (λ x, k ← f x; mret (k, x)) l;
  sorted ← isort [] keyed;
  mret (List.map snd sorted).

End Sort.

(** [names.sort(key=natural_key)] on bare file names. *)
Definition sort_names (names : list string) : Res (list string) :=
  sort_by key_of_name names.

End Natural.

(* ===================================================================== *)
(** * The file system and the [IO] monad *)
(* ===================================================================== *)

Inductive ImgFormat : Type := JPEG | PNG.

(** What a decoder finds in an image file. *)
Record Raster : Type := MkRaster {
  format : ImgFormat;
  width : Z;
  height : Z
}.

(** One page of a generated document: the page box, the box the image is
    drawn in, and the image embedded in it. *)
Record Page : Type := MkPage {
  page_width : Z;
  page_height : Z;
  drawn_width : Z;
  drawn_height : Z;
  embedded : Raster
}.

(** The content of a regular file: bytes that decode as a raster image,
    bytes of a generated document, any other bytes, or what a write that
    failed part-way left: some leading bytes of [whole], not all of them,
    which no decoder accepts.  The empty file is [Bytes ""]. *)
Inductive FileData : Type :=
| Image (r : Raster)
| Pdf (pages : list Page)
| Bytes (b : string)
| Truncated (whole : FileData).

Definition empty_file : FileData := Bytes "".

Inductive node : Type :=
| Dir
| File (d : FileData).

(** The system calls that open, create or write. *)
Inductive io_event : Type :=
| EvMkdir (p : Path.t)
| EvOpenWrite (p : Path.t)
| EvWrite (p : Path.t)
| EvOpenRead (p : Path.t).

(** How far a write that fails gets before the device refuses (no space
    left, an input/output error, the file-size limit): nothing of the data,
    a part of it, or all of it (the error then comes with the flush or the
    close). *)
Inductive cut : Type :=
| NothingWritten
| PartWritten
| AllWritten.

(** The disk, the calls made so far, and the paths at which the device
    refuses a write, each with how far the write gets. *)
Record World : Type := MkWorld {
  nodes : gmap (list string) node;
  io_log : list io_event;
  write_faults : gmap (list string) cut
}.

Module FS.

(** The root always exists and is a directory. *)
Definition stat (w : World) (p : Path.t) : option node :=
  match p with
  | [] => Some Dir
  | _ => nodes w !! p
  end.

Definition exists_ (w : World) (p : Path.t) : bool :=
  match stat w p with Some _ => true | None => false end.

Definition is_dir (w : World) (p : Path.t) : bool :=
  match stat w p with Some Dir => true | _ => false end.

Definition is_file (w : World) (p : Path.t) : bool :=
  match stat w p with Some (File _) => true | _ => false end.

(** [q] lies directly in [folder]. *)
Definition child_of (folder q : Path.t) : bool :=
  match q with
  | [] => false
  | _ => bool_decide (Path.parent q = folder)
  end.

(** [q] lies somewhere below [folder]. *)
Definition below (folder q : Path.t) : bool :=
  bool_decide (folder `prefix_of` q) && negb (bool_decide (q = folder)).

(** [folder.glob("*")] and [folder.glob("**/*")]: the entries in, or
    below, a directory, in the order the system lists them. *)
Definition glob (w : World) (folder : Path.t) (recursive : bool) : list Path.t :=
  if is_dir w folder then
    List.filter (if recursive then below folder else child_of folder)
                (List.map fst (map_to_list (nodes w)))
  else [].

End FS.

(** Code that touches the disk: a world in, an outcome and a world out. *)
Definition IO (A : Type) : Type := World → Res A * World.

#[global] Instance io_ret : MRet IO := λ A a w, (Ok a, w).
#[global] Instance io_bind : MBind IO :=
  λ A B f m w,
    match m w with
    | (Ok a, w') => f a w'
    | (Raise e, w') => (Raise e, w')
    end.

Module Sys.

Definition raise {A} (e : exn) : IO A := λ w, (Raise e, w).

(** [try: body  except <handled by h>: ...]; [h e = None] re-raises. *)
Definition try_except {A} (body : IO A) (h : exn → option (IO A)) : IO A :=
  λ w,
    match body w with
    | (Ok a, w') => (Ok a, w')
    | (Raise e, w') =>
        match h e with
        | Some k => k w'
        | None => (Raise e, w')
        end
    end.

Definition log (ev : io_event) : IO unit :=
  λ w, (Ok tt, MkWorld (nodes w) (io_log w ++ [ev]) (write_faults w)).

Definition put (p : Path.t) (n : node) : IO unit :=
  λ w, (Ok tt, MkWorld (<[p := n]> (nodes w)) (io_log w) (write_faults w)).

Definition stat (p : Path.t) : IO (option node) := λ w, (Ok (FS.stat w p), w).

(** [os.mkdir(p)]. *)
Definition os_mkdir (p : Path.t) : IO unit :=
  _ ← log (EvMkdir p);
  here ← stat p;
  match here with
  | Some _ => raise FileExistsError
  | None =>
      up ← stat (Path.parent p);
      match up with
      | Some Dir => put p Dir
      | Some (File _) => raise NotADirectoryError
      | None => raise FileNotFoundError
      end
  end.

(** The last clause of [Path.mkdir]: [except OSError: if not exist_ok or
    not self.is_dir(): raise], with [exist_ok=True]. *)
Definition unless_is_dir (p : Path.t) (e : exn) : IO unit :=
  here ← stat p;
  match here with
  | Some Dir => mret tt
  | _ => raise e
  end.

(** [p.mkdir(parents=False, exist_ok=True)]. *)
Definition mkdir_exist_ok (p : Path.t) : IO unit :=
  try_except (os_mkdir p)
    (λ e, match e with
          | FileNotFoundError => None
          | _ => Some (unless_is_dir p e)
          end).

(** [p.mkdir(parents=True, exist_ok=True)], by recursion on the reversed
    path [rp] (so that the parent is a sub-term). *)
Fixpoint mkdir_parents_rev (rp : list string) : IO unit :=
  let p := List.rev rp in
  try_except (os_mkdir p)
    (λ e, match e with
          | FileNotFoundError =>
              match rp with
              | [] => None
              | _ :: rp' => Some (_ ← mkdir_parents_rev rp'; mkdir_exist_ok p)
              end
          | _ => Some (unless_is_dir p e)
          end).

Definition mkdir_parents (p : Path.t) : IO unit := mkdir_parents_rev (List.rev p).

(** [p.open("wb")]: creates the file, or empties the one that is there. *)
Definition open_wb (p : Path.t) : IO unit :=
  _ ← log (EvOpenWrite p);
  here ← stat p;
  match here with
  | Some Dir => raise IsADirectoryError
  | Some (File _) => put p (File empty_file)
  | None =>
      up ← stat (Path.parent p);
      match up with
      | Some Dir => put p (File empty_file)
      | Some (File _) => raise NotADirectoryError
      | None => raise FileNotFoundError
      end
  end.

(** What a write of [data] that fails leaves in the file. *)
Definition left_behind (c : cut) (data : FileData) : FileData :=
  match c with
  | NothingWritten => empty_file
  | PartWritten => Truncated data
  | AllWritten => data
  end.

Definition fault_at (p : Path.t) : IO (option cut) := λ w, (Ok (write_faults w !! p), w).

(** [f.write(data)] on a file just opened with ["wb"], with the flush and
    the close that end the [with] block: all of the data reaches the file,
    or the device refuses, [OSError] is raised, and the file keeps what had
    been written. *)
Definition write (p : Path.t) (data : FileData) : IO unit :=
  _ ← log (EvWrite p);
  fault ← fault_at p;
  match fault with
  | None => put p (File data)
  | Some c => _ ← put p (File (left_behind c data)); raise OSError
  end.

(** [open(p, "rb").read()]. *)
Definition read (p : Path.t) : IO FileData :=
  _ ← log (EvOpenRead p);
  here ← stat p;
  match here with
  | Some (File d) => mret d
  | Some Dir => raise IsADirectoryError
  | None => raise FileNotFoundError
  end.

End Sys.

(* ===================================================================== *)
(** * External collaborators: Pillow and img2pdf *)
(* ===================================================================== *)

Module PIL.

(** [Image.MAX_IMAGE_PIXELS], which the program leaves at its default. *)
Definition MAX_IMAGE_PIXELS : Z := 89478485.

(** [Image._decompression_bomb_check(size)]: an image of more than twice
    [MAX_IMAGE_PIXELS] pixels is refused.  (Above [MAX_IMAGE_PIXELS] Pillow
    only warns.) *)
Definition decompression_bomb (r : Raster) : bool :=
  (2 * MAX_IMAGE_PIXELS <? Z.max 1 (width r) * Z.max 1 (height r))%Z.

(** [Image.open(p)] of the external library Pillow: reads the file and
    identifies the image in it, or raises. *)
Definition Image_open (p : Path.t) : IO Raster :=
  d ← Sys.read p;
  match d with
  | Image r => if decompression_bomb r then Sys.raise DecompressionBombError else mret r
  | _ => Sys.raise UnidentifiedImageError
  end.

(** [im.size]. *)
Definition size (im : Raster) : Z * Z := (width im, height im).

End PIL.

(** The document encoder [img2pdf] is an external library that is not part
    of the repository.  Section 6 of the specification fixes its contract:
    it consumes the ordered list of images and a page size per image, and
    produces one byte stream, failing on an image it cannot decode.
    Lengths are in pixels at the image's native resolution (the
    specification's one unit per pixel). *)
Module Img2pdf.

(** A layout function: from the image's pixel size to the page box and
    the box the image is drawn in. *)
Definition layout : Type := Z → Z → (Z * Z) * (Z * Z).

(** Modelled from the spec: the layout of img2pdf when no page size is
    asked for, absent from the repository.  The page is the image. *)
Definition default_layout_fun : layout := λ w h, ((w, h), (w, h)).

(** Modelled from the spec: [img2pdf.get_layout_fun(pagesize=None)],
    absent from the repository.  No page size is imposed, so the layout is
    the default one. *)
Definition get_layout_fun_pagesize_None : layout := default_layout_fun.

Inductive FitMode : Type := into | fill | exact | shrink | enlarge.

(** Modelled from the spec: one page of img2pdf's output, absent from the
    repository.  The image is read and laid out; a file that does not
    decode raises. *)
Definition page_of (layout_fun : layout) (p : Path.t) : IO Page :=
  d ← Sys.read p;
  match d with
  | Image r =>
      let '((pw, ph), (iw, ih)) := layout_fun (width r) (height r) in
      mret (MkPage pw ph iw ih r)
  | _ => Sys.raise ImageOpenError
  end.

(** Modelled from the spec: [img2pdf.convert(images, layout_fun=...,
    fitmode=...)], absent from the repository.  It returns the bytes of the
    document, built in memory, one page per image in the order given; the
    layout function alone decides the geometry. *)
Definition convert (images : list Path.t) (layout_fun : layout) (fitmode : FitMode)
  : IO FileData :=
  pages ← mapM (page_of layout_fun) images;
  mret (Pdf pages).

End Img2pdf.

(* ===================================================================== *)
(** * The module-level functions of [ImgToPDF.py] *)
(* ===================================================================== *)

Definition SUPPORTED_EXTS : list string := [".jpg"; ".jpeg"; ".png"].

Definition natural_key : Path.t → Res Natural.key := Natural.natural_key.

(** [p.is_file() and p.suffix.lower() in SUPPORTED_EXTS]. *)
Definition is_image (w : World) (p : Path.t) : bool :=
  FS.is_file w p && existsb (String.eqb (Str.lower (Path.suffix p))) SUPPORTED_EXTS.

Definition list_images_in_folder (w : World) (folder : Path.t) (recursive : bool)
  : Res (list Path.t) :=
  let files := List.filter (is_image w) (FS.glob w folder recursive) in
  Natural.sort_by natural_key files.

(** [os.path.commonpath] of [posixpath]. *)
Module PosixPath.

Definition sep : ascii := "/"%char.

(** [p[:1] == sep]. *)
Definition starts_with_sep (p : string) : bool :=
  match p with
  | String c _ => Ascii.eqb c sep
  | EmptyString => false
  end.

(** [path.split(sep)] without the empty and ['.'] components. *)
Definition split_path (p : string) : list string :=
  List.filter Path.real_part (Path.split_sep "" p).

Definition list_lt (a b : list string) : bool :=
  match lex_compare Str.compare a b with Lt => true | _ => false end.

(** [min(l)] and [max(l)] from a first element on: the first smallest
    and the first largest. *)
Definition min_from (x : list string) (l : list (list string)) : list string :=
  fold_left (λ m y, if list_lt y m then y else m) l x.

Definition max_from (x : list string) (l : list (list string)) : list string :=
  fold_left (λ m y, if list_lt m y then y else m) l x.

(** The loop [for i, c in enumerate(s1): if c != s2[i]: ...]; reading
    [s2[i]] past the end of [s2] raises [IndexError]. *)
Fixpoint common (s1 s2 : list string) : Res (list string) :=
  match s1 with
  | [] => Ok []
  | c :: s1' =>
      match s2 with
      | [] => Raise IndexError
      | d :: s2' =>
          if String.eqb c d then rest ← common s1' s2'; mret (c :: rest)
          else Ok []
      end
  end.

Definition commonpath (paths : list string) : Res string :=
  match paths with
  | [] => Raise ValueError
  | first :: others =>
      let split_paths := List.map split_path paths in
      if forallb (λ p, Bool.eqb (starts_with_sep p) (starts_with_sep first)) others then
        match split_paths with
        | [] => Raise ValueError
        | x :: l =>
            let s1 := min_from x l in
            let s2 := max_from x l in
            common_parts ← common s1 s2;
            let prefix := if starts_with_sep first then "/" else "" in
            mret (String.append prefix (Path.join common_parts))
        end
      else Raise ValueError
  end.

End PosixPath.

(** [p.resolve()] on a file system without symbolic links: a ['..']
    component takes the path read so far one level up, and stays at the
    root there. *)
Definition resolve (p : Path.t) : Path.t :=
  fold_left (λ seen c, if String.eqb c ".." then Path.parent seen else seen ++ [c]) p [].

Definition common_parent (w : World) (paths : list Path.t) : Res Path.t :=
  match paths with
  | [] => Raise ValueError
  | _ =>
      let resolved := List.map resolve paths in
      cp ← PosixPath.commonpath
             (List.map (λ p, if FS.is_file w p then Path.to_string (Path.parent p)
                             else Path.to_string p) resolved);
      mret (Path.of_string cp)
  end.

Definition convert_images_to_pdf (image_paths : list Path.t) (output_pdf : Path.t) : IO unit :=
  match image_paths with
  | [] => Sys.raise ValueError
  | _ =>
      _ ← Sys.mkdir_parents (Path.parent output_pdf);
      let layout_fun := Img2pdf.get_layout_fun_pagesize_None in
      _ ← Sys.open_wb output_pdf;
      data ← Img2pdf.convert image_paths layout_fun Img2pdf.exact;
      Sys.write output_pdf data
  end.

(** [str(n)] for an [int]. *)
Definition str_of_int (n : Z) : string := DecimalString.NilZero.string_of_int (Z.to_int n).

(** [f"{p.name} ({w}x{h})"]. *)
Definition warning_text (p : Path.t) (w h : Z) : string :=
  Path.name p ++ " (" ++ str_of_int w ++ "x" ++ str_of_int h ++ ")".

(** The body of the [try] in [warn_huge_images]. *)
Definition audit_one (warnings : list string) (p : Path.t) : IO (list string) :=
  im ← PIL.Image_open p;
  let '(w, h) := PIL.size im in
  if (40000000 <=? w * h)%Z then mret (warnings ++ [warning_text p w h])
  else mret warnings.

Fixpoint warn_loop (warnings : list string) (image_paths : list Path.t) : IO (list string) :=
  match image_paths with
  | [] => mret warnings
  | p :: rest =>
      warnings' ← Sys.try_except (audit_one warnings p) (λ _, Some (mret warnings));
      warn_loop warnings' rest
  end.

Definition warn_huge_images (image_paths : list Path.t) : IO (list string) :=
  warn_loop [] image_paths.

(* ===================================================================== *)
(** * The application: selection state and event handlers *)
(* ===================================================================== *)

(** The dataclass [SelectionState]; [mode] is ["folder"] or ["files"]. *)
Record SelectionState : Type := MkSelection {
  mode : string;
  source : option Path.t;
  images : option (list Path.t)
}.

(** The message boxes the handlers pop up. *)
Inductive advisory : Type :=
| NoImagesInFolder
| NoImagesInPickedFiles
| NoImagesInDroppedFolder
| NoImagesInDrop.

(** What [_update_view] puts on screen. *)
Record View : Type := MkView {
  lbl_source : option Path.t;
  lbl_count : nat;
  listbox : list string
}.

(** The fields of [ImageToPdfApp] the handlers read or write, and the
    warnings shown so far ([messagebox.showwarning]), oldest first. *)
Record App : Type := MkApp {
  state : SelectionState;
  custom_output_dir : option Path.t;
  recursive_var : bool;
  view : View;
  shown : list advisory
}.

(** [ImageToPdfApp.__init__]. *)
Definition init_app : App :=
  MkApp (MkSelection "folder" None (Some [])) None false (MkView None 0 []) [].

Definition showwarning (a : advisory) (app : App) : App :=
  MkApp (state app) (custom_output_dir app) (recursive_var app) (view app) (shown app ++ [a]).

(** [self.state = st; self._update_view()]. *)
Definition select (st : SelectionState) (app : App) : App :=
  let imgs := default [] (images st) in
  MkApp st (custom_output_dir app) (recursive_var app)
        (MkView (source st) (length imgs) (List.map Path.name imgs))
        (shown app).

Definition is_nil {A} (l : list A) : bool :=
  match l with [] => true | _ => false end.

(** [pick_files]; [filepaths] is what the file dialog returned. *)
Definition pick_files (filepaths : list string) (w : World) (app : App) : Res App :=
  if is_nil filepaths then Ok app
  else
    let files := List.filter (is_image w) (List.map Path.of_string filepaths) in
    if is_nil files then Ok (showwarning NoImagesInPickedFiles app)
    else
      files ← Natural.sort_by natural_key files;
      src ← common_parent w files;
      mret (select (MkSelection "files" (Some src) (Some files)) app).

(** [on_drop]; [raw] is [event.data]. *)
Definition on_drop (raw : string) (w : World) (app : App) : Res App :=
  if negb (Str.nonempty raw) then Ok app
  else
    let paths := Drop.tokenize raw in
    let dropped := List.map Path.of_string paths in
    let folders := List.filter (λ p, FS.exists_ w p && FS.is_dir w p) dropped in
    match folders with
    | folder :: _ =>
        images ← list_images_in_folder w folder (recursive_var app);
        let app' := select (MkSelection "folder" (Some folder) (Some images)) app in
        mret (if is_nil images then showwarning NoImagesInDroppedFolder app' else app')
    | [] =>
        let files := List.filter (λ p, FS.exists_ w p && is_image w p) dropped in
        if is_nil files then Ok (showwarning NoImagesInDrop app)
        else
          files ← Natural.sort_by natural_key files;
          src ← common_parent w files;
          mret (select (MkSelection "files" (Some src) (Some files)) app)
    end.

(** ** The other handlers *)

(** [pick_folder]; [folder] is what the directory dialog returned (the
    empty string when it was cancelled). *)
Definition pick_folder (folder : string) (w : World) (app : App) : Res App :=
  if negb (Str.nonempty folder) then Ok app
  else
    let folder_path := Path.of_string folder in
    images ← list_images_in_folder w folder_path (recursive_var app);
    let app' := select (MkSelection "folder" (Some folder_path) (Some images)) app in
    mret (if is_nil images then showwarning NoImagesInFolder app' else app').

(** [pick_output_folder]: sets [custom_output_dir] unless the dialog was
    cancelled.  (The label that repeats the directory is not part of
    [View].) *)
Definition pick_output_folder (folder : string) (app : App) : App :=
  if Str.nonempty folder
  then MkApp (state app) (Some (Path.of_string folder)) (recursive_var app)
             (view app) (shown app)
  else app.

(** [p / s] of [pathlib]: an absolute [s] replaces [p]. *)
Definition joinpath (p : Path.t) (s : string) : Path.t :=
  if PosixPath.starts_with_sep s then Path.of_string s else p ++ Path.of_string s.

(** What [datetime.now()] returns, to the second. *)
Record datetime : Type := MkDatetime {
  year : Z;
  month : Z;
  day : Z;
  hour : Z;
  minute : Z;
  second : Z
}.

(** A two-digit field of [strftime]: zero-padded. *)
Definition pad2 (n : Z) : string :=
  if (n <? 10)%Z then "0" ++ str_of_int n else str_of_int n.

(** [t.strftime("%Y%m%d_%H%M%S")], for the four-digit years a clock
    returns. *)
Definition strftime_stamp (t : datetime) : string :=
  str_of_int (year t) ++ pad2 (month t) ++ pad2 (day t) ++ "_"
  ++ pad2 (hour t) ++ pad2 (minute t) ++ pad2 (second t).

(** What [merge_to_pdf] puts on screen, in order.  A message box is
    recorded with the part of its text that varies: the warnings listed and
    the count of those left out, the exception, the path of the result. *)
Inductive ui_event : Type :=
| UiNothingSelected
| UiHugeImages (listed : list string) (left_out : option nat)
| UiProgressStart
| UiProgressStop
| UiSuccess (pdf_path : Path.t)
| UiError (e : exn).

(** The [showinfo] of [merge_to_pdf]: nothing without warnings; else the
    first ten, and the number of the others when there are more. *)
Definition huge_images_info (warnings : list string) : list ui_event :=
  if is_nil warnings then []
  else [UiHugeImages (firstn 10 warnings)
                     (if (10 <? length warnings)%nat then Some (length warnings - 10)%nat
                      else None)].

(** [out_dir / f"merged_{ts}.pdf"] with [out_dir] the custom directory, or
    [source / "result"]. *)
Definition output_target (now : datetime) (app : App) (source : Path.t) : Path.t :=
  let out_dir := match custom_output_dir app with
                 | Some d => d
                 | None => joinpath source "result"
                 end in
  joinpath out_dir ("merged_" ++ strftime_stamp now ++ ".pdf").

(** [merge_to_pdf]; [now] is the clock reading.  The [try] covers the
    audit and the conversion, and its handler catches every exception. *)
Definition merge_to_pdf (now : datetime) (app : App) (w : World) : list ui_event * World :=
  match source (state app), images (state app) with
  | Some source, Some ((_ :: _) as images) =>
      let out_pdf := output_target now app source in
      match warn_huge_images images w with
      | (Raise e, w1) => ([UiProgressStop; UiError e], w1)
      | (Ok warnings, w1) =>
          let info := huge_images_info warnings in
          match convert_images_to_pdf images out_pdf w1 with
          | (Ok _, w2) => (info ++ [UiProgressStart; UiProgressStop; UiSuccess out_pdf], w2)
          | (Raise e, w2) => (info ++ [UiProgressStart; UiProgressStop; UiError e], w2)
          end
      end
  | _, _ => ([UiNothingSelected], w)
  end.

(* ===================================================================== *)
(** * Vocabulary of the statements *)
(* ===================================================================== *)

(** ** Drop payloads *)

Definition is_brace (c : ascii) : bool :=
  Ascii.eqb c Chr.lbrace || Ascii.eqb c Chr.rbrace.

(** No brace character occurs in [s]. *)
Definition brace_free (s : string) : bool := Str.all (λ c, negb (is_brace c)) s.

(** No whitespace character occurs in [s]. *)
Definition space_free (s : string) : bool := Str.all (λ c, negb (Chr.isspace c)) s.

(** [s] is a non-empty run of whitespace. *)
Definition blank (s : string) : bool := Str.nonempty s && Str.all Chr.isspace s.

(** Every emitted token, and [buf], is free of braces; emitted tokens are
    not empty. *)
Definition clean (st : Drop.scan) : Prop :=
  Forall (λ t, Str.nonempty t = true ∧ brace_free t = true) (Drop.paths st)
  ∧ brace_free (Drop.buf st) = true.

(** ** Worlds *)

(** The pixel size [Image.open] reports for the file at [p], if any: the
    file holds an image of at most twice [MAX_IMAGE_PIXELS] pixels. *)
Definition dimensions (w : World) (p : Path.t) : option (Z * Z) :=
  match FS.stat w p with
  | Some (File (Image r)) =>
      if PIL.decompression_bomb r then None else Some (width r, height r)
  | _ => None
  end.

(** Forty megapixels. *)
Definition threshold : Z := 40000000.

(** The warning due for [p]: its name and size, when the size can be read
    and the area reaches the threshold. *)
Definition flagged (w : World) (p : Path.t) : option string :=
  match dimensions w p with
  | Some (a, b) => if (threshold <=? a * b)%Z then Some (warning_text p a b) else None
  | None => None
  end.

(** The world after one more logged call. *)
Definition logged (w : World) (ev : io_event) : World :=
  MkWorld (nodes w) (io_log w ++ [ev]) (write_faults w).

(** [w'] differs from [w] at most by new directories on the way to
    [target]. *)
Definition grows (target : Path.t) (w w' : World) : Prop :=
  ∀ q, FS.stat w' q = FS.stat w q
       ∨ (FS.stat w q = None ∧ FS.stat w' q = Some Dir ∧ q `prefix_of` target).

(** No regular file sits at [target] or above it. *)
Definition no_file_on_the_way (w : World) (target : Path.t) : Prop :=
  ∀ q, q `prefix_of` target → FS.is_file w q = false.

(** The file at [p] decodes as an image. *)
Definition is_raster (w : World) (p : Path.t) : Prop :=
  ∃ r, FS.stat w p = Some (File (Image r)).

(** [pg] is the page of the image stored at [p]: the page box and the box
    the image is drawn in both have the image's pixel size. *)
Definition exact_fit (w : World) (p : Path.t) (pg : Page) : Prop :=
  ∃ r, FS.stat w p = Some (File (Image r))
       ∧ embedded pg = r
       ∧ (page_width pg, page_height pg) = (width r, height r)
       ∧ (drawn_width pg, drawn_height pg) = (width r, height r).

(** The device takes a write to [p]. *)
Definition accepts_write (w : World) (p : Path.t) : Prop := write_faults w !! p = None.


(** A world for the examples: two readable images, one file that is not an
    image, and a document from an earlier run. *)
Definition image_A : Raster := MkRaster JPEG 800 600.
Definition image_B : Raster := MkRaster PNG 1200 1600.
Definition earlier_document : FileData := Pdf [MkPage 800 600 800 600 image_A].

Definition example_world : World :=
  MkWorld (list_to_map
             [ (["in"], Dir);
               (["in"; "A.jpg"], File (Image image_A));
               (["in"; "B.png"], File (Image image_B));
               (["in"; "broken.png"], File (Bytes "not an image"));
               (["in"; "result"], Dir);
               (["in"; "result"; "merged.pdf"], File earlier_document) ])
          [] ∅.

(** The world of the examples on a device that refuses every write to
    [/in/result/new.pdf] part-way. *)
Definition world_with_full_disk : World :=
  MkWorld (nodes example_world) [] {[ ["in"; "result"; "new.pdf"] := PartWritten ]}.

(** A world with images of 42, of 36 and of 180 million pixels. *)
Definition world_with_huge_images : World :=
  MkWorld (list_to_map
             [ (["in"], Dir);
               (["in"; "big.png"], File (Image (MkRaster PNG 7000 6000)));
               (["in"; "ok.png"], File (Image (MkRaster PNG 6000 6000)));
               (["in"; "poster.png"], File (Image (MkRaster PNG 15000 12000))) ])
          [] ∅.

(** ** Handlers *)

(** The paths of a drop payload, in scan order. *)
Definition dropped_paths (raw : string) : list Path.t :=
  List.map Path.of_string (Drop.tokenize raw).

(** The folder branch of [on_drop]: what selecting [folder] does. *)
Definition route_folder (w : World) (folder : Path.t) (app : App) : Res App :=
  images ← list_images_in_folder w folder (recursive_var app);
  let app' := select (MkSelection "folder" (Some folder) (Some images)) app in
  mret (if is_nil images then showwarning NoImagesInDroppedFolder app' else app').

(** [app'] is [app] with one more advisory shown: the selection, the view
    and the settings are the same. *)
Definition advised (a : advisory) (app app' : App) : Prop :=
  state app' = state app
  ∧ view app' = view app
  ∧ custom_output_dir app' = custom_output_dir app
  ∧ recursive_var app' = recursive_var app
  ∧ shown app' = shown app ++ [a].

(** An application with a selection made earlier. *)
Definition app_with_selection : App :=
  select (MkSelection "files" (Some ["in"]) (Some [["in"; "A.jpg"]; ["in"; "B.png"]])) init_app.

(** ** Orders *)

(** A comparison function that decides a strict total order. *)
Record total_compare {A : Type} (cmp : A → A → comparison) : Prop := {
  cmp_refl : ∀ x, cmp x x = Eq;
  cmp_eq : ∀ x y, cmp x y = Eq → x = y;
  cmp_antisym : ∀ x y, cmp y x = CompOpp (cmp x y);
  cmp_trans : ∀ x y z, cmp x y = Lt → cmp y z = Lt → cmp x z = Lt
}.

(** [x] is not greater than [y]. *)
Definition not_gt {A : Type} (cmp : A → A → comparison) (x y : A) : Prop := cmp x y ≠ Gt.

(** The order of characters: by code point. *)
Definition char_compare (x y : ascii) : comparison := N.compare (Chr.code x) (Chr.code y).

(** Python's [<=] on lists of strings. *)
Abbreviation list_le := (not_gt (lex_compare Str.compare)).

(** ** Paths *)

(** No separator occurs in the component [c]. *)
Definition sep_free (c : string) : bool :=
  Str.all (λ ch, negb (Ascii.eqb ch "/"%char)) c.

(** A component list that [str] and [Path] carry unchanged: every
    component is non-empty, is not ['.'], and has no separator in it. *)
Definition well_formed (p : Path.t) : bool :=
  forallb (λ c, Path.real_part c && sep_free c) p.

(** The directories [common_parent] compares: the parent of a file, and
    any other path itself. *)
Definition containing_dir (w : World) (p : Path.t) : Path.t :=
  if FS.is_file w p then Path.parent p else p.

(** ** Natural keys *)

(** A run of characters outside [\d], possibly empty. *)
Definition text_part (s : string) : bool := Str.all (λ c, negb (Chr.re_digit c)) s.

(** A non-empty run of characters in [\d]. *)
Definition digit_part (s : string) : bool := Str.nonempty s && Str.all Chr.re_digit s.

(** What [re.split] returns: text, then digit run and text alternately. *)
Inductive parts_shape : list string → Prop :=
| parts_last (t : string) : text_part t = true → parts_shape [t]
| parts_more (t d : string) (rest : list string) :
    text_part t = true → digit_part d = true → parts_shape rest →
    parts_shape (t :: d :: rest).

(** The keys [natural_key] returns: a [str], then [int] and [str]
    alternately. *)
Inductive key_shape : Natural.key → Prop :=
| key_last (s : string) : key_shape [Natural.TStr s]
| key_more (s : string) (n : N) (k : Natural.key) :
    key_shape k → key_shape (Natural.TStr s :: Natural.TInt n :: k).

(** A total comparison of tokens that agrees with Python's on tokens of
    the same type (an [int] is put before a [str]). *)
Definition token_compare (x y : Natural.token) : comparison :=
  match x, y with
  | Natural.TInt m, Natural.TInt n => N.compare m n
  | Natural.TStr s, Natural.TStr t => Str.compare s t
  | Natural.TInt _, Natural.TStr _ => Lt
  | Natural.TStr _, Natural.TInt _ => Gt
  end.

(** The lexicographic order of keys. *)
Definition key_compare : Natural.key → Natural.key → comparison := lex_compare token_compare.

(** The number that a run of decimal digits denotes: every digit counts
    by its place. *)
Fixpoint decimal_value (d : string) : N :=
  match d with
  | EmptyString => 0
  | String c d' => Chr.digit_value c * 10 ^ N.of_nat (String.length d') + decimal_value d'
  end.

(** [s] does not begin with a decimal digit. *)
Definition no_digit_first (s : string) : bool :=
  match s with
  | EmptyString => true
  | String c _ => negb (Chr.re_digit c)
  end.

(** [s] does not end with a decimal digit. *)
Fixpoint no_digit_last (s : string) : bool :=
  match s with
  | EmptyString => true
  | String c EmptyString => negb (Chr.re_digit c)
  | String _ s' => no_digit_last s'
  end.

(** [a] sorts before [b]: both names have a key, and the key of [a] is
    smaller. *)
Definition name_lt (a b : string) : Prop :=
  ∃ ka kb, Natural.key_of_name a = Ok ka ∧ Natural.key_of_name b = Ok kb
           ∧ Natural.tuple_lt ka kb = Ok true.

(** No character of [name] is a digit for [str.isdigit] without being one
    for [\d]. *)
Definition decimal_digits_only (name : string) : bool :=
  Str.all (λ c, implb (Chr.isdigit c) (Chr.re_digit c)) name.

(** The comparison says "smaller". *)
Definition is_lt (c : comparison) : bool :=
  match c with Lt => true | _ => false end.

(** The order of the decorated elements: by key, not greater. *)
Definition keyed_le {A : Type} (p q : Natural.key * A) : Prop :=
  not_gt key_compare (fst p) (fst q).

(** Every decorated element carries a key of the alternating shape. *)
Definition shaped {A : Type} (l : list (Natural.key * A)) : Prop :=
  Forall (λ p, key_shape (fst p)) l.

(** ** Keys and listings *)

(** A part that [str.isdigit] takes for a number and [int] rejects for a
    character in it. *)
Definition stray_digit_part (t : string) : bool :=
  Str.isdigit t && negb (Str.all Chr.re_digit t).

(** A run of decimal digits that [int] rejects for its length. *)
Definition long_digit_part (t : string) : bool :=
  digit_part t && (Natural.int_max_str_digits <? String.length t)%nat.

(** A part without a token. *)
Definition keyless_part (t : string) : bool := stray_digit_part t || long_digit_part t.

(** [natural_key] on paths: the order of the file names. *)
Definition path_lt (a b : Path.t) : Prop := name_lt (Path.name a) (Path.name b).

(** In [folder] directly, or anywhere below it. *)
Definition inside (recursive : bool) (folder p : Path.t) : bool :=
  if recursive then FS.below folder p else FS.child_of folder p.

(** [p] is an image file that a listing of [folder] looks at. *)
Definition candidate (w : World) (folder : Path.t) (recursive : bool) (p : Path.t) : Prop :=
  FS.is_dir w folder = true ∧ inside recursive folder p = true ∧ is_image w p = true.

(** The keys of two elements are in order. *)
Definition in_order {A : Type} (f : A → Res Natural.key) (a b : A) : Prop :=
  ∃ ka kb, f a = Ok ka ∧ f b = Ok kb ∧ not_gt key_compare ka kb.

(** ** The payload format *)

(** The strings of a list, one after the other. *)
Definition joined (l : list string) : string := fold_right String.append "" l.

(** [s] without its whitespace characters. *)
Fixpoint without_spaces (s : string) : string :=
  match s with
  | EmptyString => EmptyString
  | String c s' => if Chr.isspace c then without_spaces s' else String c (without_spaces s')
  end.

(** An element of a payload in the format [on_drop] reads: in braces when
    it holds whitespace, bare otherwise. *)
Definition quoted (p : string) : string :=
  if space_free p then p else ("{" ++ p ++ "}")%string.

(** The payload of a list of paths: the elements, one space between two. *)
Fixpoint payload (ps : list string) : string :=
  match ps with
  | [] => ""
  | [p] => quoted p
  | p :: rest => (quoted p ++ " " ++ payload rest)%string
  end.

(** ** System calls *)

(** The calls made between [w] and [w']. *)
Definition calls_between (w w' : World) (evs : list io_event) : Prop :=
  io_log w' = io_log w ++ evs.

(** ** The screen *)

(** What [_update_view] shows for a selection. *)
Definition view_of (st : SelectionState) : View :=
  let imgs := default [] (images st) in
  MkView (source st) (length imgs) (List.map Path.name imgs).

(** The extension test of [is_image], without the file test. *)
Definition has_image_ext (p : Path.t) : bool :=
  existsb (String.eqb (Str.lower (Path.suffix p))) SUPPORTED_EXTS.

(** The screen shows the selection, and every selected path has an image
    extension. *)
Definition consistent (app : App) : Prop :=
  view app = view_of (state app)
  ∧ Forall (λ p, has_image_ext p = true) (default [] (images (state app))).

(** ** Actions and merging *)

(** One thing the user does with the window, with what the dialog or the
    drop handed over. *)
Inductive action : Type :=
| PickFolder (folder : string)
| PickFiles (filepaths : list string)
| DropOn (raw : string)
| PickOutputFolder (folder : string).

(** The handler bound to each action. *)
Definition handle (a : action) (w : World) (app : App) : Res App :=
  match a with
  | PickFolder folder => pick_folder folder w app
  | PickFiles filepaths => pick_files filepaths w app
  | DropOn raw => on_drop raw w app
  | PickOutputFolder folder => Ok (pick_output_folder folder app)
  end.

(** The screen shows nothing to merge: no source, or a count of zero. *)
Definition shows_nothing (v : View) : bool :=
  match lbl_source v with
  | None => true
  | Some _ => Nat.eqb (lbl_count v) 0
  end.

(** A character that neither separates components nor starts a suffix. *)
Definition plain_char (c : ascii) : bool :=
  negb (Ascii.eqb c "/"%char) && negb (Ascii.eqb c "."%char).

(** ** What a run leaves on disk *)

(** What one path may see of a run that writes to [out]: at [out], the
    old entry, or a file where no directory was; elsewhere, the old entry,
    or a new directory above [out] where nothing was. *)
Definition touched_only_at (out : Path.t) (w w' : World) : Prop :=
  (FS.stat w' out = FS.stat w out
   ∨ (FS.stat w out ≠ Some Dir ∧ ∃ d, FS.stat w' out = Some (File d)))
  ∧ ∀ q, q ≠ out →
         FS.stat w' q = FS.stat w q
         ∨ (FS.stat w q = None ∧ FS.stat w' q = Some Dir ∧ q `prefix_of` Path.parent out).

(** ** Clock readings *)

(** A reading that a clock returns: a four-digit year, and every other
    field in its range. *)
Definition valid_clock (t : datetime) : bool :=
  ((1000 <=? year t) && (year t <=? 9999)
   && (1 <=? month t) && (month t <=? 12)
   && (1 <=? day t) && (day t <=? 31)
   && (0 <=? hour t) && (hour t <=? 23)
   && (0 <=? minute t) && (minute t <=? 59)
   && (0 <=? second t) && (second t <=? 59))%Z.

(** [int(s)] for a decimal numeral. *)
Definition read_int (s : string) : option Z :=
  option_map Z.of_int (DecimalString.NilZero.int_of_string s).

(** ** More examples *)

(** A clock reading for the examples. *)
Definition example_clock : datetime := MkDatetime 2024 3 9 14 5 0.


(* ===================================================================== *)
(** * Facts about strings *)
(* ===================================================================== *)

Section StringFacts.

Lemma append_nil_r (s : string) : (s ++ "")%string = s.
Proof. induction s as [|c s IH]; simpl; congruence. Qed.

Lemma append_assoc (a b c : string) : ((a ++ b) ++ c)%string = (a ++ (b ++ c))%string.
Proof. induction a as [|x a IH]; simpl; congruence. Qed.

Lemma snoc_append (b : string) (c : ascii) (s : string) :
  (Str.snoc b c ++ s)%string = (b ++ String c s)%string.
Proof. unfold Str.snoc. now rewrite append_assoc. Qed.

Lemma all_append (P : ascii → bool) (a b : string) :
  Str.all P (a ++ b)%string = Str.all P a && Str.all P b.
Proof.
  induction a as [|x a IH]; simpl; [reflexivity|].
  rewrite IH. now rewrite andb_assoc.
Qed.

Lemma nonempty_snoc (b : string) (c : ascii) : Str.nonempty (Str.snoc b c) = true.
Proof. destruct b; reflexivity. Qed.

End StringFacts.

(* ===================================================================== *)
(** * The tokenizer *)
(* ===================================================================== *)

Module DropFacts.
Import Drop.

Lemma run_app (st : scan) (a b : string) : run st (a ++ b)%string = run (run st a) b.
Proof. revert st. induction a as [|c a IH]; intros st; simpl; [reflexivity|apply IH]. Qed.

Lemma step_open (st : scan) :
  step st "{"%char = Scan (paths st) "" true.
Proof. reflexivity. Qed.

Lemma step_close (st : scan) :
  step st "}"%char = Scan (flushed (paths st) (buf st)) "" false.
Proof. reflexivity. Qed.

(** A character that is neither a brace nor a separator goes to [buf]. *)
Lemma step_plain (st : scan) (ch : ascii) :
  is_brace ch = false →
  (in_brace st = true ∨ Chr.isspace ch = false) →
  step st ch = Scan (paths st) (Str.snoc (buf st) ch) (in_brace st).
Proof.
  unfold is_brace, step. intros Hb Hs.
  apply orb_false_iff in Hb as [-> ->].
  destruct Hs as [-> | ->]; [now rewrite andb_false_r | reflexivity].
Qed.

(** Brace-free text read inside braces, or brace-free text without
    whitespace read anywhere, lands in [buf] unchanged. *)
Lemma run_plain (ps : list string) (b : string) (f : bool) (s : string) :
  brace_free s = true →
  (f = true ∨ space_free s = true) →
  run (Scan ps b f) s = Scan ps (b ++ s)%string f.
Proof.
  revert b. induction s as [|c s IH]; intros b Hb Hs; simpl.
  - now rewrite append_nil_r.
  - unfold brace_free in Hb. simpl in Hb. apply andb_true_iff in Hb as [Hc Hb].
    apply negb_true_iff in Hc.
    rewrite step_plain; simpl; [|assumption|].
    + rewrite IH; [now rewrite snoc_append | exact Hb |].
      destruct Hs as [Hs|Hs]; [now left|right].
      unfold space_free in Hs. simpl in Hs. now apply andb_true_iff in Hs as [_ Hs].
    + destruct Hs as [Hs|Hs]; [now left|right].
      unfold space_free in Hs. simpl in Hs. apply andb_true_iff in Hs as [Hs _].
      now apply negb_true_iff in Hs.
Qed.

(** Whitespace read outside braces with an empty [buf] changes nothing. *)
Lemma run_blank (ps : list string) (s : string) :
  Str.all Chr.isspace s = true → run (Scan ps "" false) s = Scan ps "" false.
Proof.
  induction s as [|c s IH]; simpl; [reflexivity|]. intros H.
  apply andb_true_iff in H as [Hc Hs].
  assert (Hstep : step (Scan ps "" false) c = Scan ps "" false).
  { unfold step. simpl.
    destruct (Ascii.eqb c Chr.lbrace) eqn:E1.
    { apply Ascii.eqb_eq in E1. subst c. discriminate Hc. }
    destruct (Ascii.eqb c Chr.rbrace) eqn:E2.
    { apply Ascii.eqb_eq in E2. subst c. discriminate Hc. }
    now rewrite Hc. }
  rewrite Hstep. now apply IH.
Qed.

(** The first whitespace character outside braces flushes [buf]. *)
Lemma step_space (ps : list string) (b : string) (c : ascii) :
  Chr.isspace c = true →
  step (Scan ps b false) c = Scan (flushed ps b) "" false.
Proof.
  intros Hc. unfold step. simpl.
  destruct (Ascii.eqb c Chr.lbrace) eqn:E1.
  { apply Ascii.eqb_eq in E1. subst c. discriminate Hc. }
  destruct (Ascii.eqb c Chr.rbrace) eqn:E2.
  { apply Ascii.eqb_eq in E2. subst c. discriminate Hc. }
  now rewrite Hc.
Qed.

Lemma run_blank_flush (ps : list string) (b : string) (s : string) :
  blank s = true → run (Scan ps b false) s = Scan (flushed ps b) "" false.
Proof.
  unfold blank. destruct s as [|c s]; simpl; [discriminate|].
  intros H. apply andb_true_iff in H as [Hc Hs].
  rewrite step_space by assumption. now apply run_blank.
Qed.

(** The tokens already emitted stay in front of the ones to come. *)
Lemma run_paths_app (ps0 ps : list string) (b : string) (f : bool) (raw : string) :
  run (Scan (ps0 ++ ps) b f) raw =
  Scan (ps0 ++ paths (run (Scan ps b f) raw))
       (buf (run (Scan ps b f) raw))
       (in_brace (run (Scan ps b f) raw)).
Proof.
  revert ps b f. induction raw as [|c raw IH]; intros ps b f; simpl; [reflexivity|].
  unfold step; simpl.
  destruct (Ascii.eqb c Chr.lbrace); [apply IH|].
  destruct (Ascii.eqb c Chr.rbrace).
  { unfold flushed. destruct (Str.nonempty b); [|apply IH].
    rewrite <- app_assoc. apply IH. }
  destruct (Chr.isspace c && negb f).
  { unfold flushed. destruct (Str.nonempty b); [|apply IH].
    rewrite <- app_assoc. apply IH. }
  apply IH.
Qed.

Lemma tokenize_after (ps : list string) (raw : string) :
  finish (run (Scan ps "" false) raw) = ps ++ tokenize raw.
Proof.
  unfold tokenize, start.
  rewrite <- (app_nil_r ps) at 1. rewrite run_paths_app.
  unfold finish, flushed. simpl.
  destruct (Str.nonempty _); [now rewrite app_assoc | reflexivity].
Qed.

Lemma flushed_clean (ps : list string) (b : string) :
  Forall (λ t, Str.nonempty t = true ∧ brace_free t = true) ps →
  brace_free b = true →
  Forall (λ t, Str.nonempty t = true ∧ brace_free t = true) (flushed ps b).
Proof.
  intros Hps Hb. unfold flushed. destruct (Str.nonempty b) eqn:E; [|assumption].
  apply Forall_app. split; [assumption|]. now repeat constructor.
Qed.

Lemma step_clean (st : scan) (ch : ascii) : clean st → clean (step st ch).
Proof.
  intros [Hps Hb]. unfold step.
  destruct (Ascii.eqb ch Chr.lbrace) eqn:E1; [now split|].
  destruct (Ascii.eqb ch Chr.rbrace) eqn:E2.
  { split; [now apply flushed_clean | reflexivity]. }
  destruct (Chr.isspace ch && negb (in_brace st)).
  { split; [now apply flushed_clean | reflexivity]. }
  split; [assumption|]. simpl. unfold brace_free, Str.snoc.
  rewrite all_append. unfold brace_free in Hb. rewrite Hb. simpl.
  unfold is_brace. now rewrite E1, E2.
Qed.

Lemma run_clean (st : scan) (raw : string) : clean st → clean (run st raw).
Proof.
  revert st. induction raw as [|c raw IH]; intros st H; simpl; [assumption|].
  apply IH. now apply step_clean.
Qed.

Lemma tokenize_clean (raw : string) :
  Forall (λ t, Str.nonempty t = true ∧ brace_free t = true) (tokenize raw).
Proof.
  unfold tokenize, finish.
  destruct (run_clean start raw) as [Hps Hb]; [split; [constructor|reflexivity]|].
  now apply flushed_clean.
Qed.

End DropFacts.

(** C4. The drop tokenizer returns a list of tokens for every raw string
    (it is a total function, so no brace pattern makes it fail), and:
    - text between a brace pair is one token, whitespace included;
    - a closing brace ends the token in progress;
    - no emitted token is empty or contains a brace character;
    - outside braces a run of whitespace ends the token in progress, which
      is emitted when it is not empty;
    - a token in progress at the end of the input is emitted, also after a
      brace that is never closed;
    - empty and unmatched braces emit nothing;
    - the payload [{C:\My Pics\a.png} C:\b.png] yields the two tokens
      [C:\My Pics\a.png] and [C:\b.png]. *)
Theorem tokenizer_contract :
  (∀ s, Str.nonempty s = true → brace_free s = true →
        Drop.tokenize ("{" ++ s ++ "}")%string = [s])
  ∧ (∀ s rest, brace_free s = true →
        Drop.tokenize ("{" ++ s ++ "}" ++ rest)%string
        = Drop.flushed [] s ++ Drop.tokenize rest)
  ∧ (∀ raw, Forall (λ t, Str.nonempty t = true ∧ brace_free t = true) (Drop.tokenize raw))
  ∧ (∀ a ws rest, brace_free a = true → space_free a = true → blank ws = true →
        Drop.tokenize (a ++ ws ++ rest)%string = Drop.flushed [] a ++ Drop.tokenize rest)
  ∧ (∀ s, Str.nonempty s = true → brace_free s = true → space_free s = true →
        Drop.tokenize s = [s])
  ∧ (∀ s, Str.nonempty s = true → brace_free s = true →
        Drop.tokenize ("{" ++ s)%string = [s])
  ∧ Drop.tokenize "{}" = [] ∧ Drop.tokenize "{" = [] ∧ Drop.tokenize "}" = []
  ∧ Drop.tokenize "a}{ {}b{" = ["a"]
  ∧ Drop.tokenize "{C:\My Pics\a.png} C:\b.png" = ["C:\My Pics\a.png"; "C:\b.png"].
Proof.
  assert (Hclose : ∀ s rest, brace_free s = true →
            Drop.tokenize ("{" ++ s ++ "}" ++ rest)%string
            = Drop.flushed [] s ++ Drop.tokenize rest).
  { intros s rest Hs. unfold Drop.tokenize at 1. simpl.
    rewrite DropFacts.run_app.
    rewrite DropFacts.step_open.
    rewrite DropFacts.run_plain by (try assumption; now left). simpl.
    rewrite DropFacts.step_close.
    apply DropFacts.tokenize_after. }
  assert (Hws : ∀ a ws rest, brace_free a = true → space_free a = true → blank ws = true →
            Drop.tokenize (a ++ ws ++ rest)%string = Drop.flushed [] a ++ Drop.tokenize rest).
  { intros a ws rest Ha Hsp Hws. unfold Drop.tokenize at 1, Drop.start.
    rewrite !DropFacts.run_app.
    rewrite DropFacts.run_plain by (try assumption; now right). simpl.
    rewrite DropFacts.run_blank_flush by assumption.
    apply DropFacts.tokenize_after. }
  repeat split.
  - intros s Hne Hs.
    specialize (Hclose s "" Hs). simpl in Hclose |- *. rewrite Hclose.
    unfold Drop.flushed. rewrite Hne. reflexivity.
  - exact Hclose.
  - apply DropFacts.tokenize_clean.
  - exact Hws.
  - intros s Hne Hb Hsp. unfold Drop.tokenize, Drop.start.
    rewrite DropFacts.run_plain by (try assumption; now right).
    unfold Drop.finish, Drop.flushed. simpl. now rewrite Hne.
  - intros s Hne Hb. unfold Drop.tokenize. simpl.
    rewrite DropFacts.step_open.
    rewrite DropFacts.run_plain by (try assumption; now left).
    unfold Drop.finish, Drop.flushed. simpl. now rewrite Hne.
Qed.

Lemma tokenizer_contract_witness :
  Drop.tokenize "{my docs/a b.png}" = ["my docs/a b.png"]
  ∧ Drop.tokenize ("x.png" ++ "  " ++ "{y z.png}")%string = ["x.png"; "y z.png"].
Proof.
  destruct tokenizer_contract as (Hbrace & _ & _ & Hws & _).
  split.
  - apply (Hbrace "my docs/a b.png"); reflexivity.
  - apply (Hws "x.png" "  " "{y z.png}"); reflexivity.
Defined.

(** C10. An opening brace resets the token in progress whatever the state
    of the scan: bare characters directly before a brace are dropped, and so
    is the text read since an earlier opening brace; ["abc{d e}"] yields the
    one token ["d e"]. *)
Theorem open_brace_resets_buffer :
  (∀ st, Drop.step st Chr.lbrace = Drop.Scan (Drop.paths st) "" true)
  ∧ (∀ pre rest, brace_free pre = true → space_free pre = true →
        Drop.tokenize (pre ++ "{" ++ rest)%string = Drop.tokenize ("{" ++ rest)%string)
  ∧ (∀ t rest, brace_free t = true →
        Drop.tokenize ("{" ++ t ++ "{" ++ rest)%string = Drop.tokenize ("{" ++ rest)%string)
  ∧ Drop.tokenize "abc{d e}" = ["d e"]
  ∧ Drop.tokenize "{a b{c d}" = ["c d"].
Proof.
  repeat split.
  - intros pre rest Hb Hs. unfold Drop.tokenize, Drop.start.
    rewrite DropFacts.run_app.
    rewrite DropFacts.run_plain by (try assumption; now right).
    reflexivity.
  - intros t rest Hb. unfold Drop.tokenize. simpl.
    rewrite DropFacts.step_open.
    rewrite DropFacts.run_app.
    rewrite DropFacts.run_plain by (try assumption; now left).
    reflexivity.
Qed.

Lemma open_brace_resets_buffer_witness :
  Drop.tokenize ("abc" ++ "{" ++ "d e} f")%string = Drop.tokenize ("{" ++ "d e} f")%string
  ∧ Drop.tokenize ("{" ++ "a b" ++ "{" ++ "c d}")%string = Drop.tokenize ("{" ++ "c d}")%string.
Proof.
  destruct open_brace_resets_buffer as (_ & Hpre & Hin & _).
  split.
  - apply (Hpre "abc" "d e} f"); reflexivity.
  - apply (Hin "a b" "c d}"); reflexivity.
Defined.

(* ===================================================================== *)
(** * Running [IO] code *)
(* ===================================================================== *)

(** Unfolds the monadic plumbing of [IO] and [Res]. *)
Ltac io_unfold :=
  unfold mbind, mret, io_bind, io_ret, res_bind, res_ret,
         Sys.try_except, Sys.raise, Sys.log, Sys.put, Sys.stat in *.

Lemma io_bind_unfold {A B} (m : IO A) (f : A → IO B) (w : World) :
  (m ≫= f) w =
  match m w with
  | (Ok a, w') => f a w'
  | (Raise e, w') => (Raise e, w')
  end.
Proof. reflexivity. Qed.

(* ===================================================================== *)
(** * The size audit *)
(* ===================================================================== *)

Module AuditFacts.

Lemma stat_log (n : gmap (list string) node) (l l' : list io_event)
    (f f' : gmap (list string) cut) (p : Path.t) :
  FS.stat (MkWorld n l f) p = FS.stat (MkWorld n l' f') p.
Proof. destruct p; reflexivity. Qed.

Lemma flagged_nodes (w w' : World) (p : Path.t) :
  nodes w' = nodes w → flagged w' p = flagged w p.
Proof.
  intros H. unfold flagged, dimensions.
  destruct w as [n l f], w' as [n' l' f']. simpl in H. subst n'.
  now rewrite (stat_log n l' l f' f).
Qed.

(** One round of the loop: the file is opened for reading, nothing else
    changes, and a warning is appended exactly when one is due. *)
Lemma audit_round (acc : list string) (p : Path.t) (w : World) :
  Sys.try_except (audit_one acc p) (λ _, Some (mret acc)) w
  = (Ok (acc ++ option_list (flagged w p)), logged w (EvOpenRead p)).
Proof.
  destruct w as [n l f].
  unfold audit_one, PIL.Image_open, PIL.size, Sys.read, flagged, dimensions, threshold, logged.
  io_unfold. simpl.
  rewrite (stat_log n (l ++ [EvOpenRead p]) l f f).
  destruct (FS.stat (MkWorld n l f) p) as [[|[r|pg|b|t]]|]; simpl;
    rewrite ?app_nil_r; try reflexivity.
  destruct (PIL.decompression_bomb r); simpl; rewrite ?app_nil_r; [reflexivity|].
  destruct (40000000 <=? width r * height r)%Z; simpl;
    rewrite ?app_nil_r; reflexivity.
Qed.

Lemma warn_loop_spec (ps : list Path.t) :
  ∀ (acc : list string) (w : World),
    ∃ w', warn_loop acc ps w = (Ok (acc ++ omap (flagged w) ps), w')
          ∧ nodes w' = nodes w.
Proof.
  induction ps as [|p ps IH]; intros acc w; simpl.
  - exists w. rewrite app_nil_r. split; reflexivity.
  - unfold mbind at 1, io_bind. rewrite audit_round.
    destruct (IH (acc ++ option_list (flagged w p)) (logged w (EvOpenRead p)))
      as (w' & Hrun & Hn).
    exists w'. rewrite Hrun. split; [|exact Hn].
    f_equal. f_equal. rewrite <- app_assoc. f_equal.
    assert (Hfl : ∀ q, flagged (logged w (EvOpenRead p)) q = flagged w q)
      by (intros q; now apply flagged_nodes).
    destruct (flagged w p) as [t|]; simpl; f_equal;
      clear -Hfl; induction ps as [|q ps IHps]; simpl; try reflexivity;
      rewrite Hfl, IHps; reflexivity.
Qed.

Lemma warn_loop_faults (ps : list Path.t) :
  ∀ (acc : list string) (w : World),
    write_faults (snd (warn_loop acc ps w)) = write_faults w.
Proof.
  induction ps as [|p ps IH]; intros acc w; simpl; [reflexivity|].
  unfold mbind at 1, io_bind. rewrite audit_round. now rewrite IH.
Qed.

Lemma flagged_spec (w : World) (p : Path.t) (t : string) :
  flagged w p = Some t ↔
  ∃ r, FS.stat w p = Some (File (Image r))
       ∧ PIL.decompression_bomb r = false
       ∧ (40000000 ≤ width r * height r)%Z
       ∧ t = warning_text p (width r) (height r).
Proof.
  unfold flagged, dimensions, threshold.
  destruct (FS.stat w p) as [[|[r|pg|b|tr]]|]; split;
    try (intros H; discriminate H);
    try (intros (r' & H & _); discriminate H).
  - destruct (PIL.decompression_bomb r) eqn:B; [intros H; discriminate H|].
    destruct (40000000 <=? width r * height r)%Z eqn:E; intros H; [|discriminate H].
    injection H as <-. exists r. apply Z.leb_le in E. auto.
  - intros (r' & H & B & Hle & ->). injection H as <-.
    apply Z.leb_le in Hle. now rewrite B, Hle.
Qed.

End AuditFacts.

(** C8, as stated, fails: an image of 15000 x 12000 pixels has an area of
    at least 40,000,000 pixels, and its size can be read from the file, yet
    [warn_huge_images] has no warning for it: [Image.open] refuses it as a
    decompression bomb, and the [except] clause swallows that. *)
Lemma size_audit_has_no_warning_for_the_largest_images :
  FS.stat world_with_huge_images ["in"; "poster.png"]
  = Some (File (Image (MkRaster PNG 15000 12000)))
  ∧ (40000000 ≤ 15000 * 12000)%Z
  ∧ fst (PIL.Image_open ["in"; "poster.png"] world_with_huge_images)
    = Raise DecompressionBombError
  ∧ fst (warn_huge_images [["in"; "poster.png"]] world_with_huge_images) = Ok [].
Proof. repeat split; vm_compute; congruence. Qed.

(** C8, amended.  [warn_huge_images] never raises and changes no file; its
    warnings are, in input order, the texts [name (WxH)] of exactly the
    images that [Image.open] accepts and whose area [W * H] is at least
    40,000,000 pixels.  [Image.open] refuses an image of more than
    178,956,970 pixels, so that for an image with a width and a height the
    warning is due exactly when the area is between 40,000,000 and
    178,956,970 pixels.  A path whose size cannot be read (no file, a
    directory, bytes that are not an image, an image beyond the limit)
    contributes nothing.  An image of 7000 x 6000 is flagged, one of
    6000 x 6000 is not, and one of 15000 x 12000 is not. *)
Theorem size_audit_flags_exactly_huge_images :
  (∀ (image_paths : list Path.t) (w : World),
     ∃ w', warn_huge_images image_paths w = (Ok (omap (flagged w) image_paths), w')
           ∧ nodes w' = nodes w)
  ∧ (∀ (w : World) (p : Path.t) (t : string),
       flagged w p = Some t ↔
       ∃ r, FS.stat w p = Some (File (Image r))
            ∧ (40000000 ≤ width r * height r)%Z
            ∧ (Z.max 1 (width r) * Z.max 1 (height r) ≤ 178956970)%Z
            ∧ t = warning_text p (width r) (height r))
  ∧ (∀ (w : World) (p : Path.t) (r : Raster),
       FS.stat w p = Some (File (Image r)) → (0 < width r)%Z → (0 < height r)%Z →
       (flagged w p = Some (warning_text p (width r) (height r))
        ↔ (40000000 ≤ width r * height r ≤ 178956970)%Z)
       ∧ (flagged w p = None
          ↔ (width r * height r < 40000000 ∨ 178956970 < width r * height r)%Z))
  ∧ (∀ (w : World) (p : Path.t),
       (∀ r, FS.stat w p ≠ Some (File (Image r))) → flagged w p = None)
  ∧ (∀ fmt nodes0 log0 faults0,
       let w := MkWorld (<[ ["in"; "big.png"] := File (Image (MkRaster fmt 7000 6000)) ]>
                        (<[ ["in"; "ok.png"] := File (Image (MkRaster fmt 6000 6000)) ]>
                         (<[ ["in"; "bad.png"] := File (Bytes "not an image") ]>
                          (<[ ["in"; "poster.png"]
                              := File (Image (MkRaster fmt 15000 12000)) ]> nodes0))))
                        log0 faults0 in
       fst (warn_huge_images [["in"; "ok.png"]; ["in"; "poster.png"]; ["in"; "bad.png"];
                              ["in"; "big.png"]] w)
       = Ok ["big.png (7000x6000)"]).
Proof.
  assert (Hbomb : ∀ r, PIL.decompression_bomb r = false
                       ↔ (Z.max 1 (width r) * Z.max 1 (height r) ≤ 178956970)%Z).
  { intros r. unfold PIL.decompression_bomb, PIL.MAX_IMAGE_PIXELS.
    rewrite Z.ltb_ge. reflexivity. }
  split; [|split; [|split; [|split]]].
  - intros ps w. destruct (AuditFacts.warn_loop_spec ps [] w) as (w' & H & Hn).
    exists w'. split; [exact H | exact Hn].
  - intros w p t. rewrite AuditFacts.flagged_spec. split.
    + intros (r & Hr & B & Hle & Ht). exists r. rewrite <- Hbomb. auto.
    + intros (r & Hr & Hle & B & Ht). exists r. rewrite Hbomb. auto.
  - intros w p r Hr Hw Hh.
    assert (Hmax : (Z.max 1 (width r) * Z.max 1 (height r) = width r * height r)%Z)
      by (rewrite !Z.max_r by lia; reflexivity).
    assert (Hyes : flagged w p = Some (warning_text p (width r) (height r))
                   ↔ (40000000 ≤ width r * height r ≤ 178956970)%Z).
    { rewrite AuditFacts.flagged_spec. split.
      - intros (r' & Hr' & B & Hle & _). rewrite Hr in Hr'. injection Hr' as <-.
        apply Hbomb in B. lia.
      - intros [H1 H2]. exists r. rewrite Hbomb. repeat split; [exact Hr|lia|exact H1]. }
    split; [exact Hyes|].
    destruct (flagged w p) as [t|] eqn:Hf.
    + split; [discriminate|]. intros Hout.
      apply AuditFacts.flagged_spec in Hf as (r' & Hr' & B & Hle & _).
      rewrite Hr in Hr'. injection Hr' as <-. apply Hbomb in B. lia.
    + split; [|reflexivity]. intros _.
      destruct (Z_lt_le_dec (width r * height r) 40000000) as [?|H1]; [now left|].
      destruct (Z_lt_le_dec 178956970 (width r * height r)) as [?|H2]; [now right|].
      assert (H : None = Some (warning_text p (width r) (height r)))
        by (apply Hyes; lia).
      discriminate H.
  - intros w p Hno. destruct (flagged w p) as [t|] eqn:Hf; [|reflexivity].
    apply AuditFacts.flagged_spec in Hf as (r & Hr & _). now destruct (Hno r).
  - intros fmt nodes0 log0 faults0 w.
    destruct (AuditFacts.warn_loop_spec
                [["in"; "ok.png"]; ["in"; "poster.png"]; ["in"; "bad.png"]; ["in"; "big.png"]]
                [] w)
      as (w' & H & _).
    unfold warn_huge_images. rewrite H. simpl. unfold flagged, dimensions.
    subst w. simpl.
    repeat (rewrite lookup_insert_eq || rewrite lookup_insert_ne by discriminate).
    reflexivity.
Qed.

(* ===================================================================== *)
(** * The system calls *)
(* ===================================================================== *)

Module SysFacts.

Lemma stat_nodes (w w' : World) (p : Path.t) :
  nodes w' = nodes w → FS.stat w' p = FS.stat w p.
Proof. intros H. destruct p; simpl; [reflexivity | now rewrite H]. Qed.

Lemma stat_logged (w : World) (ev : io_event) (p : Path.t) :
  FS.stat (logged w ev) p = FS.stat w p.
Proof. now apply stat_nodes. Qed.

Lemma stat_put_eq (m : gmap (list string) node) l f (p : Path.t) (n : node) :
  p ≠ [] → FS.stat (MkWorld (<[p := n]> m) l f) p = Some n.
Proof. intros H. destruct p; [congruence|]. simpl. apply lookup_insert_eq. Qed.

Lemma stat_put_ne (m : gmap (list string) node) l l' f f' (p q : Path.t) (n : node) :
  p ≠ q → FS.stat (MkWorld (<[p := n]> m) l f) q = FS.stat (MkWorld m l' f') q.
Proof. intros H. destruct q; simpl; [reflexivity|]. now apply lookup_insert_ne. Qed.

Lemma stat_none_not_root (w : World) (p : Path.t) : FS.stat w p = None → p ≠ [].
Proof. intros H ->. discriminate H. Qed.

(** [os.mkdir] by cases on what is at [p] and above it. *)
Lemma os_mkdir_spec (p : Path.t) (w : World) :
  Sys.os_mkdir p w =
  match FS.stat w p with
  | Some _ => (Raise FileExistsError, logged w (EvMkdir p))
  | None =>
      match FS.stat w (Path.parent p) with
      | Some Dir => (Ok tt, MkWorld (<[p := Dir]> (nodes w)) (io_log w ++ [EvMkdir p])
                                    (write_faults w))
      | Some (File _) => (Raise NotADirectoryError, logged w (EvMkdir p))
      | None => (Raise FileNotFoundError, logged w (EvMkdir p))
      end
  end.
Proof.
  unfold Sys.os_mkdir. io_unfold.
  change (MkWorld (nodes w) (io_log w ++ [EvMkdir p]) (write_faults w))
    with (logged w (EvMkdir p)).
  rewrite stat_logged.
  destruct (FS.stat w p); [reflexivity|].
  rewrite stat_logged.
  destruct (FS.stat w (Path.parent p)) as [[|d]|]; reflexivity.
Qed.

Lemma unless_is_dir_spec (p : Path.t) (e : exn) (w : World) :
  Sys.unless_is_dir p e w =
  match FS.stat w p with
  | Some Dir => (Ok tt, w)
  | _ => (Raise e, w)
  end.
Proof.
  unfold Sys.unless_is_dir. io_unfold.
  destruct (FS.stat w p) as [[|d]|]; reflexivity.
Qed.

Lemma open_wb_spec (p : Path.t) (w : World) :
  Sys.open_wb p w =
  let created := (Ok tt, MkWorld (<[p := File empty_file]> (nodes w))
                                 (io_log w ++ [EvOpenWrite p]) (write_faults w)) in
  match FS.stat w p with
  | Some Dir => (Raise IsADirectoryError, logged w (EvOpenWrite p))
  | Some (File _) => created
  | None =>
      match FS.stat w (Path.parent p) with
      | Some Dir => created
      | Some (File _) => (Raise NotADirectoryError, logged w (EvOpenWrite p))
      | None => (Raise FileNotFoundError, logged w (EvOpenWrite p))
      end
  end.
Proof.
  unfold Sys.open_wb. io_unfold.
  change (MkWorld (nodes w) (io_log w ++ [EvOpenWrite p]) (write_faults w))
    with (logged w (EvOpenWrite p)).
  rewrite stat_logged.
  destruct (FS.stat w p) as [[|d]|]; try reflexivity.
  rewrite stat_logged.
  destruct (FS.stat w (Path.parent p)) as [[|d]|]; reflexivity.
Qed.

Lemma read_spec (p : Path.t) (w : World) :
  Sys.read p w =
  match FS.stat w p with
  | Some (File d) => (Ok d, logged w (EvOpenRead p))
  | Some Dir => (Raise IsADirectoryError, logged w (EvOpenRead p))
  | None => (Raise FileNotFoundError, logged w (EvOpenRead p))
  end.
Proof.
  unfold Sys.read. io_unfold.
  change (MkWorld (nodes w) (io_log w ++ [EvOpenRead p]) (write_faults w))
    with (logged w (EvOpenRead p)).
  rewrite stat_logged.
  destruct (FS.stat w p) as [[|d]|]; reflexivity.
Qed.

Lemma write_spec (p : Path.t) (d : FileData) (w : World) :
  Sys.write p d w =
  match write_faults w !! p with
  | None =>
      (Ok tt, MkWorld (<[p := File d]> (nodes w)) (io_log w ++ [EvWrite p]) (write_faults w))
  | Some c =>
      (Raise OSError,
       MkWorld (<[p := File (Sys.left_behind c d)]> (nodes w)) (io_log w ++ [EvWrite p])
               (write_faults w))
  end.
Proof.
  unfold Sys.write, Sys.fault_at. io_unfold. simpl.
  destruct (write_faults w !! p); reflexivity.
Qed.

(** ** [grows] *)

Lemma grows_nodes (t : Path.t) (w w' : World) : nodes w' = nodes w → grows t w w'.
Proof. intros H q. left. now apply stat_nodes. Qed.

Lemma grows_trans (t : Path.t) (w1 w2 w3 : World) :
  grows t w1 w2 → grows t w2 w3 → grows t w1 w3.
Proof.
  intros H12 H23 q.
  destruct (H23 q) as [E23 | (N2 & D3 & P)]; destruct (H12 q) as [E12 | (N1 & D2 & P')].
  - left. congruence.
  - right. repeat split; [assumption | congruence | assumption].
  - right. repeat split; [congruence | assumption | assumption].
  - congruence.
Qed.

Lemma grows_weaken (t t' : Path.t) (w w' : World) :
  t `prefix_of` t' → grows t w w' → grows t' w w'.
Proof.
  intros Ht H q. destruct (H q) as [E | (N & D & P)]; [now left|right].
  repeat split; try assumption. now transitivity t.
Qed.

Lemma grows_put_dir (w : World) (p : Path.t) l f :
  FS.stat w p = None → grows p w (MkWorld (<[p := Dir]> (nodes w)) l f).
Proof.
  intros Hn q. destruct (decide (p = q)) as [<- | Hne].
  - right. repeat split; [assumption | | reflexivity].
    apply stat_put_eq. now apply (stat_none_not_root w).
  - left. rewrite (stat_put_ne _ l (io_log w) f (write_faults w) p q Dir Hne). now destruct w.
Qed.

Lemma parent_snoc (l : list string) (x : string) : Path.parent (l ++ [x]) = l.
Proof. apply removelast_last. Qed.

Lemma parent_prefix (p : Path.t) : Path.parent p `prefix_of` p.
Proof.
  induction p as [|x l _] using rev_ind.
  - reflexivity.
  - rewrite parent_snoc. now apply prefix_app_r.
Qed.

Lemma is_dir_stat (w : World) (p : Path.t) :
  FS.is_dir w p = true ↔ FS.stat w p = Some Dir.
Proof.
  unfold FS.is_dir. destruct (FS.stat w p) as [[|d]|]; split; congruence.
Qed.

Lemma mkdir_exist_ok_fresh (p : Path.t) (w : World) :
  FS.stat w p = None → FS.stat w (Path.parent p) = Some Dir →
  Sys.mkdir_exist_ok p w
  = (Ok tt, MkWorld (<[p := Dir]> (nodes w)) (io_log w ++ [EvMkdir p]) (write_faults w)).
Proof.
  intros Hp Hup. unfold Sys.mkdir_exist_ok, Sys.try_except.
  rewrite os_mkdir_spec, Hp, Hup. reflexivity.
Qed.

Lemma mkdir_parents_rev_unfold (rp : list string) (w : World) :
  Sys.mkdir_parents_rev rp w =
  Sys.try_except (Sys.os_mkdir (rev rp))
    (λ e, match e with
          | FileNotFoundError =>
              match rp with
              | [] => None
              | _ :: rp' => Some (_ ← Sys.mkdir_parents_rev rp'; Sys.mkdir_exist_ok (rev rp))
              end
          | _ => Some (Sys.unless_is_dir (rev rp) e)
          end) w.
Proof. destruct rp; reflexivity. Qed.

Lemma mkdir_parents_rev_spec (rp : list string) :
  ∀ w, ∃ r w',
    Sys.mkdir_parents_rev rp w = (r, w')
    ∧ grows (rev rp) w w'
    ∧ (r = Ok tt → FS.is_dir w' (rev rp) = true)
    ∧ (no_file_on_the_way w (rev rp) → r = Ok tt).
Proof.
  induction rp as [|x rp' IH]; intros w; rewrite mkdir_parents_rev_unfold;
    unfold Sys.try_except; rewrite os_mkdir_spec;
    destruct (FS.stat w (rev _)) as [n|] eqn:Hp.
  - (* the root is always there *)
    rewrite unless_is_dir_spec, stat_logged, Hp. simpl in Hp. injection Hp as <-.
    eexists _, _. split; [reflexivity|].
    split; [now apply grows_nodes|]. split; [|reflexivity].
    intros _. reflexivity.
  - discriminate Hp.
  - (* something is at [p] already *)
    rewrite unless_is_dir_spec, stat_logged, Hp.
    destruct n as [|d].
    + eexists _, _. split; [reflexivity|].
      split; [now apply grows_nodes|]. split; [|reflexivity].
      intros _. apply is_dir_stat. now rewrite stat_logged.
    + eexists _, _. split; [reflexivity|].
      split; [now apply grows_nodes|]. split; [discriminate|].
      intros Hno. specialize (Hno (rev (x :: rp')) (reflexivity _)).
      unfold FS.is_file in Hno. rewrite Hp in Hno. discriminate Hno.
  - (* nothing at [p] *)
    simpl rev in *. rewrite parent_snoc.
    destruct (FS.stat w (rev rp')) as [[|d]|] eqn:Hup.
    + eexists _, _. split; [reflexivity|].
      split; [now apply grows_put_dir|]. split; [|reflexivity].
      intros _. apply is_dir_stat. apply stat_put_eq. now apply (stat_none_not_root w).
    + rewrite unless_is_dir_spec, stat_logged, Hp.
      eexists _, _. split; [reflexivity|].
      split; [now apply grows_nodes|]. split; [discriminate|].
      intros Hno. specialize (Hno (rev rp') (prefix_app_r _ _ [x] (reflexivity _))).
      unfold FS.is_file in Hno. rewrite Hup in Hno. discriminate Hno.
    + destruct (IH (logged w (EvMkdir (rev rp' ++ [x])))) as (r1 & w1 & Hrun & Hg & Hdir & Hok).
      unfold mbind, io_bind. rewrite Hrun.
      assert (Hg' : grows (rev rp' ++ [x]) w w1).
      { apply (grows_trans _ w (logged w (EvMkdir (rev rp' ++ [x])))).
        - now apply grows_nodes.
        - apply (grows_weaken (rev rp')); [|exact Hg]. now apply prefix_app_r. }
      destruct r1 as [[]|e].
      * assert (Hp1 : FS.stat w1 (rev rp' ++ [x]) = None).
        { destruct (Hg' (rev rp' ++ [x])) as [E | (_ & _ & P)]; [congruence|].
          destruct (Hg (rev rp' ++ [x])) as [E | (_ & _ & P')].
          - rewrite E, stat_logged. exact Hp.
          - apply prefix_length in P'. rewrite length_app in P'. simpl in P'. lia. }
        specialize (Hdir eq_refl). apply is_dir_stat in Hdir.
        rewrite mkdir_exist_ok_fresh by (rewrite ?parent_snoc; assumption).
        eexists _, _. split; [reflexivity|]. split; [|split].
        -- apply (grows_trans _ w w1); [exact Hg'|]. now apply grows_put_dir.
        -- intros _. apply is_dir_stat. apply stat_put_eq.
           now apply (stat_none_not_root w).
        -- reflexivity.
      * eexists _, _. split; [reflexivity|]. split; [exact Hg'|].
        split; [discriminate|]. intros Hno.
        apply Hok. intros q Hq. unfold FS.is_file. rewrite stat_logged.
        apply (Hno q). now apply prefix_app_r.
Qed.

(** ** The device *)

(** Making directories, opening and reading leave the device as it is. *)
Lemma os_mkdir_faults (p : Path.t) (w : World) :
  write_faults (snd (Sys.os_mkdir p w)) = write_faults w.
Proof.
  rewrite os_mkdir_spec.
  destruct (FS.stat w p); [reflexivity|].
  destruct (FS.stat w (Path.parent p)) as [[|d]|]; reflexivity.
Qed.

Lemma unless_is_dir_faults (p : Path.t) (e : exn) (w : World) :
  write_faults (snd (Sys.unless_is_dir p e w)) = write_faults w.
Proof. rewrite unless_is_dir_spec. destruct (FS.stat w p) as [[|d]|]; reflexivity. Qed.

Lemma mkdir_exist_ok_faults (p : Path.t) (w : World) :
  write_faults (snd (Sys.mkdir_exist_ok p w)) = write_faults w.
Proof.
  unfold Sys.mkdir_exist_ok, Sys.try_except.
  pose proof (os_mkdir_faults p w) as H.
  destruct (Sys.os_mkdir p w) as [[[]|e] w1]; simpl in H; [exact H|].
  destruct e; try exact H; now rewrite unless_is_dir_faults.
Qed.

Lemma mkdir_parents_rev_faults (rp : list string) :
  ∀ w, write_faults (snd (Sys.mkdir_parents_rev rp w)) = write_faults w.
Proof.
  induction rp as [|x rp' IH]; intros w; rewrite mkdir_parents_rev_unfold;
    unfold Sys.try_except.
  - pose proof (os_mkdir_faults (rev []) w) as H.
    destruct (Sys.os_mkdir (rev []) w) as [[[]|e] w1]; simpl in H; [exact H|].
    destruct e; try exact H; now rewrite unless_is_dir_faults.
  - pose proof (os_mkdir_faults (rev (x :: rp')) w) as H.
    destruct (Sys.os_mkdir (rev (x :: rp')) w) as [[[]|e] w1]; simpl in H; [exact H|].
    destruct e; try exact H; try (now rewrite unless_is_dir_faults).
    rewrite io_bind_unfold. specialize (IH w1).
    destruct (Sys.mkdir_parents_rev rp' w1) as [[[]|e'] w2]; simpl in IH.
    + rewrite mkdir_exist_ok_faults. congruence.
    + simpl. congruence.
Qed.

Lemma open_wb_faults (p : Path.t) (w : World) :
  write_faults (snd (Sys.open_wb p w)) = write_faults w.
Proof.
  rewrite open_wb_spec.
  destruct (FS.stat w p) as [[|d]|]; try reflexivity.
  destruct (FS.stat w (Path.parent p)) as [[|d]|]; reflexivity.
Qed.

Lemma read_faults (p : Path.t) (w : World) :
  write_faults (snd (Sys.read p w)) = write_faults w.
Proof. rewrite read_spec. destruct (FS.stat w p) as [[|d]|]; reflexivity. Qed.

End SysFacts.

(* ===================================================================== *)
(** * The assembler *)
(* ===================================================================== *)

Module AssemblerFacts.
Import SysFacts.

Lemma page_of_spec (p : Path.t) (w : World) :
  Img2pdf.page_of Img2pdf.get_layout_fun_pagesize_None p w =
  match FS.stat w p with
  | Some (File (Image r)) =>
      (Ok (MkPage (width r) (height r) (width r) (height r) r), logged w (EvOpenRead p))
  | Some (File _) => (Raise ImageOpenError, logged w (EvOpenRead p))
  | Some Dir => (Raise IsADirectoryError, logged w (EvOpenRead p))
  | None => (Raise FileNotFoundError, logged w (EvOpenRead p))
  end.
Proof.
  unfold Img2pdf.page_of. unfold mbind at 1, io_bind. rewrite read_spec.
  destruct (FS.stat w p) as [[|[r|pg|b|tr]]|]; reflexivity.
Qed.

Lemma exact_fit_nodes (w w' : World) (p : Path.t) (pg : Page) :
  nodes w' = nodes w → exact_fit w' p pg → exact_fit w p pg.
Proof.
  intros H (r & Hr & Hrest). exists r. split; [|exact Hrest].
  now rewrite <- (stat_nodes w w' p H).
Qed.

(** The pages of a document: reading changes no file; the pages that come
    back are the exact-fit pages of the images, in order; and pages do
    come back when every path holds an image. *)
Lemma pages_spec (imgs : list Path.t) :
  ∀ w, ∃ r w',
    mapM (Img2pdf.page_of Img2pdf.get_layout_fun_pagesize_None) imgs w = (r, w')
    ∧ nodes w' = nodes w
    ∧ (∀ pages, r = Ok pages → Forall2 (exact_fit w) imgs pages)
    ∧ (Forall (is_raster w) imgs → returned r = true).
Proof.
  induction imgs as [|p imgs IH]; intros w.
  - exists (Ok []), w. repeat split; try reflexivity.
    intros pages [= <-]. constructor.
  - simpl. rewrite io_bind_unfold, page_of_spec.
    destruct (FS.stat w p) as [[|[r|pg|b|tr]]|] eqn:Hp;
      try (eexists _, _; split; [reflexivity|]; split; [reflexivity|];
           split; [discriminate|];
           intros Hall; apply Forall_cons in Hall as [(r' & Hr') _]; congruence).
    destruct (IH (logged w (EvOpenRead p))) as (r1 & w1 & Hrun & Hn & Hpages & Hok).
    rewrite io_bind_unfold, Hrun.
    destruct r1 as [pages|e]; simpl.
    + eexists _, _. split; [reflexivity|]. split; [exact Hn|].
      split; [|reflexivity].
      intros pages' [= <-]. constructor.
      * exists r. repeat split; assumption.
      * specialize (Hpages pages eq_refl).
        eapply Forall2_impl; [exact Hpages|].
        intros q pg. now apply exact_fit_nodes.
    + eexists _, _. split; [reflexivity|]. split; [exact Hn|].
      split; [discriminate|].
      intros Hall. apply Forall_cons in Hall as [_ Hall].
      assert (Hall' : Forall (is_raster (logged w (EvOpenRead p))) imgs).
      { eapply Forall_impl; [exact Hall|]. intros q (r' & Hr').
        exists r'. now rewrite stat_logged. }
      specialize (Hok Hall'). discriminate Hok.
Qed.

Lemma pages_faults (imgs : list Path.t) :
  ∀ w, write_faults (snd (mapM (Img2pdf.page_of Img2pdf.get_layout_fun_pagesize_None) imgs w))
       = write_faults w.
Proof.
  induction imgs as [|p imgs IH]; intros w; [reflexivity|].
  simpl. rewrite io_bind_unfold, page_of_spec.
  destruct (FS.stat w p) as [[|[r|pg|b|tr]]|]; try reflexivity.
  rewrite io_bind_unfold. specialize (IH (logged w (EvOpenRead p))).
  destruct (mapM (Img2pdf.page_of Img2pdf.get_layout_fun_pagesize_None) imgs
              (logged w (EvOpenRead p))) as [[pages|e] w1]; exact IH.
Qed.

Lemma not_prefix_of_parent (p : Path.t) : p ≠ [] → ¬ p `prefix_of` Path.parent p.
Proof.
  induction p as [|x l _] using rev_ind; [congruence|]. intros _ H.
  rewrite parent_snoc in H. apply prefix_length in H.
  rewrite length_app in H. simpl in H. lia.
Qed.

(** A directory made on the way to the parent of [out] is not [out]. *)
Lemma grows_at_output (out : Path.t) (w w1 : World) :
  grows (Path.parent out) w w1 → FS.stat w1 out = FS.stat w out.
Proof.
  intros Hg. destruct (Hg out) as [E | (N & _ & P)]; [exact E|].
  exfalso. apply (not_prefix_of_parent out); [|exact P].
  now apply (stat_none_not_root w).
Qed.


Lemma convert_unfold (imgs : list Path.t) (fit : Img2pdf.FitMode) (w : World) :
  Img2pdf.convert imgs Img2pdf.get_layout_fun_pagesize_None fit w =
  match mapM (Img2pdf.page_of Img2pdf.get_layout_fun_pagesize_None) imgs w with
  | (Ok pages, w') => (Ok (Pdf pages), w')
  | (Raise e, w') => (Raise e, w')
  end.
Proof. reflexivity. Qed.

Lemma convert_images_to_pdf_unfold (imgs : list Path.t) (out : Path.t) (w : World) :
  imgs ≠ [] →
  convert_images_to_pdf imgs out w =
  match Sys.mkdir_parents (Path.parent out) w with
  | (Ok _, w1) =>
      match Sys.open_wb out w1 with
      | (Ok _, w2) =>
          match Img2pdf.convert imgs Img2pdf.get_layout_fun_pagesize_None Img2pdf.exact w2 with
          | (Ok data, w3) => Sys.write out data w3
          | (Raise e, w3) => (Raise e, w3)
          end
      | (Raise e, w2) => (Raise e, w2)
      end
  | (Raise e, w1) => (Raise e, w1)
  end.
Proof. destruct imgs; [congruence|]. reflexivity. Qed.

(** What is at [out] once the file has been opened for writing. *)
Lemma open_wb_result (out : Path.t) (w1 : World) :
  ∃ r w2, Sys.open_wb out w1 = (r, w2) ∧
    match r with
    | Ok _ => out ≠ [] ∧ FS.stat w1 out ≠ Some Dir
              ∧ nodes w2 = <[out := File empty_file]> (nodes w1)
    | Raise _ => nodes w2 = nodes w1
    end
    ∧ (FS.is_dir w1 out = false → FS.is_dir w1 (Path.parent out) = true → r = Ok tt).
Proof.
  rewrite open_wb_spec. unfold FS.is_dir.
  destruct (FS.stat w1 out) as [[|d]|] eqn:Hout; simpl.
  - eexists _, _. split; [reflexivity|]. split; [reflexivity|]. discriminate.
  - eexists _, _. split; [reflexivity|]. split; [|reflexivity].
    repeat split; [|discriminate]. intros ->. discriminate Hout.
  - destruct (FS.stat w1 (Path.parent out)) as [[|d]|];
      eexists _, _; (split; [reflexivity|]); (split; [|try reflexivity; discriminate]);
      try reflexivity.
    repeat split; [|discriminate]. intros ->. discriminate Hout.
Qed.

Lemma stat_of_nodes_insert (w1 w2 : World) (out q : Path.t) (n : node) :
  nodes w2 = <[out := n]> (nodes w1) → out ≠ [] →
  FS.stat w2 q = if decide (out = q) then Some n else FS.stat w1 q.
Proof.
  intros Hn Hne. destruct w1 as [m1 l1], w2 as [m2 l2]. simpl in Hn. subst m2.
  destruct (decide (out = q)) as [<- | Hq].
  - now apply stat_put_eq.
  - now apply stat_put_ne.
Qed.


End AssemblerFacts.

Module LogFacts.
Import SysFacts AssemblerFacts.

Lemma calls_refl (w : World) : calls_between w w [].
Proof. unfold calls_between. now rewrite app_nil_r. Qed.

Lemma calls_trans (w1 w2 w3 : World) (a b : list io_event) :
  calls_between w1 w2 a → calls_between w2 w3 b → calls_between w1 w3 (a ++ b).
Proof. unfold calls_between. intros H1 H2. now rewrite H2, H1, app_assoc. Qed.

Lemma calls_logged (w : World) (ev : io_event) : calls_between w (logged w ev) [ev].
Proof. reflexivity. Qed.

(** [os.mkdir] is one call. *)
Lemma os_mkdir_calls (p : Path.t) (w : World) :
  calls_between w (snd (Sys.os_mkdir p w)) [EvMkdir p].
Proof.
  rewrite os_mkdir_spec.
  destruct (FS.stat w p); [reflexivity|].
  destruct (FS.stat w (Path.parent p)) as [[|d]|]; reflexivity.
Qed.

Lemma unless_is_dir_calls (p : Path.t) (e : exn) (w : World) :
  snd (Sys.unless_is_dir p e w) = w.
Proof. rewrite unless_is_dir_spec. destruct (FS.stat w p) as [[|d]|]; reflexivity. Qed.

Lemma mkdir_exist_ok_calls (p : Path.t) (w : World) :
  calls_between w (snd (Sys.mkdir_exist_ok p w)) [EvMkdir p].
Proof.
  unfold Sys.mkdir_exist_ok, Sys.try_except.
  pose proof (os_mkdir_calls p w) as H.
  destruct (Sys.os_mkdir p w) as [[[]|e] w1]; simpl in *; [exact H|].
  destruct e; try (rewrite unless_is_dir_calls; exact H). exact H.
Qed.

(** [mkdir(parents=True)] makes [os.mkdir] calls only. *)
Lemma mkdir_parents_rev_calls (rp : list string) :
  ∀ w, ∃ dirs, calls_between w (snd (Sys.mkdir_parents_rev rp w)) (List.map EvMkdir dirs).
Proof.
  induction rp as [|x rp' IH]; intros w; rewrite mkdir_parents_rev_unfold;
    unfold Sys.try_except.
  - pose proof (os_mkdir_calls (rev []) w) as H.
    destruct (Sys.os_mkdir (rev []) w) as [[[]|e] w1]; simpl in *.
    + exists [[]]. exact H.
    + destruct e; try (rewrite unless_is_dir_calls); exists [[]]; exact H.
  - pose proof (os_mkdir_calls (rev (x :: rp')) w) as H.
    destruct (Sys.os_mkdir (rev (x :: rp')) w) as [[[]|e] w1]; simpl in *.
    + exists [rev rp' ++ [x]]. exact H.
    + destruct e; try (rewrite unless_is_dir_calls; exists [rev rp' ++ [x]]; exact H).
      destruct (IH w1) as (dirs & Hdirs).
      rewrite io_bind_unfold.
      destruct (Sys.mkdir_parents_rev rp' w1) as [[[]|e] w2]; simpl in *.
      * pose proof (mkdir_exist_ok_calls (rev rp' ++ [x]) w2) as H2.
        exists ([rev rp' ++ [x]] ++ dirs ++ [rev rp' ++ [x]]).
        rewrite !List.map_app.
        eapply calls_trans; [exact H|]. eapply calls_trans; [exact Hdirs|exact H2].
      * exists ([rev rp' ++ [x]] ++ dirs). rewrite List.map_app.
        eapply calls_trans; [exact H|exact Hdirs].
Qed.

Lemma open_wb_calls (p : Path.t) (w : World) :
  calls_between w (snd (Sys.open_wb p w)) [EvOpenWrite p].
Proof.
  rewrite open_wb_spec.
  destruct (FS.stat w p) as [[|d]|]; try reflexivity.
  destruct (FS.stat w (Path.parent p)) as [[|d]|]; reflexivity.
Qed.

(** Reading the pages opens the images in order, up to the first that
    fails. *)
Lemma pages_calls (imgs : list Path.t) :
  ∀ w, ∃ n,
    calls_between w
      (snd (mapM (Img2pdf.page_of Img2pdf.get_layout_fun_pagesize_None) imgs w))
      (List.map EvOpenRead (firstn n imgs))
    ∧ (returned (fst (mapM (Img2pdf.page_of Img2pdf.get_layout_fun_pagesize_None) imgs w)) = true
       → firstn n imgs = imgs).
Proof.
  induction imgs as [|p imgs IH]; intros w.
  - exists 0%nat. split; [apply calls_refl|reflexivity].
  - simpl. rewrite io_bind_unfold, page_of_spec.
    destruct (FS.stat w p) as [[|[r|pg|b|tr]]|];
      try (exists 1%nat; split; [reflexivity|discriminate]).
    destruct (IH (logged w (EvOpenRead p))) as (n & Hcalls & Hall).
    rewrite io_bind_unfold.
    destruct (mapM (Img2pdf.page_of Img2pdf.get_layout_fun_pagesize_None) imgs
                   (logged w (EvOpenRead p))) as [[pages|e] w1]; simpl in *.
    + exists (S n). split.
      * change (calls_between w w1 ([EvOpenRead p] ++ List.map EvOpenRead (firstn n imgs))).
        eapply calls_trans; [apply calls_logged|exact Hcalls].
      * intros _. simpl. now rewrite Hall.
    + exists (S n). split; [|discriminate].
      change (calls_between w w1 ([EvOpenRead p] ++ List.map EvOpenRead (firstn n imgs))).
      eapply calls_trans; [apply calls_logged|exact Hcalls].
Qed.

(** The calls of [convert_images_to_pdf], by outcome: [mkdir] calls, then
    the opening of the output, the reads, and the write; a run that raises
    stops before the write, unless it is the write that fails. *)
Lemma assemble_calls (imgs : list Path.t) (out : Path.t) (w : World) (r : Res unit)
    (w' : World) :
  imgs ≠ [] → convert_images_to_pdf imgs out w = (r, w') →
  ∃ dirs evs,
    calls_between w w' (List.map EvMkdir dirs ++ evs)
    ∧ match r with
      | Ok _ => evs = EvOpenWrite out :: List.map EvOpenRead imgs ++ [EvWrite out]
      | Raise e =>
          (evs = [] ∨ ∃ n, evs = EvOpenWrite out :: List.map EvOpenRead (firstn n imgs))
          ∨ (e = OSError ∧ write_faults w !! out ≠ None
             ∧ evs = EvOpenWrite out :: List.map EvOpenRead imgs ++ [EvWrite out])
      end.
Proof.
  intros Hne Hrun.
  rewrite convert_images_to_pdf_unfold in Hrun by exact Hne.
  unfold Sys.mkdir_parents in Hrun.
  destruct (mkdir_parents_rev_calls (rev (Path.parent out)) w) as (dirs & Hdirs).
  pose proof (mkdir_parents_rev_faults (rev (Path.parent out)) w) as Hf1.
  destruct (Sys.mkdir_parents_rev (rev (Path.parent out)) w) as [[[]|e1] w1];
    simpl in Hdirs, Hf1.
  2:{ injection Hrun as <- <-. exists dirs, []. rewrite app_nil_r.
      split; [exact Hdirs|]. left; now left. }
  pose proof (open_wb_calls out w1) as Hopen.
  pose proof (open_wb_faults out w1) as Hf2.
  destruct (Sys.open_wb out w1) as [[[]|e2] w2]; simpl in Hopen, Hf2.
  2:{ injection Hrun as <- <-. exists dirs, [EvOpenWrite out].
      split; [eapply calls_trans; eassumption|].
      left; right. now exists 0%nat. }
  rewrite convert_unfold in Hrun.
  destruct (pages_calls imgs w2) as (n & Hreads & Hall).
  pose proof (pages_faults imgs w2) as Hf3.
  destruct (mapM (Img2pdf.page_of Img2pdf.get_layout_fun_pagesize_None) imgs w2)
    as [[pages|e3] w3]; simpl in Hreads, Hall, Hf3.
  - rewrite (Hall eq_refl) in Hreads.
    assert (Hcalls : ∀ n0, calls_between w
              (MkWorld (<[out := n0]> (nodes w3)) (io_log w3 ++ [EvWrite out]) (write_faults w3))
              (List.map EvMkdir dirs
               ++ EvOpenWrite out :: List.map EvOpenRead imgs ++ [EvWrite out])).
    { intros n0.
      change (EvOpenWrite out :: List.map EvOpenRead imgs ++ [EvWrite out])
        with ([EvOpenWrite out] ++ List.map EvOpenRead imgs ++ [EvWrite out]).
      eapply calls_trans; [exact Hdirs|].
      eapply calls_trans; [exact Hopen|].
      eapply calls_trans; [exact Hreads|]. reflexivity. }
    rewrite write_spec in Hrun.
    assert (Hf : write_faults w3 = write_faults w) by congruence.
    destruct (write_faults w3 !! out) as [c|] eqn:Hc; injection Hrun as <- <-;
      eexists dirs, _; (split; [apply Hcalls|]).
    + right. split; [reflexivity|]. split; [|reflexivity]. rewrite <- Hf, Hc. discriminate.
    + reflexivity.
  - injection Hrun as <- <-.
    exists dirs, ([EvOpenWrite out] ++ List.map EvOpenRead (firstn n imgs)).
    split.
    + eapply calls_trans; [exact Hdirs|].
      eapply calls_trans; [exact Hopen|exact Hreads].
    + left; right. now exists n.
Qed.

End LogFacts.

(** C9. With an empty image list [convert_images_to_pdf] raises
    [ValueError] and leaves the world as it was: no directory is made, no
    file is created or emptied, and no system call is logged. *)
Theorem assemble_rejects_empty_list :
  ∀ (output_pdf : Path.t) (w : World),
    convert_images_to_pdf [] output_pdf w = (Raise ValueError, w).
Proof. intros output_pdf w. reflexivity. Qed.


(** With no file at the output path before the call, the same failure
    leaves an empty file there. *)
Example assemble_failure_leaves_empty_file :
  let output_pdf := ["in"; "result"; "new.pdf"] in
  let run := convert_images_to_pdf [["in"; "broken.png"]] output_pdf example_world in
  fst run = Raise ImageOpenError
  ∧ FS.stat example_world output_pdf = None
  ∧ FS.stat (snd run) output_pdf = Some (File empty_file).
Proof. vm_compute. repeat split. Qed.

(** When the device refuses the write part-way, the call raises [OSError]
    and leaves a truncated document at the output path. *)
Example assemble_failure_leaves_truncated_document :
  let output_pdf := ["in"; "result"; "new.pdf"] in
  let run := convert_images_to_pdf [["in"; "A.jpg"]] output_pdf world_with_full_disk in
  fst run = Raise OSError
  ∧ FS.stat world_with_full_disk output_pdf = None
  ∧ FS.stat (snd run) output_pdf
    = Some (File (Truncated (Pdf [MkPage 800 600 800 600 image_A]))).
Proof. vm_compute. repeat split. Qed.





(** The two-image example of the specification, run: page 1 is 800 x 600,
    page 2 is 1200 x 1600, and the missing output directories are made. *)
Example assemble_two_images :
  let output_pdf := ["in"; "fresh"; "out"; "merged.pdf"] in
  let run := convert_images_to_pdf [["in"; "A.jpg"]; ["in"; "B.png"]] output_pdf example_world in
  fst run = Ok tt
  ∧ FS.stat (snd run) output_pdf
    = Some (File (Pdf [MkPage 800 600 800 600 image_A; MkPage 1200 1600 1200 1600 image_B]))
  ∧ FS.is_dir (snd run) ["in"; "fresh"; "out"] = true
  ∧ FS.stat (snd run) ["in"; "result"; "merged.pdf"] = Some (File earlier_document).
Proof. vm_compute. repeat split. Qed.

(* ===================================================================== *)
(** * The handlers *)
(* ===================================================================== *)

Module HandlerFacts.

Lemma is_dir_exists (w : World) (p : Path.t) :
  FS.exists_ w p && FS.is_dir w p = FS.is_dir w p.
Proof. unfold FS.exists_, FS.is_dir. destruct (FS.stat w p) as [[|d]|]; reflexivity. Qed.

Lemma filter_none {A} (f : A → bool) (l : list A) :
  Forall (λ x, f x = false) l → List.filter f l = [].
Proof.
  induction 1 as [|x l Hx _ IH]; simpl; [reflexivity|]. now rewrite Hx.
Qed.

Lemma nonempty_false (s : string) : Str.nonempty s = false → s = "".
Proof. destruct s; [reflexivity|discriminate]. Qed.

(** [on_drop] with its first directory singled out. *)
Lemma on_drop_folder (raw : string) (w : World) (app : App)
      (before after : list Path.t) (folder : Path.t) :
  dropped_paths raw = before ++ folder :: after →
  Forall (λ p, FS.is_dir w p = false) before →
  FS.is_dir w folder = true →
  on_drop raw w app = route_folder w folder app.
Proof.
  intros Hsplit Hbefore Hfolder. unfold on_drop.
  destruct (Str.nonempty raw) eqn:Hraw; simpl.
  2:{ apply nonempty_false in Hraw. subst raw.
      unfold dropped_paths in Hsplit. simpl in Hsplit.
      now destruct before. }
  fold (dropped_paths raw). rewrite Hsplit, List.filter_app. simpl.
  rewrite filter_none.
  2:{ eapply Forall_impl; [exact Hbefore|]. intros p Hp. simpl.
      now rewrite is_dir_exists. }
  rewrite is_dir_exists, Hfolder. reflexivity.
Qed.

Lemma on_drop_no_images (raw : string) (w : World) (app : App) :
  Str.nonempty raw = true →
  Forall (λ p, FS.is_dir w p = false ∧ is_image w p = false) (dropped_paths raw) →
  on_drop raw w app = Ok (showwarning NoImagesInDrop app).
Proof.
  intros Hraw Hall. unfold on_drop. rewrite Hraw. simpl.
  fold (dropped_paths raw).
  rewrite filter_none.
  2:{ eapply Forall_impl; [exact Hall|]. intros p [Hp _]. simpl.
      now rewrite is_dir_exists. }
  rewrite filter_none; [reflexivity|].
  eapply Forall_impl; [exact Hall|]. intros p [_ Hp]. simpl.
  rewrite Hp. apply andb_false_r.
Qed.

Lemma pick_files_no_images (filepaths : list string) (w : World) (app : App) :
  filepaths ≠ [] →
  Forall (λ s, is_image w (Path.of_string s) = false) filepaths →
  pick_files filepaths w app = Ok (showwarning NoImagesInPickedFiles app).
Proof.
  intros Hne Hall.
  assert (Hnone : List.filter (is_image w) (List.map Path.of_string filepaths) = []).
  { apply filter_none. apply Forall_map. exact Hall. }
  unfold pick_files. rewrite Hnone.
  destruct filepaths as [|s rest]; [congruence|]. reflexivity.
Qed.

End HandlerFacts.

(** C5. When the paths of a drop payload contain a directory, [on_drop]
    does exactly what selecting the first directory in scan order does: the
    images are collected from that folder, and the outcome does not depend
    on the paths dropped before it (none of which is a directory) or after
    it (files or further directories). *)
Theorem drop_routes_first_directory :
  ∀ (raw : string) (w : World) (app : App) (before after : list Path.t) (folder : Path.t),
    dropped_paths raw = before ++ folder :: after →
    Forall (λ p, FS.is_dir w p = false) before →
    FS.is_dir w folder = true →
    on_drop raw w app = route_folder w folder app
    ∧ (∀ app', on_drop raw w app = Ok app' →
         ∃ images, list_images_in_folder w folder (recursive_var app) = Ok images
                   ∧ state app' = MkSelection "folder" (Some folder) (Some images)).
Proof.
  intros raw w app before after folder Hsplit Hbefore Hfolder.
  rewrite (HandlerFacts.on_drop_folder raw w app before after folder Hsplit Hbefore Hfolder).
  split; [reflexivity|].
  intros app'. unfold route_folder.
  destruct (list_images_in_folder w folder (recursive_var app)) as [images|e]; simpl;
    [|discriminate].
  intros [= <-]. exists images. split; [reflexivity|].
  destruct (is_nil images); reflexivity.
Qed.

Lemma drop_routes_first_directory_witness :
  let raw := "/in/A.jpg {/in} /in/B.png /in/result" in
  (dropped_paths raw = [["in"; "A.jpg"]] ++ ["in"] :: [["in"; "B.png"]; ["in"; "result"]]
   ∧ Forall (λ p, FS.is_dir example_world p = false) [["in"; "A.jpg"]]
   ∧ FS.is_dir example_world ["in"] = true)
  ∧ on_drop raw example_world init_app = route_folder example_world ["in"] init_app
  ∧ state <$> (match on_drop raw example_world init_app with
               | Ok app' => Some app' | Raise _ => None end)
    = Some (MkSelection "folder" (Some ["in"])
              (Some [["in"; "A.jpg"]; ["in"; "B.png"]; ["in"; "broken.png"]])).
Proof.
  intros raw.
  assert (H1 : dropped_paths raw
               = [["in"; "A.jpg"]] ++ ["in"] :: [["in"; "B.png"]; ["in"; "result"]])
    by reflexivity.
  assert (H2 : Forall (λ p, FS.is_dir example_world p = false) [["in"; "A.jpg"]])
    by (repeat constructor).
  assert (H3 : FS.is_dir example_world ["in"] = true) by reflexivity.
  split; [auto|]. split.
  - exact (proj1 (drop_routes_first_directory raw example_world init_app _ _ _ H1 H2 H3)).
  - vm_compute. reflexivity.
Defined.

(** C6. When the file dialog returns paths none of which is a supported
    image, [pick_files] shows the advisory and keeps the selection; when a
    drop payload names no existing directory and no supported image,
    [on_drop] shows the advisory and keeps the selection.  In both cases
    every field of the prior [SelectionState] is as before.  (A cancelled
    dialog and an empty payload return at once: the selection is kept and
    nothing is shown.) *)
Theorem empty_selection_keeps_state :
  (∀ (filepaths : list string) (w : World) (app : App),
     filepaths ≠ [] →
     Forall (λ s, is_image w (Path.of_string s) = false) filepaths →
     ∃ app', pick_files filepaths w app = Ok app'
             ∧ advised NoImagesInPickedFiles app app')
  ∧ (∀ (raw : string) (w : World) (app : App),
       Str.nonempty raw = true →
       Forall (λ p, FS.is_dir w p = false ∧ is_image w p = false) (dropped_paths raw) →
       ∃ app', on_drop raw w app = Ok app'
               ∧ advised NoImagesInDrop app app')
  ∧ (∀ w app, pick_files [] w app = Ok app)
  ∧ (∀ w app, on_drop "" w app = Ok app).
Proof.
  split; [|split; [|split]].
  - intros filepaths w app Hne Hall.
    exists (showwarning NoImagesInPickedFiles app).
    split; [now apply HandlerFacts.pick_files_no_images|].
    repeat split.
  - intros raw w app Hraw Hall.
    exists (showwarning NoImagesInDrop app).
    split; [now apply HandlerFacts.on_drop_no_images|].
    repeat split.
  - reflexivity.
  - reflexivity.
Qed.

Lemma empty_selection_keeps_state_witness :
  (∃ app', pick_files ["/in/result/merged.pdf"; "/in/missing.png"] example_world
                      app_with_selection = Ok app'
           ∧ advised NoImagesInPickedFiles app_with_selection app')
  ∧ (∃ app', on_drop "{/in/result/merged.pdf} /in/missing.png" example_world
                     app_with_selection = Ok app'
             ∧ advised NoImagesInDrop app_with_selection app').
Proof.
  destruct empty_selection_keeps_state as (Hpick & Hdrop & _).
  split.
  - apply Hpick; [discriminate|]. repeat constructor.
  - apply Hdrop; [reflexivity|]. repeat constructor.
Defined.

(* ===================================================================== *)
(** * Orders: strings, component lists, keys *)
(* ===================================================================== *)

Section LexFacts.
Context {A : Type} (cmp : A → A → comparison) (Hcmp : total_compare cmp).

Lemma lex_refl (a : list A) : lex_compare cmp a a = Eq.
Proof. induction a as [|x a IH]; simpl; [reflexivity|]. now rewrite (cmp_refl _ Hcmp). Qed.

Lemma lex_eq (a b : list A) : lex_compare cmp a b = Eq → a = b.
Proof.
  revert b. induction a as [|x a IH]; intros [|y b]; simpl; try congruence.
  destruct (cmp x y) eqn:E; try discriminate.
  intros H. apply (cmp_eq _ Hcmp) in E. subst y. f_equal. now apply IH.
Qed.

Lemma lex_antisym (a b : list A) : lex_compare cmp b a = CompOpp (lex_compare cmp a b).
Proof.
  revert b. induction a as [|x a IH]; intros [|y b]; simpl; try reflexivity.
  rewrite (cmp_antisym _ Hcmp x y). destruct (cmp x y); simpl; [apply IH|reflexivity..].
Qed.

Lemma lex_trans (a b c : list A) :
  lex_compare cmp a b = Lt → lex_compare cmp b c = Lt → lex_compare cmp a c = Lt.
Proof.
  revert b c. induction a as [|x a IH]; intros [|y b] [|z c]; simpl; try congruence.
  destruct (cmp x y) eqn:Exy; try discriminate.
  - apply (cmp_eq _ Hcmp) in Exy. subst y.
    destruct (cmp x z); try congruence. apply IH.
  - intros _. destruct (cmp y z) eqn:Eyz; try discriminate.
    + apply (cmp_eq _ Hcmp) in Eyz. subst z. now rewrite Exy.
    + now rewrite (cmp_trans _ Hcmp x y z Exy Eyz).
Qed.

Lemma lex_total_compare : total_compare (lex_compare cmp).
Proof. split; [apply lex_refl | apply lex_eq | apply lex_antisym | apply lex_trans]. Qed.

End LexFacts.

Section OrderFacts.
Context {A : Type} (cmp : A → A → comparison) (Hcmp : total_compare cmp).

Lemma not_gt_refl (x : A) : not_gt cmp x x.
Proof. unfold not_gt. now rewrite (cmp_refl _ Hcmp). Qed.

Lemma not_gt_trans (x y z : A) : not_gt cmp x y → not_gt cmp y z → not_gt cmp x z.
Proof.
  unfold not_gt. intros Hxy Hyz.
  destruct (cmp x y) eqn:Exy; [| |congruence].
  - apply (cmp_eq _ Hcmp) in Exy. now subst y.
  - destruct (cmp y z) eqn:Eyz; [| |congruence].
    + apply (cmp_eq _ Hcmp) in Eyz. subst z. now rewrite Exy.
    + now rewrite (cmp_trans _ Hcmp x y z Exy Eyz).
Qed.

Lemma not_lt_not_gt (x y : A) : cmp y x ≠ Lt → not_gt cmp x y.
Proof.
  unfold not_gt. rewrite (cmp_antisym _ Hcmp x y). destruct (cmp x y); simpl; congruence.
Qed.

Lemma lt_not_gt (x y : A) : cmp x y = Lt → not_gt cmp x y.
Proof. unfold not_gt. congruence. Qed.

End OrderFacts.

Module StrFacts.

Lemma code_inj (x y : ascii) : Chr.code x = Chr.code y → x = y.
Proof.
  unfold Chr.code. intros H.
  rewrite <- (ascii_N_embedding x), <- (ascii_N_embedding y). now rewrite H.
Qed.

Lemma char_total : total_compare char_compare.
Proof.
  unfold char_compare. split.
  - intros x. apply N.compare_refl.
  - intros x y H. apply N.compare_eq in H. now apply code_inj.
  - intros x y. apply N.compare_antisym.
  - intros x y z H1%N.compare_lt_iff H2%N.compare_lt_iff.
    apply N.compare_lt_iff. now apply (N.lt_trans _ (Chr.code y)).
Qed.

Lemma compare_chars (a b : string) :
  Str.compare a b = lex_compare char_compare (Str.chars a) (Str.chars b).
Proof.
  revert b. induction a as [|x a IH]; intros [|y b]; simpl; try reflexivity.
  fold (char_compare x y). destruct (char_compare x y); [apply IH|reflexivity..].
Qed.

Lemma chars_inj (a b : string) : Str.chars a = Str.chars b → a = b.
Proof.
  unfold Str.chars. intros H.
  rewrite <- (string_of_list_ascii_of_string a), <- (string_of_list_ascii_of_string b).
  now rewrite H.
Qed.

Lemma str_total : total_compare Str.compare.
Proof.
  pose proof (lex_total_compare _ char_total) as [R E An T].
  split; intros; rewrite ?compare_chars in *.
  - apply R.
  - apply chars_inj. now apply E.
  - apply An.
  - eapply T; eassumption.
Qed.

Lemma list_total : total_compare (lex_compare Str.compare).
Proof. apply lex_total_compare, str_total. Qed.

End StrFacts.

Module PathFacts.
Import PosixPath.

Lemma list_lt_spec (a b : list string) :
  list_lt a b = true ↔ lex_compare Str.compare a b = Lt.
Proof. unfold list_lt. destruct (lex_compare Str.compare a b); split; congruence. Qed.

(** [min_from x l] is an element of [x :: l] below all of them. *)
Lemma min_from_spec (l : list (list string)) :
  ∀ x, min_from x l ∈ x :: l ∧ ∀ y, y ∈ x :: l → list_le (min_from x l) y.
Proof.
  induction l as [|z l IH]; intros x; simpl.
  - split; [now left|]. intros y Hy. apply list_elem_of_In in Hy as [<-|[]].
    apply not_gt_refl, StrFacts.list_total.
  - destruct (IH (if list_lt z x then z else x)) as [Hin Hle].
    fold (min_from (if list_lt z x then z else x) l) in *.
    split.
    + apply elem_of_cons in Hin as [Hin|Hin].
      * rewrite Hin. destruct (list_lt z x); [right; left|left].
      * now right; right.
    + assert (Hx' : list_le (if list_lt z x then z else x) x
                    ∧ list_le (if list_lt z x then z else x) z).
      { destruct (list_lt z x) eqn:E.
        - split; [|apply not_gt_refl, StrFacts.list_total].
          apply lt_not_gt. now apply list_lt_spec.
        - split; [apply not_gt_refl, StrFacts.list_total|].
          apply not_lt_not_gt; [apply StrFacts.list_total|].
          intros H. apply list_lt_spec in H. congruence. }
      destruct Hx' as [Hx Hz].
      pose proof (Hle _ (list_elem_of_here _ _)) as Hm.
      intros y Hy. apply elem_of_cons in Hy as [->|Hy].
      * eapply not_gt_trans; [apply StrFacts.list_total|exact Hm|exact Hx].
      * apply elem_of_cons in Hy as [->|Hy].
        -- eapply not_gt_trans; [apply StrFacts.list_total|exact Hm|exact Hz].
        -- apply Hle. now right.
Qed.

(** [max_from x l] is an element of [x :: l] above all of them. *)
Lemma max_from_spec (l : list (list string)) :
  ∀ x, max_from x l ∈ x :: l ∧ ∀ y, y ∈ x :: l → list_le y (max_from x l).
Proof.
  induction l as [|z l IH]; intros x; simpl.
  - split; [now left|]. intros y Hy. apply list_elem_of_In in Hy as [<-|[]].
    apply not_gt_refl, StrFacts.list_total.
  - destruct (IH (if list_lt x z then z else x)) as [Hin Hle].
    fold (max_from (if list_lt x z then z else x) l) in *.
    split.
    + apply elem_of_cons in Hin as [Hin|Hin].
      * rewrite Hin. destruct (list_lt x z); [right; left|left].
      * now right; right.
    + assert (Hx' : list_le x (if list_lt x z then z else x)
                    ∧ list_le z (if list_lt x z then z else x)).
      { destruct (list_lt x z) eqn:E.
        - split; [|apply not_gt_refl, StrFacts.list_total].
          apply lt_not_gt. now apply list_lt_spec.
        - split; [apply not_gt_refl, StrFacts.list_total|].
          apply not_lt_not_gt; [apply StrFacts.list_total|].
          intros H. apply list_lt_spec in H. congruence. }
      destruct Hx' as [Hx Hz].
      pose proof (Hle _ (list_elem_of_here _ _)) as Hm.
      intros y Hy. apply elem_of_cons in Hy as [->|Hy].
      * eapply not_gt_trans; [apply StrFacts.list_total|exact Hx|exact Hm].
      * apply elem_of_cons in Hy as [->|Hy].
        -- eapply not_gt_trans; [apply StrFacts.list_total|exact Hz|exact Hm].
        -- apply Hle. now right.
Qed.

(** Between two lists, in the lexicographic order, everything starts
    with what the two have in common. *)
Lemma prefix_between (q a x b : list string) :
  q `prefix_of` a → q `prefix_of` b → list_le a x → list_le x b → q `prefix_of` x.
Proof.
  revert a x b. induction q as [|c q IH]; intros a x b Ha Hb Hax Hxb.
  - apply prefix_nil.
  - destruct Ha as [a' ->], Hb as [b' ->]. unfold not_gt in *. simpl in *.
    destruct x as [|d x]; [congruence|]. simpl in *.
    destruct (Str.compare c d) eqn:Ecd.
    + apply (cmp_eq _ StrFacts.str_total) in Ecd. subst d.
      rewrite (cmp_refl _ StrFacts.str_total) in Hxb.
      apply prefix_cons. eapply (IH (q ++ a') x (q ++ b')); try assumption;
        now apply prefix_app_r.
    + rewrite (cmp_antisym _ StrFacts.str_total c d), Ecd in Hxb. simpl in Hxb. congruence.
    + congruence.
Qed.

(** The loop of [commonpath] on [s1 <= s2]: no [IndexError], and the
    longest common prefix. *)
Lemma common_spec (s1 : list string) :
  ∀ s2, list_le s1 s2 →
    ∃ c, common s1 s2 = Ok c
         ∧ c `prefix_of` s1 ∧ c `prefix_of` s2
         ∧ ∀ q, q `prefix_of` s1 → q `prefix_of` s2 → q `prefix_of` c.
Proof.
  induction s1 as [|c s1 IH]; intros s2 Hle; simpl.
  - exists []. repeat split; try apply prefix_nil. intros q Hq _. exact Hq.
  - destruct s2 as [|d s2]; [unfold not_gt in Hle; simpl in Hle; congruence|].
    destruct (String.eqb_spec c d) as [<-|Hne].
    + unfold not_gt in Hle. simpl in Hle. rewrite (cmp_refl _ StrFacts.str_total) in Hle.
      destruct (IH s2 Hle) as (r & Hr & H1 & H2 & Hmax).
      exists (c :: r). rewrite Hr. repeat split; try now apply prefix_cons.
      intros q Hq1 Hq2. destruct q as [|e q]; [apply prefix_nil|].
      pose proof (prefix_cons_inv_1 _ _ _ _ Hq1) as ->.
      apply prefix_cons. apply Hmax; eapply prefix_cons_inv_2; eassumption.
    + exists []. repeat split; try apply prefix_nil.
      intros q Hq1 Hq2. destruct q as [|e q]; [apply prefix_nil|].
      pose proof (prefix_cons_inv_1 _ _ _ _ Hq1).
      pose proof (prefix_cons_inv_1 _ _ _ _ Hq2). congruence.
Qed.

(** ** From a path to its string and back *)

Lemma split_sep_plain (cur s : string) :
  sep_free s = true → Path.split_sep cur s = [(cur ++ s)%string].
Proof.
  revert cur. induction s as [|ch s IH]; intros cur H; simpl.
  - now rewrite append_nil_r.
  - unfold sep_free in H. simpl in H. apply andb_true_iff in H as [Hch Hs].
    apply negb_true_iff in Hch. rewrite Hch.
    rewrite IH by exact Hs. now rewrite snoc_append.
Qed.

Lemma split_sep_component (cur c rest : string) :
  sep_free c = true →
  Path.split_sep cur (c ++ "/" ++ rest)%string = (cur ++ c)%string :: Path.split_sep "" rest.
Proof.
  revert cur. induction c as [|ch c IH]; intros cur H; simpl.
  - now rewrite append_nil_r.
  - unfold sep_free in H. simpl in H. apply andb_true_iff in H as [Hch Hc].
    apply negb_true_iff in Hch. rewrite Hch.
    rewrite IH by exact Hc. now rewrite snoc_append.
Qed.

Lemma well_formed_cons (c : string) (p : Path.t) :
  well_formed (c :: p) = true ↔
  (Path.real_part c = true ∧ sep_free c = true) ∧ well_formed p = true.
Proof. unfold well_formed. simpl. rewrite !andb_true_iff. reflexivity. Qed.

Lemma split_join (p : Path.t) :
  well_formed p = true →
  Path.split_sep "" (Path.join p) = match p with [] => [""] | _ => p end.
Proof.
  induction p as [|c p IH]; intros H; [reflexivity|].
  apply well_formed_cons in H as [[_ Hc] Hp].
  destruct p as [|d p].
  - simpl. now apply split_sep_plain.
  - change (Path.join (c :: d :: p)) with (c ++ "/" ++ Path.join (d :: p))%string.
    rewrite split_sep_component by exact Hc. simpl append.
    now rewrite (IH Hp).
Qed.

Lemma filter_real (p : Path.t) :
  well_formed p = true → List.filter Path.real_part p = p.
Proof.
  induction p as [|c p IH]; intros H; [reflexivity|].
  apply well_formed_cons in H as [[Hc _] Hp]. simpl. rewrite Hc. now rewrite IH.
Qed.

(** [Path(str(p))] is [p], and [commonpath] splits [str(p)] into the
    components of [p]. *)
Lemma split_to_string (p : Path.t) :
  well_formed p = true → split_path (Path.to_string p) = p.
Proof.
  intros H. unfold split_path, Path.to_string. simpl.
  rewrite split_join by exact H.
  destruct p as [|c p]; [reflexivity|]. now apply filter_real.
Qed.

Lemma of_to_string (p : Path.t) :
  well_formed p = true → Path.of_string (Path.to_string p) = p.
Proof. apply split_to_string. Qed.

Lemma well_formed_prefix (q p : Path.t) :
  q `prefix_of` p → well_formed p = true → well_formed q = true.
Proof.
  intros [k ->]. unfold well_formed. rewrite forallb_app.
  intros H. now apply andb_true_iff in H as [H _].
Qed.

Lemma well_formed_parent (p : Path.t) :
  well_formed p = true → well_formed (Path.parent p) = true.
Proof. apply well_formed_prefix, SysFacts.parent_prefix. Qed.

(** ** [commonpath] and [common_parent] *)

Lemma split_paths_to_string (ps : list Path.t) :
  Forall (λ p, well_formed p = true) ps →
  List.map split_path (List.map Path.to_string ps) = ps.
Proof.
  induction 1 as [|p ps Hp _ IH]; simpl; [reflexivity|].
  now rewrite split_to_string, IH.
Qed.

Lemma all_absolute (first : Path.t) (ps : list Path.t) :
  forallb (λ p, Bool.eqb (starts_with_sep p) (starts_with_sep (Path.to_string first)))
          (List.map Path.to_string ps) = true.
Proof. induction ps as [|p ps IH]; simpl; [reflexivity|exact IH]. Qed.

(** On the strings of well-formed paths, [commonpath] returns the string
    of their longest common prefix, component by component. *)
Lemma commonpath_spec (ps : list Path.t) :
  ps ≠ [] →
  Forall (λ p, well_formed p = true) ps →
  ∃ c, commonpath (List.map Path.to_string ps) = Ok (Path.to_string c)
       ∧ (∀ p, p ∈ ps → c `prefix_of` p)
       ∧ (∀ q, (∀ p, p ∈ ps → q `prefix_of` p) → q `prefix_of` c).
Proof.
  intros Hne Hwf. destruct ps as [|p0 rest]; [congruence|].
  unfold commonpath. cbn [List.map].
  rewrite all_absolute.
  pose proof (split_paths_to_string (p0 :: rest) Hwf) as Hsplit.
  cbn [List.map] in Hsplit. injection Hsplit as Hfirst Hrest.
  rewrite Hfirst, Hrest.
  destruct (min_from_spec rest p0) as [Hmin_in Hmin].
  destruct (max_from_spec rest p0) as [Hmax_in Hmax].
  destruct (common_spec (min_from p0 rest) (max_from p0 rest) (Hmin _ Hmax_in))
    as (c & Hc & Hc1 & Hc2 & Hlongest).
  exists c. rewrite Hc. split; [reflexivity|]. split.
  - intros p Hp. eapply prefix_between; [exact Hc1 | exact Hc2 | now apply Hmin | now apply Hmax].
  - intros q Hq. apply Hlongest; apply Hq; assumption.
Qed.

(** ** [resolve] *)

Lemma resolve_from (p seen : Path.t) :
  (".." ∉ p) →
  fold_left (λ seen c, if String.eqb c ".." then Path.parent seen else seen ++ [c]) p seen
  = seen ++ p.
Proof.
  revert seen. induction p as [|c p IH]; intros seen Hp; simpl.
  - now rewrite app_nil_r.
  - apply not_elem_of_cons in Hp as [Hc Hp].
    assert (E : String.eqb c ".." = false) by (apply String.eqb_neq; congruence).
    rewrite E, IH by exact Hp. now rewrite <- app_assoc.
Qed.

(** A path without ['..'] is resolved. *)
Lemma resolve_plain (p : Path.t) : (".." ∉ p) → resolve p = p.
Proof. intros Hp. unfold resolve. now rewrite resolve_from. Qed.

Lemma resolve_well_formed_from (p seen : Path.t) :
  well_formed seen = true → well_formed p = true →
  well_formed
    (fold_left (λ seen c, if String.eqb c ".." then Path.parent seen else seen ++ [c]) p seen)
  = true.
Proof.
  revert seen. induction p as [|c p IH]; intros seen Hseen Hp; simpl; [exact Hseen|].
  unfold well_formed in Hp. simpl in Hp. apply andb_true_iff in Hp as [Hc Hp].
  apply IH; [|exact Hp].
  destruct (String.eqb c "..").
  - now apply well_formed_parent.
  - unfold well_formed. rewrite forallb_app. simpl.
    unfold well_formed in Hseen. now rewrite Hseen, Hc.
Qed.

Lemma resolve_well_formed (p : Path.t) :
  well_formed p = true → well_formed (resolve p) = true.
Proof. now apply resolve_well_formed_from. Qed.

Lemma resolve_no_dotdot_from (p seen : Path.t) :
  (".." ∉ seen) →
  ".." ∉ fold_left (λ seen c, if String.eqb c ".." then Path.parent seen else seen ++ [c])
                   p seen.
Proof.
  revert seen. induction p as [|c p IH]; intros seen Hseen; simpl; [exact Hseen|].
  apply IH. destruct (String.eqb c "..") eqn:E.
  - intros H. apply Hseen.
    destruct (SysFacts.parent_prefix seen) as [k Hk]. rewrite Hk.
    apply elem_of_app. now left.
  - apply String.eqb_neq in E. intros H. apply elem_of_app in H as [H|H]; [now apply Hseen|].
    apply list_elem_of_singleton in H. congruence.
Qed.

(** What [resolve] returns is resolved. *)
Lemma resolve_idempotent (p : Path.t) : resolve (resolve p) = resolve p.
Proof.
  apply resolve_plain. apply resolve_no_dotdot_from. apply not_elem_of_nil.
Qed.

Lemma common_parent_spec (w : World) (paths : list Path.t) :
  paths ≠ [] →
  Forall (λ p, well_formed p = true) paths →
  ∃ c, common_parent w paths = Ok c
       ∧ (∀ p, p ∈ paths → c `prefix_of` containing_dir w (resolve p))
       ∧ (∀ q, (∀ p, p ∈ paths → q `prefix_of` containing_dir w (resolve p))
               → q `prefix_of` c).
Proof.
  intros Hne Hwf.
  assert (Hwf' : Forall (λ p, well_formed p = true)
                        (List.map (λ p, containing_dir w (resolve p)) paths)).
  { apply Forall_map. eapply Forall_impl; [exact Hwf|]. intros p Hp. simpl.
    apply resolve_well_formed in Hp.
    unfold containing_dir. destruct (FS.is_file w (resolve p));
      [now apply well_formed_parent|exact Hp]. }
  assert (Hne' : List.map (λ p, containing_dir w (resolve p)) paths ≠ []) by now destruct paths.
  destruct (commonpath_spec _ Hne' Hwf') as (c & Hc & Hpre & Hlongest).
  assert (Hstrings :
    List.map (λ p, if FS.is_file w p then Path.to_string (Path.parent p) else Path.to_string p)
             (List.map resolve paths)
    = List.map Path.to_string (List.map (λ p, containing_dir w (resolve p)) paths)).
  { rewrite !List.map_map. apply List.map_ext.
    intros p. unfold containing_dir. now destruct (FS.is_file w (resolve p)). }
  exists c. split; [|split].
  - unfold common_parent. destruct paths as [|p0 rest]; [congruence|].
    rewrite Hstrings, Hc. simpl. f_equal. apply of_to_string.
    destruct (Hwf') as [|d ds Hd _]; [now destruct Hne'|].
    eapply well_formed_prefix; [|exact Hd]. apply Hpre. now left.
  - intros p Hp. apply Hpre.
    apply (list_elem_of_fmap_2 (λ p, containing_dir w (resolve p))). exact Hp.
  - intros q Hq. apply Hlongest. intros d Hd.
    apply list_elem_of_fmap in Hd as (p & -> & Hp). now apply Hq.
Qed.

End PathFacts.

(** C7. [common_parent] raises [ValueError] on the empty list.  On a
    non-empty list of files it returns the longest list of whole components
    that starts the parent directory of every file, the files being taken
    as [resolve] gives them: it starts each parent, and every component
    list that starts each parent starts it.  A path without ['..'] is its
    own resolved path, so that for such files the parents are those of the
    paths as given.  Files [/x/y/a.png] and [/x/z/b.png] give [/x]; so do
    [/x/yy/a.png] and [/x/yz/b.png], whose parents share the letter [y]
    but no further component; and so do [/x/y/../a.png] and
    [/x/z/b.png]. *)
Theorem common_parent_is_longest_common_directory :
  (∀ w, common_parent w [] = Raise ValueError)
  ∧ (∀ (w : World) (paths : list Path.t),
       paths ≠ [] →
       Forall (λ p, FS.is_file w (resolve p) = true) paths →
       Forall (λ p, well_formed p = true) paths →
       ∃ source, common_parent w paths = Ok source
                 ∧ (∀ p, p ∈ paths → source `prefix_of` Path.parent (resolve p))
                 ∧ (∀ q, (∀ p, p ∈ paths → q `prefix_of` Path.parent (resolve p))
                         → q `prefix_of` source))
  ∧ (∀ p : Path.t, (".." ∉ p) → resolve p = p)
  ∧ (∀ p : Path.t, (".." ∉ resolve p) ∧ resolve (resolve p) = resolve p)
  ∧ (∀ (w : World) (paths : list Path.t),
       paths ≠ [] →
       Forall (λ p, ".." ∉ p) paths →
       Forall (λ p, FS.is_file w p = true) paths →
       Forall (λ p, well_formed p = true) paths →
       ∃ source, common_parent w paths = Ok source
                 ∧ (∀ p, p ∈ paths → source `prefix_of` Path.parent p)
                 ∧ (∀ q, (∀ p, p ∈ paths → q `prefix_of` Path.parent p)
                         → q `prefix_of` source))
  ∧ (∀ w, FS.is_file w ["x"; "y"; "a.png"] = true →
          FS.is_file w ["x"; "z"; "b.png"] = true →
          common_parent w [["x"; "y"; "a.png"]; ["x"; "z"; "b.png"]] = Ok ["x"])
  ∧ (∀ w, FS.is_file w ["x"; "yy"; "a.png"] = true →
          FS.is_file w ["x"; "yz"; "b.png"] = true →
          common_parent w [["x"; "yy"; "a.png"]; ["x"; "yz"; "b.png"]] = Ok ["x"])
  ∧ (∀ w, FS.is_file w ["x"; "a.png"] = true →
          FS.is_file w ["x"; "z"; "b.png"] = true →
          common_parent w [["x"; "y"; ".."; "a.png"]; ["x"; "z"; "b.png"]] = Ok ["x"]).
Proof.
  assert (Hgeneral : ∀ (w : World) (paths : list Path.t),
       paths ≠ [] →
       Forall (λ p, FS.is_file w (resolve p) = true) paths →
       Forall (λ p, well_formed p = true) paths →
       ∃ source, common_parent w paths = Ok source
                 ∧ (∀ p, p ∈ paths → source `prefix_of` Path.parent (resolve p))
                 ∧ (∀ q, (∀ p, p ∈ paths → q `prefix_of` Path.parent (resolve p))
                         → q `prefix_of` source)).
  { intros w paths Hne Hfiles Hwf.
    destruct (PathFacts.common_parent_spec w paths Hne Hwf) as (c & Hc & Hpre & Hlongest).
    assert (Hdir : ∀ p, p ∈ paths → containing_dir w (resolve p) = Path.parent (resolve p)).
    { intros p Hp. unfold containing_dir.
      rewrite Forall_forall in Hfiles. now rewrite (Hfiles p Hp). }
    exists c. split; [exact Hc|]. split.
    + intros p Hp. rewrite <- (Hdir p Hp). now apply Hpre.
    + intros q Hq. apply Hlongest. intros p Hp. rewrite (Hdir p Hp). now apply Hq. }
  split; [reflexivity|]. split; [exact Hgeneral|].
  split; [apply PathFacts.resolve_plain|]. split; [|split; [|split; [|split]]].
  - intros p. split; [|apply PathFacts.resolve_idempotent].
    apply PathFacts.resolve_no_dotdot_from. apply not_elem_of_nil.
  - intros w paths Hne Hplain Hfiles Hwf.
    assert (Hres : ∀ p, p ∈ paths → resolve p = p).
    { intros p Hp. apply PathFacts.resolve_plain.
      rewrite Forall_forall in Hplain. now apply Hplain. }
    destruct (Hgeneral w paths Hne) as (c & Hc & Hpre & Hlongest); [|exact Hwf|].
    { rewrite Forall_forall in Hfiles |- *. intros p Hp.
      rewrite (Hres p Hp). now apply Hfiles. }
    exists c. split; [exact Hc|]. split.
    + intros p Hp. rewrite <- (Hres p Hp). now apply Hpre.
    + intros q Hq. apply Hlongest. intros p Hp. rewrite (Hres p Hp). now apply Hq.
  - intros w Ha Hb. unfold common_parent, resolve. cbn [List.map fold_left String.eqb Ascii.eqb
      Bool.eqb Path.parent removelast app].
    rewrite Ha, Hb. vm_compute. reflexivity.
  - intros w Ha Hb. unfold common_parent, resolve. cbn [List.map fold_left String.eqb Ascii.eqb
      Bool.eqb Path.parent removelast app].
    rewrite Ha, Hb. vm_compute. reflexivity.
  - intros w Ha Hb. unfold common_parent, resolve. cbn [List.map fold_left String.eqb Ascii.eqb
      Bool.eqb Path.parent removelast app].
    rewrite Ha, Hb. vm_compute. reflexivity.
Qed.

Lemma common_parent_is_longest_common_directory_witness :
  let paths := [["in"; "A.jpg"]; ["in"; "result"; ".."; "result"; "merged.pdf"];
                ["in"; "B.png"]] in
  (paths ≠ []
   ∧ Forall (λ p, FS.is_file example_world (resolve p) = true) paths
   ∧ Forall (λ p, well_formed p = true) paths)
  ∧ common_parent example_world paths = Ok ["in"]
  ∧ ∃ source, common_parent example_world paths = Ok source
              ∧ (∀ p, p ∈ paths → source `prefix_of` Path.parent (resolve p))
              ∧ (∀ q, (∀ p, p ∈ paths → q `prefix_of` Path.parent (resolve p))
                      → q `prefix_of` source).
Proof.
  intros paths.
  assert (H1 : paths ≠ []) by discriminate.
  assert (H2 : Forall (λ p, FS.is_file example_world (resolve p) = true) paths)
    by (repeat constructor).
  assert (H3 : Forall (λ p, well_formed p = true) paths) by (repeat constructor).
  split; [auto|]. split; [vm_compute; reflexivity|].
  destruct common_parent_is_longest_common_directory as (_ & Hgeneral & _).
  exact (Hgeneral example_world paths H1 H2 H3).
Defined.

(* ===================================================================== *)
(** * The natural order *)
(* ===================================================================== *)

Module NaturalFacts.
Import Natural.

Lemma all_snoc (P : ascii → bool) (s : string) (c : ascii) :
  Str.all P (Str.snoc s c) = Str.all P s && P c.
Proof. unfold Str.snoc. rewrite all_append. simpl. now rewrite andb_true_r. Qed.

Lemma digit_part_snoc (cur : string) (c : ascii) :
  digit_part cur = true → Chr.re_digit c = true → digit_part (Str.snoc cur c) = true.
Proof.
  unfold digit_part. intros H Hc. apply andb_true_iff in H as [_ H].
  now rewrite nonempty_snoc, all_snoc, H, Hc.
Qed.

Lemma text_part_snoc (cur : string) (c : ascii) :
  text_part cur = true → Chr.re_digit c = false → text_part (Str.snoc cur c) = true.
Proof. unfold text_part. intros H Hc. now rewrite all_snoc, H, Hc. Qed.

(** The two states of the scan keep the shape. *)
Lemma split_shape (s : string) :
  (∀ cur, text_part cur = true → parts_shape (split_text cur s))
  ∧ (∀ cur t, text_part t = true → digit_part cur = true →
       parts_shape (t :: split_digits cur s)).
Proof.
  induction s as [|c s (IHt & IHd)]; split.
  - intros cur H. now constructor.
  - intros cur t Ht Hc. simpl. constructor; try assumption. now constructor.
  - intros cur H. simpl. destruct (Chr.re_digit c) eqn:Hc.
    + apply IHd; [exact H|]. unfold digit_part. simpl. now rewrite Hc.
    + apply IHt. now apply text_part_snoc.
  - intros cur t Ht Hcur. simpl. destruct (Chr.re_digit c) eqn:Hc.
    + apply IHd; [exact Ht|]. now apply digit_part_snoc.
    + constructor; try assumption. apply IHt. unfold text_part. simpl. now rewrite Hc.
Qed.

Lemma re_split_shape (name : string) : parts_shape (re_split name).
Proof. apply (proj1 (split_shape name)). reflexivity. Qed.

(** ** From parts to tokens *)

Lemma re_digit_isdigit (c : ascii) : Chr.re_digit c = true → Chr.isdigit c = true.
Proof. unfold Chr.isdigit. now intros ->. Qed.

Lemma all_impl (P Q : ascii → bool) (s : string) :
  (∀ c, P c = true → Q c = true) → Str.all P s = true → Str.all Q s = true.
Proof.
  intros HPQ. induction s as [|c s IH]; simpl; [reflexivity|].
  intros H. apply andb_true_iff in H as [Hc Hs]. now rewrite (HPQ c Hc), IH.
Qed.

(** Reading the digits from the left, ten times the value so far plus the
    digit, gives the number the run denotes. *)
Lemma int_value_from (d : string) :
  ∀ v, fold_left (λ v c, 10 * v + Chr.digit_value c)%N (Str.chars d) v
       = (v * 10 ^ N.of_nat (String.length d) + decimal_value d)%N.
Proof.
  induction d as [|c d IH]; intros v.
  - simpl. now rewrite N.mul_1_r, N.add_0_r.
  - cbn [Str.chars list_ascii_of_string fold_left String.length decimal_value].
    fold (Str.chars d). rewrite IH.
    rewrite Nat2N.inj_succ, N.pow_succ_r'. ring.
Qed.

Lemma int_digits (d : string) :
  digit_part d = true →
  int d = if (int_max_str_digits <? String.length d)%nat then Raise ValueError
          else Ok (decimal_value d).
Proof.
  intros H. unfold int. unfold digit_part in H. rewrite H.
  destruct (int_max_str_digits <? String.length d)%nat; [reflexivity|].
  rewrite int_value_from. reflexivity.
Qed.

(** A digit run becomes its number, if it is not too long for [int]. *)
Lemma token_of_digits (d : string) :
  digit_part d = true →
  token_of d = if (int_max_str_digits <? String.length d)%nat then Raise ValueError
               else Ok (TInt (decimal_value d)).
Proof.
  intros H. unfold token_of, Str.isdigit.
  pose proof H as H'. unfold digit_part in H'. apply andb_true_iff in H' as [Hne Hall].
  rewrite Hne, (all_impl _ _ d re_digit_isdigit Hall). simpl.
  rewrite (int_digits d H).
  destruct (int_max_str_digits <? String.length d)%nat; reflexivity.
Qed.

Lemma text_not_decimal (t : string) :
  text_part t = true → Str.nonempty t = true → Str.all Chr.re_digit t = false.
Proof.
  destruct t as [|c t]; [discriminate|]. unfold text_part. simpl.
  intros H _. apply andb_true_iff in H as [Hc _].
  apply negb_true_iff in Hc. now rewrite Hc.
Qed.

(** A text part becomes its lower-case form, unless [str.isdigit] takes it
    for a number, in which case [int] raises. *)
Lemma token_of_text (t : string) :
  text_part t = true →
  token_of t = if Str.isdigit t then Raise ValueError else Ok (TStr (Str.lower t)).
Proof.
  intros H. unfold token_of. destruct (Str.isdigit t) eqn:E; [|reflexivity].
  unfold int. unfold Str.isdigit in E. apply andb_true_iff in E as [Hne _].
  now rewrite Hne, (text_not_decimal t H Hne).
Qed.

Lemma mapM_cons {A B} (f : A → Res B) (x : A) (l : list A) :
  mapM f (x :: l) = y ← f x; k ← mapM f l; mret (y :: k).
Proof. reflexivity. Qed.

Lemma key_of_parts_shape (ps : list string) :
  parts_shape ps → ∀ k, mapM token_of ps = Ok k → key_shape k.
Proof.
  induction 1 as [t Ht | t d rest Ht Hd _ IH]; intros k.
  - rewrite mapM_cons, (token_of_text t Ht).
    destruct (Str.isdigit t); simpl; [discriminate|].
    intros [= <-]. constructor.
  - rewrite !mapM_cons, (token_of_text t Ht).
    destruct (Str.isdigit t); simpl; [discriminate|].
    rewrite (token_of_digits d Hd).
    destruct (int_max_str_digits <? String.length d)%nat; simpl; [discriminate|].
    destruct (mapM token_of rest) as [k'|e]; simpl; [|discriminate].
    intros [= <-]. constructor. now apply IH.
Qed.

(** Every key has the alternating shape. *)
Lemma key_of_name_shape (name : string) (k : key) :
  key_of_name name = Ok k → key_shape k.
Proof. apply key_of_parts_shape, re_split_shape. Qed.

(** ** The comparison *)

Lemma token_total : total_compare token_compare.
Proof.
  pose proof StrFacts.str_total as [R E An T].
  split.
  - intros [n|s]; simpl; [apply N.compare_refl|apply R].
  - intros [m|s] [n|t]; simpl; try discriminate.
    + intros H. apply N.compare_eq in H. now subst.
    + intros H. apply E in H. now subst.
  - intros [m|s] [n|t]; simpl; try reflexivity; [apply N.compare_antisym|apply An].
  - intros [m|s] [n|t] [o|u]; simpl; try congruence.
    + intros H1%N.compare_lt_iff H2%N.compare_lt_iff. apply N.compare_lt_iff.
      now apply (N.lt_trans _ n).
    + apply T.
Qed.

Lemma key_total : total_compare key_compare.
Proof. apply lex_total_compare, token_total. Qed.

Lemma str_eqb_compare (s t : string) : String.eqb s t = true ↔ Str.compare s t = Eq.
Proof.
  split.
  - intros H%String.eqb_eq. subst. apply (cmp_refl _ StrFacts.str_total).
  - intros H. apply (cmp_eq _ StrFacts.str_total) in H. subst. apply String.eqb_refl.
Qed.

(** On keys of the alternating shape Python's [<] never raises, and it is
    the lexicographic order of the tokens. *)
Lemma tuple_lt_compare (a : key) :
  key_shape a → ∀ b, key_shape b → tuple_lt a b = Ok (is_lt (key_compare a b)).
Proof.
  induction 1 as [s | s m a Ha IH]; intros b Hb; destruct Hb as [t | t n b Hb];
    unfold key_compare; simpl.
  - destruct (String.eqb s t) eqn:E.
    + apply str_eqb_compare in E. now rewrite E.
    + destruct (Str.compare s t) eqn:C; try reflexivity;
        apply str_eqb_compare in C; congruence.
  - destruct (String.eqb s t) eqn:E.
    + apply str_eqb_compare in E. now rewrite E.
    + destruct (Str.compare s t) eqn:C; try reflexivity;
        apply str_eqb_compare in C; congruence.
  - destruct (String.eqb s t) eqn:E.
    + apply str_eqb_compare in E. now rewrite E.
    + destruct (Str.compare s t) eqn:C; try reflexivity;
        apply str_eqb_compare in C; congruence.
  - destruct (String.eqb s t) eqn:E.
    + apply str_eqb_compare in E. rewrite E.
      destruct (N.eqb_spec m n) as [->|Hmn].
      * rewrite N.compare_refl. apply (IH b Hb).
      * unfold N.ltb. destruct (N.compare m n) eqn:C; try reflexivity.
        apply N.compare_eq in C. congruence.
    + destruct (Str.compare s t) eqn:C; try reflexivity;
        apply str_eqb_compare in C; congruence.
Qed.

(** ** Letter case *)

Lemma chr_lower_re_digit (c : ascii) : Chr.re_digit (Chr.lower c) = Chr.re_digit c.
Proof. destruct c as [[] [] [] [] [] [] [] []]; reflexivity. Qed.

Lemma chr_lower_isdigit (c : ascii) : Chr.isdigit (Chr.lower c) = Chr.isdigit c.
Proof. destruct c as [[] [] [] [] [] [] [] []]; reflexivity. Qed.

Lemma chr_lower_idem (c : ascii) : Chr.lower (Chr.lower c) = Chr.lower c.
Proof. destruct c as [[] [] [] [] [] [] [] []]; reflexivity. Qed.

Lemma chr_lower_digit (c : ascii) : Chr.isdigit c = true → Chr.lower c = c.
Proof. destruct c as [[] [] [] [] [] [] [] []]; intros H; try reflexivity; discriminate H. Qed.

Lemma lower_snoc (s : string) (c : ascii) :
  Str.lower (Str.snoc s c) = Str.snoc (Str.lower s) (Chr.lower c).
Proof. unfold Str.lower, Str.snoc. induction s as [|x s IH]; simpl; congruence. Qed.

Lemma lower_idem (s : string) : Str.lower (Str.lower s) = Str.lower s.
Proof.
  unfold Str.lower. induction s as [|x s IH]; simpl; [reflexivity|].
  now rewrite chr_lower_idem, IH.
Qed.

Lemma lower_digits (s : string) : Str.all Chr.isdigit s = true → Str.lower s = s.
Proof.
  unfold Str.lower. induction s as [|x s IH]; simpl; [reflexivity|].
  intros H. apply andb_true_iff in H as [Hx Hs]. now rewrite (chr_lower_digit x Hx), IH.
Qed.

Lemma isdigit_lower (s : string) : Str.isdigit (Str.lower s) = Str.isdigit s.
Proof.
  unfold Str.isdigit, Str.lower. destruct s as [|x s]; [reflexivity|]. simpl.
  rewrite chr_lower_isdigit. f_equal.
  induction s as [|y s IH]; simpl; [reflexivity|]. now rewrite chr_lower_isdigit, IH.
Qed.

Lemma split_lower (s : string) :
  (∀ cur, split_text (Str.lower cur) (Str.lower s) = List.map Str.lower (split_text cur s))
  ∧ (∀ cur, split_digits (Str.lower cur) (Str.lower s)
            = List.map Str.lower (split_digits cur s)).
Proof.
  induction s as [|c s (IHt & IHd)]; split; intros cur; simpl; try reflexivity;
    rewrite chr_lower_re_digit; destruct (Chr.re_digit c); simpl.
  - f_equal. apply (IHd (String c "")).
  - rewrite <- lower_snoc. apply IHt.
  - rewrite <- lower_snoc. apply IHd.
  - f_equal. apply (IHt (String c "")).
Qed.

Lemma token_of_lower (part : string) : token_of (Str.lower part) = token_of part.
Proof.
  unfold token_of. rewrite isdigit_lower.
  destruct (Str.isdigit part) eqn:E.
  - unfold Str.isdigit in E. apply andb_true_iff in E as [_ E].
    now rewrite (lower_digits part E).
  - now rewrite lower_idem.
Qed.

(** The key does not see letter case. *)
Lemma key_of_name_lower (name : string) :
  key_of_name (Str.lower name) = key_of_name name.
Proof.
  unfold key_of_name, re_split.
  change "" with (Str.lower "") at 1.
  rewrite (proj1 (split_lower name)).
  induction (split_text "" name) as [|p ps IH]; [reflexivity|].
  cbn [List.map]. rewrite !mapM_cons, token_of_lower, IH. reflexivity.
Qed.

(** ** Names that have a key *)

Lemma split_all (P : ascii → bool) (s : string) :
  (∀ cur, Str.all P cur = true → Str.all P s = true →
          Forall (λ t, Str.all P t = true) (split_text cur s))
  ∧ (∀ cur, Str.all P cur = true → Str.all P s = true →
            Forall (λ t, Str.all P t = true) (split_digits cur s)).
Proof.
  induction s as [|c s (IHt & IHd)]; split; intros cur Hcur Hs; simpl.
  - now repeat constructor.
  - now repeat constructor.
  - simpl in Hs. apply andb_true_iff in Hs as [Hc Hs]. destruct (Chr.re_digit c).
    + constructor; [exact Hcur|]. apply IHd; [|exact Hs]. simpl. now rewrite Hc.
    + apply IHt; [|exact Hs]. now rewrite all_snoc, Hcur, Hc.
  - simpl in Hs. apply andb_true_iff in Hs as [Hc Hs]. destruct (Chr.re_digit c).
    + apply IHd; [|exact Hs]. now rewrite all_snoc, Hcur, Hc.
    + constructor; [exact Hcur|]. apply IHt; [|exact Hs]. simpl. now rewrite Hc.
Qed.

Lemma text_isdigit_false (t : string) :
  text_part t = true → decimal_digits_only t = true → Str.isdigit t = false.
Proof.
  destruct t as [|c t]; [reflexivity|]. unfold text_part, decimal_digits_only, Str.isdigit.
  simpl. intros H1 H2.
  apply andb_true_iff in H1 as [H1 _]. apply andb_true_iff in H2 as [H2 _].
  apply negb_true_iff in H1. rewrite H1 in H2.
  destruct (Chr.isdigit c); [discriminate H2|reflexivity].
Qed.

Lemma length_snoc (cur : string) (c : ascii) :
  String.length (Str.snoc cur c) = S (String.length cur).
Proof. unfold Str.snoc. induction cur as [|x cur IH]; simpl; [reflexivity|now rewrite IH]. Qed.

(** No part is longer than what was scanned. *)
Lemma split_length (n : nat) (s : string) :
  (∀ cur, (String.length cur + String.length s ≤ n)%nat →
          Forall (λ t, (String.length t ≤ n)%nat) (split_text cur s))
  ∧ (∀ cur, (String.length cur + String.length s ≤ n)%nat →
            Forall (λ t, (String.length t ≤ n)%nat) (split_digits cur s)).
Proof.
  induction s as [|c s (IHt & IHd)]; split; intros cur H; simpl in *.
  - repeat constructor. lia.
  - repeat constructor; simpl; lia.
  - destruct (Chr.re_digit c).
    + constructor; [lia|]. apply IHd. simpl. lia.
    + apply IHt. rewrite length_snoc. lia.
  - destruct (Chr.re_digit c).
    + apply IHd. rewrite length_snoc. lia.
    + constructor; [lia|]. apply IHt. simpl. lia.
Qed.

Lemma key_of_parts_exists (ps : list string) :
  parts_shape ps → Forall (λ t, decimal_digits_only t = true) ps →
  Forall (λ t, (String.length t ≤ int_max_str_digits)%nat) ps →
  ∃ k, mapM token_of ps = Ok k.
Proof.
  induction 1 as [t Ht | t d rest Ht Hd _ IH]; intros Hall Hlen.
  - apply Forall_cons in Hall as [Hq _].
    rewrite mapM_cons, (token_of_text t Ht), (text_isdigit_false t Ht Hq). simpl. eauto.
  - apply Forall_cons in Hall as [Hq Hall]. apply Forall_cons in Hall as [_ Hall].
    apply Forall_cons in Hlen as [_ Hlen]. apply Forall_cons in Hlen as [Hd' Hlen].
    rewrite !mapM_cons, (token_of_text t Ht), (text_isdigit_false t Ht Hq).
    rewrite (token_of_digits d Hd).
    apply Nat.ltb_ge in Hd'. rewrite Hd'.
    destruct (IH Hall Hlen) as (k & ->). simpl. eauto.
Qed.

Lemma key_of_name_exists (name : string) :
  decimal_digits_only name = true → (String.length name ≤ int_max_str_digits)%nat →
  ∃ k, key_of_name name = Ok k.
Proof.
  intros H Hlen. apply key_of_parts_exists; [apply re_split_shape| |].
  - apply (proj1 (split_all _ name)); [reflexivity|exact H].
  - apply (proj1 (split_length int_max_str_digits name)). simpl. exact Hlen.
Qed.

(** ** Digit runs in names *)

Lemma mapM_app {A B} (f : A → Res B) (l1 l2 : list A) :
  mapM f (l1 ++ l2) = k1 ← mapM f l1; k2 ← mapM f l2; mret (k1 ++ k2).
Proof.
  induction l1 as [|x l1 IH].
  - simpl. destruct (mapM f l2); reflexivity.
  - change ((x :: l1) ++ l2) with (x :: (l1 ++ l2)).
    rewrite !mapM_cons, IH. destruct (f x) as [y|e]; simpl; [|reflexivity].
    destruct (mapM f l1) as [k1|e]; simpl; [|reflexivity].
    destruct (mapM f l2) as [k2|e]; reflexivity.
Qed.

(** A digit run is scanned into one part, up to the text that follows. *)
Lemma split_digits_run (d r : string) :
  Str.all Chr.re_digit d = true → no_digit_first r = true →
  ∀ cur, split_digits cur (d ++ r) = (cur ++ d)%string :: split_text "" r.
Proof.
  intros Hd Hr. induction d as [|c d IH]; intros cur.
  - rewrite append_nil_r. simpl. destruct r as [|x r]; [reflexivity|].
    simpl in Hr |- *. apply negb_true_iff in Hr. now rewrite Hr.
  - simpl in Hd. apply andb_true_iff in Hd as [Hc Hd].
    simpl. rewrite Hc, (IH Hd). now rewrite snoc_append.
Qed.

Lemma split_text_run (d r : string) :
  digit_part d = true → no_digit_first r = true →
  ∀ cur, split_text cur (d ++ r) = cur :: d :: split_text "" r.
Proof.
  intros Hd Hr cur. unfold digit_part in Hd. apply andb_true_iff in Hd as [Hne Hd].
  destruct d as [|c d]; [discriminate|].
  simpl in Hd. apply andb_true_iff in Hd as [Hc Hd].
  simpl. rewrite Hc. f_equal. now rewrite (split_digits_run d r Hd Hr).
Qed.

(** Text is added to the part being read. *)
Lemma split_text_text (t s : string) :
  text_part t = true → ∀ cur, split_text cur (t ++ s) = split_text (cur ++ t) s.
Proof.
  intros Ht. induction t as [|c t IH]; intros cur.
  - now rewrite append_nil_r.
  - unfold text_part in Ht. simpl in Ht. apply andb_true_iff in Ht as [Hc Ht].
    apply negb_true_iff in Hc. simpl. rewrite Hc, (IH Ht). now rewrite snoc_append.
Qed.

(** After a beginning that does not end with a digit the scan is reading
    text, whatever follows. *)
Lemma split_after (pre : string) :
  (no_digit_last pre = true →
   ∀ cur, ∃ init t, ∀ s, split_text cur (pre ++ s) = init ++ split_text t s)
  ∧ (no_digit_last pre = true → Str.nonempty pre = true →
     ∀ cur, ∃ init t, ∀ s, split_digits cur (pre ++ s) = init ++ split_text t s).
Proof.
  induction pre as [|c pre (IHt & IHd)]; split.
  - intros _ cur. exists [], cur. reflexivity.
  - discriminate.
  - intros Hlast cur.
    assert (Hpre : no_digit_last pre = true)
      by (destruct pre; [reflexivity|exact Hlast]).
    destruct (Chr.re_digit c) eqn:Hc.
    + assert (Hne : Str.nonempty pre = true).
      { destruct pre; [|reflexivity]. simpl in Hlast. rewrite Hc in Hlast. discriminate. }
      destruct (IHd Hpre Hne (String c "")) as (init & t & H).
      exists (cur :: init), t. intros s. simpl. rewrite Hc. now rewrite H.
    + destruct (IHt Hpre (Str.snoc cur c)) as (init & t & H).
      exists init, t. intros s. simpl. rewrite Hc. apply H.
  - intros Hlast _ cur.
    assert (Hpre : no_digit_last pre = true)
      by (destruct pre; [reflexivity|exact Hlast]).
    destruct (Chr.re_digit c) eqn:Hc.
    + assert (Hne : Str.nonempty pre = true).
      { destruct pre; [|reflexivity]. simpl in Hlast. rewrite Hc in Hlast. discriminate. }
      destruct (IHd Hpre Hne (Str.snoc cur c)) as (init & t & H).
      exists init, t. intros s. simpl. rewrite Hc. apply H.
    + destruct (IHt Hpre (String c "")) as (init & t & H).
      exists (cur :: init), t. intros s. simpl. rewrite Hc. now rewrite H.
Qed.

(** The parts of a name with a digit run after its beginning. *)
Lemma re_split_at_run (pre : string) :
  no_digit_last pre = true →
  ∃ init t, ∀ d r, digit_part d = true → no_digit_first r = true →
    re_split (pre ++ d ++ r) = init ++ t :: d :: re_split r.
Proof.
  intros Hpre. destruct (proj1 (split_after pre) Hpre "") as (init & t & H).
  exists init, t. intros d r Hd Hr. unfold re_split.
  now rewrite H, (split_text_run d r Hd Hr).
Qed.

(** Where two keys first differ in a number, the numbers decide. *)
Lemma tuple_lt_at_int (pre : key) (m n : N) (ra rb : key) :
  m ≠ n → tuple_lt (pre ++ TInt m :: ra) (pre ++ TInt n :: rb) = Ok (m <? n)%N.
Proof.
  intros Hmn. induction pre as [|x pre IH]; simpl.
  - apply N.eqb_neq in Hmn. now rewrite Hmn.
  - assert (Hrefl : token_eqb x x = true)
      by (destruct x; simpl; [apply N.eqb_refl|apply String.eqb_refl]).
    now rewrite Hrefl.
Qed.

(** The key of a name with a digit run after its beginning: the run gives
    the number it denotes, behind tokens that the beginning decides. *)
Lemma key_at_run (pre : string) :
  no_digit_last pre = true →
  ∃ parts, ∀ d r k, digit_part d = true → no_digit_first r = true →
    key_of_name (pre ++ d ++ r) = Ok k →
    ∃ kpre kr, mapM token_of parts = Ok kpre
               ∧ key_of_name r = Ok kr
               ∧ (String.length d ≤ int_max_str_digits)%nat
               ∧ k = kpre ++ TInt (decimal_value d) :: kr.
Proof.
  intros Hpre. destruct (re_split_at_run pre Hpre) as (init & t & H).
  exists (init ++ [t]). intros d r k Hd Hr Hk.
  unfold key_of_name in Hk. rewrite (H d r Hd Hr) in Hk.
  change (init ++ t :: d :: re_split r) with (init ++ [t] ++ d :: re_split r) in Hk.
  rewrite app_assoc, mapM_app, mapM_cons, (token_of_digits d Hd) in Hk.
  fold (key_of_name r) in Hk.
  destruct (mapM token_of (init ++ [t])) as [kpre|e]; [|simpl in Hk; discriminate Hk].
  destruct (int_max_str_digits <? String.length d)%nat eqn:Hlen;
    [simpl in Hk; discriminate Hk|].
  destruct (key_of_name r) as [kr|e]; simpl in Hk; [|discriminate Hk].
  injection Hk as <-. exists kpre, kr. apply Nat.ltb_ge in Hlen. auto.
Qed.

(** On names: after a common beginning, two digit runs that denote
    different numbers decide the order by these numbers. *)
Lemma digit_runs_decide (pre d1 d2 r1 r2 : string) (ka kb : key) :
  no_digit_last pre = true →
  digit_part d1 = true → digit_part d2 = true →
  no_digit_first r1 = true → no_digit_first r2 = true →
  key_of_name (pre ++ d1 ++ r1) = Ok ka →
  key_of_name (pre ++ d2 ++ r2) = Ok kb →
  decimal_value d1 ≠ decimal_value d2 →
  tuple_lt ka kb = Ok (decimal_value d1 <? decimal_value d2)%N.
Proof.
  intros Hpre Hd1 Hd2 Hr1 Hr2 Ha Hb Hne.
  destruct (key_at_run pre Hpre) as (parts & H).
  destruct (H d1 r1 ka Hd1 Hr1 Ha) as (kpre & kr1 & Hparts & _ & _ & ->).
  destruct (H d2 r2 kb Hd2 Hr2 Hb) as (kpre' & kr2 & Hparts' & _ & _ & ->).
  rewrite Hparts in Hparts'. injection Hparts' as <-.
  now apply tuple_lt_at_int.
Qed.

(** The key of a name that is text, a digit run, and a rest. *)
Lemma key_of_text_run (t d r : string) :
  text_part t = true → Str.isdigit t = false →
  digit_part d = true → (String.length d ≤ int_max_str_digits)%nat →
  no_digit_first r = true →
  key_of_name (t ++ d ++ r)
  = k ← key_of_name r; mret (TStr (Str.lower t) :: TInt (decimal_value d) :: k).
Proof.
  intros Ht Hnd Hd Hlen Hr. unfold key_of_name, re_split.
  rewrite (split_text_text t (d ++ r) Ht ""), (split_text_run d r Hd Hr).
  simpl String.append.
  rewrite mapM_cons, (token_of_text t Ht), Hnd.
  change (Ok (TStr (Str.lower t)) ≫= ?f) with (f (TStr (Str.lower t))). cbv beta.
  rewrite mapM_cons, (token_of_digits d Hd).
  apply Nat.ltb_ge in Hlen. rewrite Hlen.
  destruct (mapM token_of (split_text "" r)); reflexivity.
Qed.

Lemma key_of_text (t : string) :
  text_part t = true → Str.isdigit t = false → key_of_name t = Ok [TStr (Str.lower t)].
Proof.
  intros Ht Hnd. unfold key_of_name, re_split.
  rewrite <- (append_nil_r t) at 1. rewrite (split_text_text t "" Ht "").
  simpl String.append. cbn [split_text].
  rewrite mapM_cons, (token_of_text t Ht), Hnd. reflexivity.
Qed.

(** ** Sorting *)

Section SortFacts.
Context {A : Type}.

Lemma insert_spec (k : key) (x : A) (sorted : list (key * A)) :
  key_shape k → shaped sorted →
  ∃ r, insert k x sorted = Ok r
       ∧ Permutation r ((k, x) :: sorted)
       ∧ (StronglySorted keyed_le sorted → StronglySorted keyed_le r).
Proof.
  intros Hk. induction sorted as [|[k' y] rest IH]; intros Hshape.
  - exists [(k, x)]. split; [reflexivity|]. split; [reflexivity|].
    intros _. repeat constructor.
  - apply Forall_cons in Hshape as [Hk' Hrest]. simpl in Hk'.
    simpl. rewrite (tuple_lt_compare k Hk k' Hk'). simpl.
    destruct (key_compare k k') eqn:C; simpl.
    + destruct (IH Hrest) as (r & -> & Hperm & Hsorted). simpl.
      exists ((k', y) :: r). split; [reflexivity|]. split.
      * rewrite Hperm. apply perm_swap.
      * intros Hs. apply StronglySorted_inv in Hs as [Hs Hall].
        constructor; [now apply Hsorted|].
        rewrite Hperm. constructor; [|exact Hall].
        unfold keyed_le. simpl. apply (not_lt_not_gt key_compare key_total). congruence.
    + exists ((k, x) :: (k', y) :: rest). split; [reflexivity|]. split; [reflexivity|].
      intros Hs. constructor; [exact Hs|].
      apply StronglySorted_inv in Hs as [_ Hall].
      constructor; [now apply (lt_not_gt key_compare)|].
      eapply Forall_impl; [exact Hall|]. intros q Hq. unfold keyed_le in *. simpl in *.
      apply (not_gt_trans key_compare key_total k k' (fst q)); [|exact Hq].
      now apply lt_not_gt.
    + destruct (IH Hrest) as (r & -> & Hperm & Hsorted). simpl.
      exists ((k', y) :: r). split; [reflexivity|]. split.
      * rewrite Hperm. apply perm_swap.
      * intros Hs. apply StronglySorted_inv in Hs as [Hs Hall].
        constructor; [now apply Hsorted|].
        rewrite Hperm. constructor; [|exact Hall].
        unfold keyed_le. simpl. apply (not_lt_not_gt key_compare key_total). congruence.
Qed.

Lemma isort_spec (todo : list (key * A)) :
  ∀ done, shaped done → shaped todo →
    ∃ r, isort done todo = Ok r
         ∧ Permutation r (done ++ todo)
         ∧ (StronglySorted keyed_le done → StronglySorted keyed_le r).
Proof.
  induction todo as [|[k x] todo IH]; intros done Hdone Htodo.
  - exists done. rewrite app_nil_r. repeat split; auto.
  - apply Forall_cons in Htodo as [Hk Htodo]. simpl in Hk.
    destruct (insert_spec k x done Hk Hdone) as (d' & Hins & Hperm & Hsorted).
    assert (Hd' : shaped d').
    { unfold shaped. rewrite Hperm. now constructor. }
    destruct (IH d' Hd' Htodo) as (r & Hr & Hperm' & Hsorted').
    exists r. simpl. rewrite Hins. simpl. split; [exact Hr|]. split.
    + rewrite Hperm', Hperm. simpl. now rewrite Permutation_middle.
    + auto.
Qed.

Lemma decorate_spec (f : A → Res key) (l : list A) :
  ∀ keyed, mapM (λ x, k ← f x; mret (k, x)) l = Ok keyed →
    List.map snd keyed = l ∧ Forall (λ p, f (snd p) = Ok (fst p)) keyed.
Proof.
  induction l as [|x l IH]; intros keyed.
  - intros [= <-]. split; [reflexivity|constructor].
  - rewrite mapM_cons. destruct (f x) as [k|e] eqn:Hx; simpl; [|discriminate].
    destruct (mapM _ l) as [keyed'|e] eqn:Hl; simpl; [|discriminate].
    intros [= <-]. destruct (IH keyed' eq_refl) as [Hmap Hall].
    split; [simpl; now rewrite Hmap|]. now constructor.
Qed.

Lemma decorate_exists (f : A → Res key) (l : list A) :
  Forall (λ x, ∃ k, f x = Ok k) l →
  ∃ keyed, mapM (λ x, k ← f x; mret (k, x)) l = Ok keyed.
Proof.
  induction 1 as [|x l (k & Hk) _ (keyed & IH)].
  - now exists [].
  - exists ((k, x) :: keyed). now rewrite mapM_cons, Hk, IH.
Qed.

End SortFacts.

Lemma le_not_name_lt (a b : string) (ka kb : key) :
  key_of_name a = Ok ka → key_of_name b = Ok kb →
  not_gt key_compare ka kb → ¬ name_lt b a.
Proof.
  intros Ha Hb Hle (kb' & ka' & Hb' & Ha' & Hlt).
  rewrite Hb in Hb'. rewrite Ha in Ha'. injection Hb' as <-. injection Ha' as <-.
  rewrite (tuple_lt_compare kb (key_of_name_shape _ _ Hb) ka (key_of_name_shape _ _ Ha)) in Hlt.
  injection Hlt as Hlt. unfold not_gt in Hle.
  rewrite (cmp_antisym _ key_total kb ka) in Hle.
  destruct (key_compare kb ka); simpl in *; congruence.
Qed.

(** [sort_names] returns whenever every name has a key, and what it
    returns is the input rearranged so that no name sorts before an earlier
    one. *)
Lemma sort_names_spec (names : list string) :
  Forall (λ n, ∃ k, key_of_name n = Ok k) names →
  ∃ sorted, sort_names names = Ok sorted
            ∧ Permutation sorted names
            ∧ StronglySorted (λ a b, ¬ name_lt b a) sorted.
Proof.
  intros Hkeys. unfold sort_names, sort_by.
  destruct (decorate_exists key_of_name names Hkeys) as (keyed & Hkeyed).
  rewrite Hkeyed. simpl.
  destruct (decorate_spec key_of_name names keyed Hkeyed) as [Hmap Hall].
  assert (Hshape : shaped keyed).
  { eapply Forall_impl; [exact Hall|]. intros p Hp. simpl.
    now apply (key_of_name_shape (snd p)). }
  destruct (isort_spec keyed [] (List.Forall_nil _) Hshape) as (r & -> & Hperm & Hsorted).
  simpl. exists (List.map snd r). split; [reflexivity|]. simpl in Hperm. split.
  - rewrite <- Hmap. now apply Permutation_map.
  - specialize (Hsorted (SSorted_nil _)).
    assert (Hall' : Forall (λ p, key_of_name (snd p) = Ok (fst p)) r).
    { unfold key in *. rewrite Hperm. exact Hall. }
    clear -Hsorted Hall'.
    induction Hsorted as [|p r Hs IH Hp]; simpl; [constructor|].
    apply Forall_cons in Hall' as [Hkp Hall'].
    constructor; [now apply IH|].
    apply Forall_map. rewrite Forall_forall in Hp, Hall' |- *.
    intros q Hq. simpl.
    eapply le_not_name_lt; [exact Hkp | now apply Hall' | now apply Hp].
Qed.

End NaturalFacts.

(** C2, as stated, fails: [img01.png] and [img1.png] are two names with one
    key, so neither sorts before the other. *)
Lemma natural_order_not_total_on_names :
  "img01.png" ≠ "img1.png"
  ∧ Natural.key_of_name "img01.png" = Natural.key_of_name "img1.png"
  ∧ ¬ name_lt "img01.png" "img1.png"
  ∧ ¬ name_lt "img1.png" "img01.png".
Proof.
  split; [discriminate|]. split; [reflexivity|].
  split; intros (ka & kb & Ha & Hb & Hlt);
    vm_compute in Ha, Hb; injection Ha as <-; injection Hb as <-;
    vm_compute in Hlt; discriminate Hlt.
Qed.

(** A name with a superscript digit next to a digit run has no key:
    [str.isdigit] accepts the superscript, [int] does not. *)
Example natural_key_raises_on_superscript_digit :
  Natural.key_of_name (String (ascii_of_N 178) "1.png") = Raise ValueError.
Proof. reflexivity. Qed.

(** A name with a run of more than 4300 digits has no key either: [int]
    refuses to convert it. *)
Example natural_key_raises_on_long_digit_run :
  Natural.int (String.concat "" (repeat "7" 4301)) = Raise ValueError
  ∧ ∃ k, Natural.int (String.concat "" (repeat "7" 4300)) = Ok k.
Proof. split; [vm_compute; reflexivity|]. eexists. vm_compute. reflexivity. Qed.

(** C2, amended.  On the names for which [natural_key] returns a key,
    which include every name of at most 4300 characters whose digits are
    all among 0..9:
    - comparing two keys never raises;
    - the comparison is irreflexive, transitive and asymmetric, and of two
      names one sorts before the other or their keys are equal: a strict
      total order of the keys, and a strict weak order of the names;
    - at the first difference a digit run decides by its numeric value and
      a text run by its lower-cased text: this holds of the keys, and the
      key of a name holds, for its text runs, the lower-cased text, and for
      its digit runs, the number the run denotes, so that two names with a
      common beginning and then digit runs that denote different numbers
      are ordered by these numbers; names that are equal up to letter case
      have the same key;
    - a key sorts before each of its extensions;
    - sorting returns the names rearranged so that none sorts before an
      earlier one, and [img2.png, img10.png, img1.png] sorts to
      [img1.png, img2.png, img10.png]. *)
Theorem natural_key_order :
  (∀ name, decimal_digits_only name = true → (String.length name ≤ 4300)%nat →
           ∃ k, Natural.key_of_name name = Ok k)
  ∧ (∀ a b ka kb, Natural.key_of_name a = Ok ka → Natural.key_of_name b = Ok kb →
       ∃ lt, Natural.tuple_lt ka kb = Ok lt)
  ∧ (∀ a, ¬ name_lt a a)
  ∧ (∀ a b c, name_lt a b → name_lt b c → name_lt a c)
  ∧ (∀ a b, name_lt a b → ¬ name_lt b a)
  ∧ (∀ a b ka kb, Natural.key_of_name a = Ok ka → Natural.key_of_name b = Ok kb →
       name_lt a b ∨ ka = kb ∨ name_lt b a)
  ∧ (∀ pre m n ra rb, m ≠ n →
       Natural.tuple_lt (pre ++ Natural.TInt m :: ra) (pre ++ Natural.TInt n :: rb)
       = Ok (m <? n)%N)
  ∧ (∀ pre s t ra rb, s ≠ t →
       Natural.tuple_lt (pre ++ Natural.TStr s :: ra) (pre ++ Natural.TStr t :: rb)
       = Ok (is_lt (Str.compare s t)))
  ∧ (∀ t, text_part t = true → Str.isdigit t = false →
       Natural.key_of_name t = Ok [Natural.TStr (Str.lower t)])
  ∧ (∀ t d r, text_part t = true → Str.isdigit t = false →
       digit_part d = true → (String.length d ≤ 4300)%nat → no_digit_first r = true →
       Natural.key_of_name (t ++ d ++ r)
       = k ← Natural.key_of_name r;
         mret (Natural.TStr (Str.lower t) :: Natural.TInt (decimal_value d) :: k))
  ∧ (∀ pre d1 d2 r1 r2 ka kb,
       no_digit_last pre = true →
       digit_part d1 = true → digit_part d2 = true →
       no_digit_first r1 = true → no_digit_first r2 = true →
       Natural.key_of_name (pre ++ d1 ++ r1) = Ok ka →
       Natural.key_of_name (pre ++ d2 ++ r2) = Ok kb →
       (decimal_value d1 ≠ decimal_value d2 →
        Natural.tuple_lt ka kb = Ok (decimal_value d1 <? decimal_value d2)%N)
       ∧ ((decimal_value d1 < decimal_value d2)%N →
          name_lt (pre ++ d1 ++ r1) (pre ++ d2 ++ r2)))
  ∧ (∀ a b, Str.lower a = Str.lower b → Natural.key_of_name a = Natural.key_of_name b)
  ∧ (∀ k x ext, Natural.tuple_lt k (k ++ x :: ext) = Ok true)
  ∧ (∀ names, Forall (λ n, ∃ k, Natural.key_of_name n = Ok k) names →
       ∃ sorted, Natural.sort_names names = Ok sorted
                 ∧ Permutation sorted names
                 ∧ StronglySorted (λ a b, ¬ name_lt b a) sorted)
  ∧ Natural.key_of_name "IMG010b.PNG"
    = Ok [Natural.TStr "img"; Natural.TInt 10; Natural.TStr "b.png"]
  ∧ decimal_value "010" = 10%N
  ∧ Natural.sort_names ["img2.png"; "img10.png"; "img1.png"]
    = Ok ["img1.png"; "img2.png"; "img10.png"].
Proof.
  assert (Hlt : ∀ a b ka kb, Natural.key_of_name a = Ok ka → Natural.key_of_name b = Ok kb →
            Natural.tuple_lt ka kb = Ok (is_lt (key_compare ka kb))).
  { intros a b ka kb Ha Hb.
    apply NaturalFacts.tuple_lt_compare; eapply NaturalFacts.key_of_name_shape; eassumption. }
  assert (Hname : ∀ a b, name_lt a b ↔
            ∃ ka kb, Natural.key_of_name a = Ok ka ∧ Natural.key_of_name b = Ok kb
                     ∧ key_compare ka kb = Lt).
  { intros a b. split; intros (ka & kb & Ha & Hb & H); exists ka, kb;
      (split; [exact Ha|]); (split; [exact Hb|]);
      rewrite (Hlt a b ka kb Ha Hb) in *.
    - injection H as H. now destruct (key_compare ka kb).
    - now rewrite H. }
  assert (Hrefl : ∀ x, Natural.token_eqb x x = true).
  { intros [n|s]; simpl; [apply N.eqb_refl|apply String.eqb_refl]. }
  pose proof NaturalFacts.key_total as [R E An T].
  repeat apply conj.
  - apply NaturalFacts.key_of_name_exists.
  - intros a b ka kb Ha Hb. rewrite (Hlt a b ka kb Ha Hb). eauto.
  - intros a H. apply Hname in H as (ka & kb & Ha & Hb & H).
    rewrite Ha in Hb. injection Hb as <-. rewrite R in H. discriminate H.
  - intros a b c H1 H2. apply Hname in H1 as (ka & kb & Ha & Hb & H1).
    apply Hname in H2 as (kb' & kc & Hb' & Hc & H2).
    rewrite Hb in Hb'. injection Hb' as <-.
    apply Hname. exists ka, kc. repeat split; try assumption. now apply (T ka kb kc).
  - intros a b H1 H2. apply Hname in H1 as (ka & kb & Ha & Hb & H1).
    apply Hname in H2 as (kb' & ka' & Hb' & Ha' & H2).
    rewrite Hb in Hb'. injection Hb' as <-. rewrite Ha in Ha'. injection Ha' as <-.
    rewrite (An ka kb), H1 in H2. discriminate H2.
  - intros a b ka kb Ha Hb. destruct (key_compare ka kb) eqn:C.
    + right; left. now apply E.
    + left. apply Hname. now exists ka, kb.
    + right; right. apply Hname. exists kb, ka. repeat split; try assumption.
      now rewrite (An ka kb), C.
  - intros pre m n ra rb Hmn. now apply NaturalFacts.tuple_lt_at_int.
  - intros pre s t ra rb Hst. induction pre as [|x pre IH]; simpl.
    + apply String.eqb_neq in Hst. now rewrite Hst.
    + now rewrite Hrefl.
  - apply NaturalFacts.key_of_text.
  - apply NaturalFacts.key_of_text_run.
  - intros pre d1 d2 r1 r2 ka kb Hpre Hd1 Hd2 Hr1 Hr2 Ha Hb. split.
    + intros Hne. now apply (NaturalFacts.digit_runs_decide pre d1 d2 r1 r2).
    + intros Hval. exists ka, kb. split; [assumption|]. split; [assumption|].
      rewrite (NaturalFacts.digit_runs_decide pre d1 d2 r1 r2 ka kb)
        by (try assumption; lia).
      f_equal. now apply N.ltb_lt.
  - intros a b Hab.
    rewrite <- (NaturalFacts.key_of_name_lower a), <- (NaturalFacts.key_of_name_lower b).
    now rewrite Hab.
  - intros k x ext. induction k as [|y k IH]; simpl; [reflexivity|]. now rewrite Hrefl.
  - apply NaturalFacts.sort_names_spec.
  - reflexivity.
  - reflexivity.
  - reflexivity.
Qed.

Lemma natural_key_order_witness :
  (∃ k, Natural.key_of_name "scan_0042 (copy).JPG" = Ok k)
  ∧ name_lt "img2.png" "img10.png"
  ∧ name_lt "Scan_9_b.png" "Scan_0010_a.png"
  ∧ Natural.key_of_name "Page7.PNG" = Natural.key_of_name "page7.png".
Proof.
  destruct natural_key_order
    as (Hkey & _ & _ & _ & _ & Htotal & _ & _ & _ & _ & Hruns & Hcase & _).
  split; [apply Hkey; [reflexivity|apply Nat.leb_le; vm_compute; reflexivity]|]. split.
  - destruct (Htotal "img2.png" "img10.png" _ _ eq_refl eq_refl) as [H | [H | H]].
    + exact H.
    + discriminate H.
    + exfalso. destruct H as (ka & kb & Ha & Hb & H).
      vm_compute in Ha, Hb. injection Ha as <-. injection Hb as <-.
      vm_compute in H. discriminate H.
  - split; [|apply Hcase; reflexivity].
    refine (proj2 (Hruns "Scan_" "9" "0010" "_b.png" "_a.png" _ _
                     eq_refl eq_refl eq_refl eq_refl eq_refl eq_refl eq_refl) _).
    vm_compute. reflexivity.
Defined.

(* ===================================================================== *)
(** * Names without a key, and folder listings *)
(* ===================================================================== *)

Module KeyErrors.
Import Natural NaturalFacts.

Lemma stray_text (t : string) : text_part t = true → stray_digit_part t = Str.isdigit t.
Proof.
  intros Ht. unfold stray_digit_part. destruct (Str.isdigit t) eqn:E; [|reflexivity].
  unfold Str.isdigit in E. apply andb_true_iff in E as [Hne _].
  now rewrite (text_not_decimal t Ht Hne).
Qed.

Lemma stray_digits (d : string) : digit_part d = true → stray_digit_part d = false.
Proof.
  unfold digit_part, stray_digit_part. intros H. apply andb_true_iff in H as [_ H].
  rewrite H. apply andb_false_r.
Qed.

Lemma keyless_text (t : string) : text_part t = true → keyless_part t = Str.isdigit t.
Proof.
  intros Ht. unfold keyless_part. rewrite (stray_text t Ht).
  unfold long_digit_part, digit_part.
  destruct (Str.nonempty t) eqn:Hne; [|now rewrite orb_false_r].
  now rewrite (text_not_decimal t Ht Hne), orb_false_r.
Qed.

Lemma keyless_digits (d : string) :
  digit_part d = true → keyless_part d = (int_max_str_digits <? String.length d)%nat.
Proof.
  intros Hd. unfold keyless_part, long_digit_part. now rewrite (stray_digits d Hd), Hd.
Qed.

(** The parts decide the outcome: a part without a token raises
    [ValueError], and without one there is a token for every part. *)
Lemma parts_outcome (ps : list string) :
  parts_shape ps →
  (existsb keyless_part ps = true ∧ mapM token_of ps = Raise ValueError)
  ∨ (existsb keyless_part ps = false
     ∧ ∃ k, mapM token_of ps = Ok k ∧ length k = length ps).
Proof.
  induction 1 as [t Ht | t d rest Ht Hd _ IH].
  - rewrite mapM_cons, (token_of_text t Ht). simpl. rewrite (keyless_text t Ht).
    destruct (Str.isdigit t); simpl; [now left|right]. split; [reflexivity|]. eauto.
  - rewrite !mapM_cons, (token_of_text t Ht). simpl.
    rewrite (keyless_text t Ht), (keyless_digits d Hd).
    destruct (Str.isdigit t); simpl; [now left|].
    rewrite (token_of_digits d Hd).
    destruct (int_max_str_digits <? String.length d)%nat; simpl; [now left|].
    destruct IH as [[-> ->] | (-> & k & -> & Hlen)]; simpl; [now left|right].
    split; [reflexivity|]. eexists. split; [reflexivity|]. simpl. now rewrite Hlen.
Qed.

Lemma key_of_name_outcome (name : string) :
  (existsb keyless_part (re_split name) = true ∧ key_of_name name = Raise ValueError)
  ∨ (existsb keyless_part (re_split name) = false
     ∧ ∃ k, key_of_name name = Ok k ∧ length k = length (re_split name)).
Proof. apply parts_outcome, re_split_shape. Qed.

Lemma key_of_name_error (name : string) (e : exn) :
  key_of_name name = Raise e → e = ValueError.
Proof.
  destruct (key_of_name_outcome name) as [[_ ->] | (_ & k & -> & _)]; congruence.
Qed.


End KeyErrors.


Module FolderFacts.
Import Natural NaturalFacts.

Lemma StronglySorted_impl {A} (R R' : A → A → Prop) (l : list A) :
  (∀ a b, R a b → R' a b) → StronglySorted R l → StronglySorted R' l.
Proof.
  intros HR. induction 1 as [|x l Hs IH Hx]; constructor; [exact IH|].
  eapply Forall_impl; [exact Hx|]. intros b. apply HR.
Qed.

Section SortBy.
Context {A : Type} (f : A → Res key).
Hypothesis f_shape : ∀ x k, f x = Ok k → key_shape k.
Hypothesis f_error : ∀ x e, f x = Raise e → e = ValueError.

Lemma decorate_outcome (l : list A) :
  (∃ keyed, mapM (λ x, k ← f x; mret (k, x)) l = Ok keyed)
  ∨ (mapM (λ x, k ← f x; mret (k, x)) l = Raise ValueError
     ∧ Exists (λ x, f x = Raise ValueError) l).
Proof.
  induction l as [|x l IH].
  - left. now exists [].
  - rewrite mapM_cons. destruct (f x) as [k|e] eqn:Hx; simpl.
    + destruct IH as [(keyed & ->) | (-> & Hex)]; simpl.
      * left. eauto.
      * right. split; [reflexivity|]. now constructor 2.
    + pose proof (f_error x e Hx) as ->. right. split; [reflexivity|]. now constructor 1.
Qed.

Lemma sort_by_outcome (l : list A) :
  (∃ sorted, sort_by f l = Ok sorted
             ∧ Permutation sorted l
             ∧ StronglySorted (in_order f) sorted
             ∧ Forall (λ x, ∃ k, f x = Ok k) l)
  ∨ (sort_by f l = Raise ValueError ∧ Exists (λ x, f x = Raise ValueError) l).
Proof.
  unfold sort_by. destruct (decorate_outcome l) as [(keyed & Hkeyed) | (-> & Hex)];
    [left|right; now split].
  rewrite Hkeyed. simpl.
  destruct (decorate_spec f l keyed Hkeyed) as [Hmap Hall].
  assert (Hshape : shaped keyed).
  { eapply Forall_impl; [exact Hall|]. intros p Hp. simpl. now apply (f_shape (snd p)). }
  destruct (isort_spec keyed [] (List.Forall_nil _) Hshape) as (r & -> & Hperm & Hsorted).
  simpl. exists (List.map snd r). split; [reflexivity|]. simpl in Hperm.
  split; [|split].
  - rewrite <- Hmap. now apply Permutation_map.
  - specialize (Hsorted (SSorted_nil _)).
    assert (Hall' : Forall (λ p, f (snd p) = Ok (fst p)) r).
    { unfold key in *. rewrite Hperm. exact Hall. }
    clear -Hsorted Hall'.
    induction Hsorted as [|p r Hs IH Hp]; simpl; [constructor|].
    apply Forall_cons in Hall' as [Hkp Hall'].
    constructor; [now apply IH|].
    apply Forall_map. rewrite Forall_forall in Hp, Hall' |- *.
    intros q Hq. simpl. exists (fst p), (fst q).
    split; [exact Hkp|]. split; [now apply Hall'|]. now apply Hp.
  - rewrite <- Hmap. apply Forall_map.
    eapply Forall_impl; [exact Hall|]. intros p Hp. simpl in *. now exists (fst p).
Qed.

End SortBy.

Lemma natural_key_shape (p : Path.t) (k : key) : natural_key p = Ok k → key_shape k.
Proof. apply key_of_name_shape. Qed.

Lemma natural_key_error (p : Path.t) (e : exn) : natural_key p = Raise e → e = ValueError.
Proof. apply KeyErrors.key_of_name_error. Qed.

Lemma in_order_path (a b : Path.t) : in_order natural_key a b → ¬ path_lt b a.
Proof.
  intros (ka & kb & Ha & Hb & Hle). unfold path_lt.
  now apply (le_not_name_lt _ _ ka kb).
Qed.

(** ** What a listing looks at *)

Lemma is_image_node (w : World) (p : Path.t) :
  is_image w p = true → ∃ d, nodes w !! p = Some (File d).
Proof.
  unfold is_image, FS.is_file, FS.stat. intros H. apply andb_true_iff in H as [H _].
  destruct p as [|c p]; [discriminate H|].
  repeat case_match; try discriminate H. eauto.
Qed.

Lemma elem_of_candidates (w : World) (folder : Path.t) (recursive : bool) (p : Path.t) :
  p ∈ List.filter (is_image w) (FS.glob w folder recursive) ↔ candidate w folder recursive p.
Proof.
  unfold candidate, FS.glob, inside.
  rewrite list_elem_of_In, filter_In.
  destruct (FS.is_dir w folder); simpl.
  - rewrite filter_In, <- list_elem_of_In. destruct recursive; split.
    + intros [[_ Hin] Himg]. auto.
    + intros (_ & Hin & Himg). split; [split; [|exact Hin]|exact Himg].
      destruct (is_image_node w p Himg) as (d & Hd).
      apply list_elem_of_fmap. exists (p, File d). split; [reflexivity|].
      now apply elem_of_map_to_list.
    + intros [[_ Hin] Himg]. auto.
    + intros (_ & Hin & Himg). split; [split; [|exact Hin]|exact Himg].
      destruct (is_image_node w p Himg) as (d & Hd).
      apply list_elem_of_fmap. exists (p, File d). split; [reflexivity|].
      now apply elem_of_map_to_list.
  - split; [intros [[] _]|intros (H & _); discriminate H].
Qed.

Lemma NoDup_filter {A} (f : A → bool) (l : list A) : NoDup l → NoDup (List.filter f l).
Proof.
  induction 1 as [|x l Hx _ IH]; simpl; [constructor|].
  destruct (f x); [|exact IH]. constructor; [|exact IH].
  rewrite list_elem_of_In, filter_In, <- list_elem_of_In. tauto.
Qed.

Lemma NoDup_candidates (w : World) (folder : Path.t) (recursive : bool) :
  NoDup (List.filter (is_image w) (FS.glob w folder recursive)).
Proof.
  apply NoDup_filter. unfold FS.glob. destruct (FS.is_dir w folder); [|constructor].
  apply NoDup_filter. apply NoDup_fst_map_to_list.
Qed.

Lemma listing_outcome (w : World) (folder : Path.t) (recursive : bool) :
  (∃ imgs, list_images_in_folder w folder recursive = Ok imgs
           ∧ Permutation imgs (List.filter (is_image w) (FS.glob w folder recursive))
           ∧ StronglySorted (λ a b, ¬ path_lt b a) imgs
           ∧ ∀ p, candidate w folder recursive p → ∃ k, natural_key p = Ok k)
  ∨ (list_images_in_folder w folder recursive = Raise ValueError
     ∧ ∃ p, candidate w folder recursive p ∧ natural_key p = Raise ValueError).
Proof.
  unfold list_images_in_folder.
  destruct (sort_by_outcome natural_key natural_key_shape natural_key_error
              (List.filter (is_image w) (FS.glob w folder recursive)))
    as [(sorted & Hs & Hperm & Hsorted & Hkeys) | (Hs & Hex)].
  - left. exists sorted. split; [exact Hs|]. split; [exact Hperm|]. split.
    + eapply StronglySorted_impl; [|exact Hsorted]. apply in_order_path.
    + intros p Hp. apply elem_of_candidates in Hp.
      rewrite Forall_forall in Hkeys. now apply Hkeys.
  - right. split; [exact Hs|].
    apply Exists_exists in Hex as (p & Hp & Hkey).
    exists p. split; [|exact Hkey]. now apply elem_of_candidates.
Qed.

Lemma child_below (folder p : Path.t) :
  FS.child_of folder p = true → FS.below folder p = true.
Proof.
  unfold FS.child_of, FS.below. destruct p as [|c p]; [discriminate|].
  intros H. apply bool_decide_eq_true in H. subst folder.
  apply andb_true_iff. split.
  - apply bool_decide_eq_true. apply SysFacts.parent_prefix.
  - apply negb_true_iff, bool_decide_eq_false. intros Heq.
    pose proof (SysFacts.parent_prefix (c :: p)) as Hp.
    apply (AssemblerFacts.not_prefix_of_parent (c :: p)); [discriminate|].
    rewrite <- Heq. reflexivity.
Qed.

Lemma candidate_deeper (w : World) (folder p : Path.t) :
  candidate w folder false p → candidate w folder true p.
Proof.
  intros (Hd & Hin & Himg). split; [exact Hd|]. split; [|exact Himg].
  now apply child_below.
Qed.

End FolderFacts.

(** X2. [list_images_in_folder] returns unless the name of an image file it
    looks at has no key: then, and only then, it raises, and what it raises
    is [ValueError].  On a path that is not a directory it returns the
    empty list. *)
Theorem listing_raises_exactly_on_a_keyless_name :
  ∀ (w : World) (folder : Path.t) (recursive : bool),
    (list_images_in_folder w folder recursive = Raise ValueError
     ↔ ∃ p, candidate w folder recursive p ∧ natural_key p = Raise ValueError)
    ∧ (∀ e, list_images_in_folder w folder recursive = Raise e → e = ValueError)
    ∧ (FS.is_dir w folder = false → list_images_in_folder w folder recursive = Ok []).
Proof.
  intros w folder recursive. unfold natural_key.
  destruct (FolderFacts.listing_outcome w folder recursive)
    as [(imgs & Hs & _ & _ & Hkeys) | (Hs & p & Hp & Hkey)].
  - rewrite Hs. split; [|split].
    + split; [discriminate|]. intros (p & Hp & Hkey).
      destruct (Hkeys p Hp) as (k & Hk). rewrite Hk in Hkey. discriminate Hkey.
    + discriminate.
    + intros Hd. unfold list_images_in_folder, FS.glob in Hs. rewrite Hd in Hs.
      symmetry. exact Hs.
  - rewrite Hs. split; [|split].
    + split; [eauto|reflexivity].
    + now intros e [= <-].
    + intros Hd. destruct Hp as (Hd' & _). congruence.
Qed.

(** X3. What [list_images_in_folder] returns holds no path twice, holds
    exactly the image files in the folder (below it, when recursive), and is
    in natural order: no path sorts before an earlier one. *)
Theorem listing_is_the_sorted_set_of_images :
  ∀ (w : World) (folder : Path.t) (recursive : bool) (imgs : list Path.t),
    list_images_in_folder w folder recursive = Ok imgs →
    NoDup imgs
    ∧ (∀ p, p ∈ imgs ↔ candidate w folder recursive p)
    ∧ StronglySorted (λ a b, ¬ path_lt b a) imgs.
Proof.
  intros w folder recursive imgs Hrun.
  destruct (FolderFacts.listing_outcome w folder recursive)
    as [(imgs' & Hs & Hperm & Hsorted & _) | (Hs & _)]; [|congruence].
  rewrite Hrun in Hs. injection Hs as <-.
  split; [|split].
  - rewrite Hperm. apply FolderFacts.NoDup_candidates.
  - intros p. rewrite Hperm. apply FolderFacts.elem_of_candidates.
  - exact Hsorted.
Qed.

Lemma listing_is_the_sorted_set_of_images_witness :
  let imgs := [["in"; "A.jpg"]; ["in"; "B.png"]; ["in"; "broken.png"]] in
  NoDup imgs
  ∧ (∀ p, p ∈ imgs ↔ candidate example_world ["in"] true p)
  ∧ StronglySorted (λ a b, ¬ path_lt b a) imgs.
Proof.
  intros imgs.
  assert (Hrun : list_images_in_folder example_world ["in"] true = Ok imgs)
    by (vm_compute; reflexivity).
  exact (listing_is_the_sorted_set_of_images example_world ["in"] true imgs Hrun).
Defined.

(** X4. When the recursive listing of a folder returns, so does the flat
    one, and every path of the flat listing is in the recursive one. *)
Theorem flat_listing_is_part_of_the_recursive_one :
  ∀ (w : World) (folder : Path.t) (deep : list Path.t),
    list_images_in_folder w folder true = Ok deep →
    ∃ flat, list_images_in_folder w folder false = Ok flat
            ∧ ∀ p, p ∈ flat → p ∈ deep.
Proof.
  intros w folder deep Hdeep.
  destruct (FolderFacts.listing_outcome w folder true)
    as [(deep' & Hs & Hperm & _ & Hkeys) | (Hs & _)]; [|congruence].
  rewrite Hdeep in Hs. injection Hs as <-.
  destruct (FolderFacts.listing_outcome w folder false)
    as [(flat & Hf & Hpermf & _ & _) | (_ & p & Hp & Hkey)].
  - exists flat. split; [exact Hf|]. intros p Hp.
    rewrite Hperm. apply FolderFacts.elem_of_candidates.
    apply FolderFacts.candidate_deeper. apply FolderFacts.elem_of_candidates.
    now rewrite <- Hpermf.
  - destruct (Hkeys p (FolderFacts.candidate_deeper w folder p Hp)) as (k & Hk).
    rewrite Hk in Hkey. discriminate Hkey.
Qed.

Lemma flat_listing_is_part_of_the_recursive_one_witness :
  let deep := [["in"; "A.jpg"]; ["in"; "B.png"]; ["in"; "broken.png"]] in
  ∃ flat, list_images_in_folder example_world ["in"] false = Ok flat
          ∧ ∀ p, p ∈ flat → p ∈ deep.
Proof.
  intros deep.
  assert (Hrun : list_images_in_folder example_world ["in"] true = Ok deep)
    by (vm_compute; reflexivity).
  exact (flat_listing_is_part_of_the_recursive_one example_world ["in"] deep Hrun).
Defined.

(* ===================================================================== *)
(** * The payload format *)
(* ===================================================================== *)

Module PayloadFacts.
Import Drop DropFacts.

Lemma joined_snoc (ps : list string) (b : string) :
  joined (ps ++ [b]) = (joined ps ++ b)%string.
Proof.
  unfold joined. induction ps as [|p ps IH]; simpl.
  - apply append_nil_r.
  - now rewrite IH, append_assoc.
Qed.

Lemma joined_flushed (ps : list string) (b : string) :
  joined (flushed ps b) = (joined ps ++ b)%string.
Proof.
  unfold flushed. destruct b as [|c b]; simpl.
  - now rewrite append_nil_r.
  - apply joined_snoc.
Qed.

Lemma flushed_space_free (ps : list string) (b : string) :
  Forall (λ t, space_free t = true) ps → space_free b = true →
  Forall (λ t, space_free t = true) (flushed ps b).
Proof.
  intros Hps Hb. unfold flushed. destruct (Str.nonempty b); [|exact Hps].
  apply Forall_app. split; [exact Hps|]. now repeat constructor.
Qed.

(** A scan without braces stays outside braces, keeps every character
    but the whitespace, and never lets whitespace into a token. *)
Lemma run_brace_free (raw : string) :
  ∀ ps b, brace_free raw = true →
    ∃ ps' b', run (Scan ps b false) raw = Scan ps' b' false
      ∧ (joined ps' ++ b')%string = (joined ps ++ b ++ without_spaces raw)%string
      ∧ (Forall (λ t, space_free t = true) ps → space_free b = true →
         Forall (λ t, space_free t = true) ps' ∧ space_free b' = true).
Proof.
  induction raw as [|c raw IH]; intros ps b Hb.
  - exists ps, b. simpl. rewrite append_nil_r. auto.
  - unfold brace_free in Hb. simpl in Hb. apply andb_true_iff in Hb as [Hc Hb].
    apply negb_true_iff in Hc. simpl.
    destruct (Chr.isspace c) eqn:Hsp.
    + rewrite step_space by exact Hsp.
      destruct (IH (flushed ps b) "" Hb) as (ps' & b' & Hrun & Hj & Hsf).
      exists ps', b'. split; [exact Hrun|]. split.
      * rewrite Hj, joined_flushed. simpl. now rewrite append_assoc.
      * intros Hps Hbs. apply Hsf; [now apply flushed_space_free|reflexivity].
    + rewrite step_plain by (simpl; auto). simpl.
      destruct (IH ps (Str.snoc b c) Hb) as (ps' & b' & Hrun & Hj & Hsf).
      exists ps', b'. split; [exact Hrun|]. split.
      * rewrite Hj. now rewrite snoc_append.
      * intros Hps Hbs. apply Hsf; [exact Hps|].
        unfold space_free, Str.snoc. rewrite all_append. unfold space_free in Hbs.
        rewrite Hbs. simpl. now rewrite Hsp.
Qed.

Lemma tokenize_bare_then (a ws rest : string) :
  brace_free a = true → space_free a = true → blank ws = true →
  tokenize (a ++ ws ++ rest)%string = flushed [] a ++ tokenize rest.
Proof.
  intros Ha Hsp Hws. unfold tokenize at 1, start.
  rewrite !run_app.
  rewrite run_plain by (try assumption; now right). simpl.
  rewrite run_blank_flush by assumption.
  apply tokenize_after.
Qed.

Lemma tokenize_braced_then (s rest : string) :
  brace_free s = true →
  tokenize ("{" ++ s ++ "}" ++ rest)%string = flushed [] s ++ tokenize rest.
Proof.
  intros Hs. unfold tokenize at 1. simpl.
  rewrite run_app, step_open.
  rewrite run_plain by (try assumption; now left). simpl.
  rewrite step_close.
  apply tokenize_after.
Qed.

Lemma tokenize_quoted_then (p rest : string) :
  Str.nonempty p = true → brace_free p = true →
  tokenize (quoted p ++ " " ++ rest)%string = p :: tokenize rest.
Proof.
  intros Hne Hb. unfold quoted. destruct (space_free p) eqn:Hsp.
  - rewrite (tokenize_bare_then p " " rest Hb Hsp eq_refl).
    unfold flushed. now rewrite Hne.
  - rewrite !append_assoc.
    rewrite (tokenize_braced_then p (" " ++ rest)%string Hb).
    unfold flushed. rewrite Hne. reflexivity.
Qed.

Lemma tokenize_quoted (p : string) :
  Str.nonempty p = true → brace_free p = true → tokenize (quoted p) = [p].
Proof.
  intros Hne Hb.
  rewrite <- (append_nil_r (quoted p)).
  unfold quoted. destruct (space_free p) eqn:Hsp.
  - rewrite append_nil_r. unfold tokenize, start.
    rewrite run_plain by (try assumption; now right).
    unfold finish, flushed. simpl. now rewrite Hne.
  - rewrite !append_assoc. rewrite (tokenize_braced_then p "" Hb).
    unfold flushed. now rewrite Hne.
Qed.

End PayloadFacts.

(** X5. Without braces in the payload the tokenizer only removes
    whitespace: the tokens, put together, are the payload without its
    whitespace characters, and no token holds whitespace. *)
Theorem brace_free_payload_loses_only_whitespace :
  ∀ raw : string,
    brace_free raw = true →
    joined (Drop.tokenize raw) = without_spaces raw
    ∧ Forall (λ t, space_free t = true) (Drop.tokenize raw).
Proof.
  intros raw Hb.
  destruct (PayloadFacts.run_brace_free raw [] "" Hb) as (ps & b & Hrun & Hj & Hsf).
  unfold Drop.tokenize, Drop.start, Drop.finish. rewrite Hrun. simpl.
  split.
  - rewrite PayloadFacts.joined_flushed. exact Hj.
  - destruct (Hsf (List.Forall_nil _) eq_refl) as [Hps Hbs].
    now apply PayloadFacts.flushed_space_free.
Qed.

Lemma brace_free_payload_loses_only_whitespace_witness :
  let raw := "/in/A.jpg  /in/B.png" in
  joined (Drop.tokenize raw) = without_spaces raw
  ∧ Forall (λ t, space_free t = true) (Drop.tokenize raw).
Proof.
  intros raw.
  assert (Hb : brace_free raw = true) by reflexivity.
  exact (brace_free_payload_loses_only_whitespace raw Hb).
Defined.

(** X6. Round trip of the payload format: paths that are not empty and hold
    no brace, written one after the other with a space between two and with
    braces around those that hold whitespace, are read back as they were. *)
Theorem tokenize_reads_back_a_payload :
  ∀ ps : list string,
    Forall (λ p, Str.nonempty p = true ∧ brace_free p = true) ps →
    Drop.tokenize (payload ps) = ps.
Proof.
  induction 1 as [|p ps [Hne Hb] Hps IH]; [reflexivity|].
  destruct ps as [|q ps].
  - now apply PayloadFacts.tokenize_quoted.
  - change (payload (p :: q :: ps)) with (quoted p ++ " " ++ payload (q :: ps))%string.
    rewrite PayloadFacts.tokenize_quoted_then by assumption. now rewrite IH.
Qed.

Lemma tokenize_reads_back_a_payload_witness :
  let ps := ["/in/my pictures/A.jpg"; "/in/B.png"] in
  payload ps = "{/in/my pictures/A.jpg} /in/B.png"
  ∧ Drop.tokenize (payload ps) = ps.
Proof.
  intros ps.
  assert (Hps : Forall (λ p, Str.nonempty p = true ∧ brace_free p = true) ps)
    by (repeat constructor).
  split; [reflexivity|].
  exact (tokenize_reads_back_a_payload ps Hps).
Defined.

(* ===================================================================== *)
(** * Paths, strings and suffixes *)
(* ===================================================================== *)

Module PathMore.
Import PathFacts.

Lemma sep_free_snoc (cur : string) (c : ascii) :
  sep_free cur = true → Ascii.eqb c "/"%char = false → sep_free (Str.snoc cur c) = true.
Proof.
  unfold sep_free, Str.snoc. intros H Hc. rewrite all_append, H. simpl. now rewrite Hc.
Qed.

(** [split] cuts at every separator: no part holds one. *)
Lemma split_sep_free (s : string) :
  ∀ cur, sep_free cur = true → Forall (λ c, sep_free c = true) (Path.split_sep cur s).
Proof.
  induction s as [|c s IH]; intros cur Hcur; simpl.
  - now repeat constructor.
  - destruct (Ascii.eqb c "/"%char) eqn:Hc.
    + constructor; [exact Hcur|]. now apply IH.
    + apply IH. now apply sep_free_snoc.
Qed.

Lemma of_string_well_formed (s : string) : well_formed (Path.of_string s) = true.
Proof.
  unfold Path.of_string, well_formed.
  pose proof (split_sep_free s "" eq_refl) as H.
  induction H as [|c l Hc _ IH]; simpl; [reflexivity|].
  destruct (Path.real_part c) eqn:Hr; [|exact IH].
  simpl. now rewrite Hr, Hc, IH.
Qed.

Lemma prefix_antisym (a b : list string) : a `prefix_of` b → b `prefix_of` a → a = b.
Proof.
  intros Hab Hba. apply prefix_length_eq; [exact Hab|]. now apply prefix_length.
Qed.

End PathMore.

(** X7. A path and its string: [Path(s)] is well formed for every string,
    and a well-formed path comes back from its string, [Path(str(p)) = p]. *)
Theorem path_string_round_trip :
  (∀ s : string, well_formed (Path.of_string s) = true)
  ∧ (∀ p : Path.t, well_formed p = true → Path.of_string (Path.to_string p) = p)
  ∧ (∀ s : string, Path.of_string (Path.to_string (Path.of_string s)) = Path.of_string s).
Proof.
  split; [apply PathMore.of_string_well_formed|]. split.
  - apply PathFacts.of_to_string.
  - intros s. apply PathFacts.of_to_string, PathMore.of_string_well_formed.
Qed.

(** X8. [common_parent] depends on which paths it is given, not on their
    order or on repetitions: two non-empty lists with the same elements give
    the same directory. *)
Theorem common_parent_of_the_same_paths :
  ∀ (w : World) (paths paths' : list Path.t),
    paths ≠ [] →
    Forall (λ p, well_formed p = true) paths →
    (∀ p, p ∈ paths ↔ p ∈ paths') →
    common_parent w paths' = common_parent w paths.
Proof.
  intros w paths paths' Hne Hwf Hsame.
  assert (Hne' : paths' ≠ []).
  { destruct paths as [|p ps]; [congruence|]. intros ->.
    pose proof (proj1 (Hsame p) (list_elem_of_here p ps)) as H. inversion H. }
  assert (Hwf' : Forall (λ p, well_formed p = true) paths').
  { rewrite Forall_forall in Hwf |- *. intros p Hp. apply Hwf. now apply Hsame. }
  destruct (PathFacts.common_parent_spec w paths Hne Hwf) as (c & -> & Hpre & Hmax).
  destruct (PathFacts.common_parent_spec w paths' Hne' Hwf') as (c' & -> & Hpre' & Hmax').
  f_equal. apply PathMore.prefix_antisym.
  - apply Hmax. intros p Hp. apply Hpre'. now apply Hsame.
  - apply Hmax'. intros p Hp. apply Hpre. now apply Hsame.
Qed.

Lemma common_parent_of_the_same_paths_witness :
  let paths := [["in"; "A.jpg"]; ["in"; "result"; "merged.pdf"]] in
  let paths' := [["in"; "result"; "merged.pdf"]; ["in"; "A.jpg"]; ["in"; "A.jpg"]] in
  common_parent example_world paths' = common_parent example_world paths.
Proof.
  intros paths paths'.
  assert (Hne : paths ≠ []) by discriminate.
  assert (Hwf : Forall (λ p, well_formed p = true) paths) by (repeat constructor).
  assert (Hsame : ∀ p, p ∈ paths ↔ p ∈ paths').
  { intros p. unfold paths, paths'. rewrite !list_elem_of_In. simpl. tauto. }
  exact (common_parent_of_the_same_paths example_world paths paths' Hne Hwf Hsame).
Defined.

Module SuffixFacts.

Lemma from_last_dot_some (s x : string) :
  Path.from_last_dot s = Some x →
  ∃ pre e, s = (pre ++ x)%string ∧ x = String "."%char e ∧ Path.from_last_dot e = None.
Proof.
  revert x. induction s as [|c s IH]; intros x; simpl; [discriminate|].
  destruct (Path.from_last_dot s) as [y|] eqn:Hs.
  - intros [= <-]. destruct (IH y eq_refl) as (pre & e & -> & -> & He).
    exists (String c pre), e. auto.
  - destruct (Ascii.eqb_spec c "."%char) as [->|_]; [|discriminate].
    intros [= <-]. exists "", s. auto.
Qed.

Lemma from_last_dot_app (pre e : string) :
  Path.from_last_dot e = None →
  Path.from_last_dot (pre ++ String "."%char e) = Some (String "."%char e).
Proof.
  intros He. induction pre as [|c pre IH]; simpl.
  - now rewrite He.
  - now rewrite IH.
Qed.

Lemma lower_is_dot (c : ascii) : Ascii.eqb (Chr.lower c) "."%char = Ascii.eqb c "."%char.
Proof. destruct c as [[] [] [] [] [] [] [] []]; reflexivity. Qed.

Lemma from_last_dot_lower (s : string) :
  Path.from_last_dot (Str.lower s) = option_map Str.lower (Path.from_last_dot s).
Proof.
  induction s as [|c s IH]; [reflexivity|].
  change (Str.lower (String c s)) with (String (Chr.lower c) (Str.lower s)).
  simpl. rewrite IH, lower_is_dot.
  destruct (Path.from_last_dot s); simpl; [reflexivity|].
  destruct (Ascii.eqb c "."%char); reflexivity.
Qed.

Lemma supported_ext (x : string) :
  In x SUPPORTED_EXTS →
  ∃ e, x = String "."%char e ∧ Str.nonempty e = true ∧ Path.from_last_dot e = None.
Proof.
  intros [<- | [<- | [<- | []]]]; eexists; (split; [reflexivity|]); split; reflexivity.
Qed.

Lemma in_supported (x : string) :
  existsb (String.eqb x) SUPPORTED_EXTS = true ↔ In x SUPPORTED_EXTS.
Proof.
  rewrite existsb_exists. split.
  - intros (y & Hy & Heq). apply String.eqb_eq in Heq. now subst.
  - intros H. exists x. split; [exact H|apply String.eqb_refl].
Qed.

(** The suffix of a name that ends in a supported extension, in any
    letter case, after a non-empty stem. *)
Lemma suffix_of_stem_ext (p : Path.t) (stem ext : string) :
  Path.name p = (stem ++ ext)%string → Str.nonempty stem = true →
  In (Str.lower ext) SUPPORTED_EXTS → Path.suffix p = ext.
Proof.
  intros Hname Hstem Hext. unfold Path.suffix. rewrite Hname.
  destruct stem as [|c st]; [discriminate|]. simpl.
  destruct (supported_ext _ Hext) as (e' & Hlow & Hne & Hnone).
  destruct ext as [|d e]; [discriminate|].
  change (Str.lower (String d e)) with (String (Chr.lower d) (Str.lower e)) in Hlow.
  injection Hlow as Hd He.
  assert (d = "."%char) as ->.
  { apply Ascii.eqb_eq. rewrite <- lower_is_dot, Hd. reflexivity. }
  assert (Path.from_last_dot e = None) as Hdot.
  { pose proof (from_last_dot_lower e) as H. rewrite He, Hnone in H.
    destruct (Path.from_last_dot e); [discriminate|reflexivity]. }
  rewrite (from_last_dot_app st e Hdot).
  destruct e as [|x e]; [subst e'; discriminate|]. reflexivity.
Qed.

End SuffixFacts.

(** X9. The files [is_image] accepts are exactly the regular files whose
    name is a non-empty stem followed by [.jpg], [.jpeg] or [.png] in any
    letter case.  (A file named just [.png] has no stem and is refused.) *)
Theorem is_image_iff_stem_and_extension :
  ∀ (w : World) (p : Path.t),
    is_image w p = true ↔
    FS.is_file w p = true
    ∧ ∃ stem ext, Path.name p = (stem ++ ext)%string
                  ∧ Str.nonempty stem = true
                  ∧ In (Str.lower ext) SUPPORTED_EXTS.
Proof.
  intros w p. unfold is_image. rewrite andb_true_iff, SuffixFacts.in_supported.
  split; intros [Hfile H]; (split; [exact Hfile|]).
  - destruct (SuffixFacts.supported_ext _ H) as (e' & Hlow & _ & _).
    unfold Path.suffix in *.
    destruct (Path.name p) as [|c rest]; [discriminate|].
    destruct (Path.from_last_dot rest) as [x|] eqn:Hx; [|discriminate].
    destruct (SuffixFacts.from_last_dot_some rest x Hx) as (pre & e & -> & -> & _).
    destruct (String.eqb (String "." e) "."); [discriminate|].
    exists (String c pre), (String "."%char e). auto.
  - destruct H as (stem & ext & Hname & Hstem & Hext).
    now rewrite (SuffixFacts.suffix_of_stem_ext p stem ext Hname Hstem Hext).
Qed.

(* ===================================================================== *)
(** * The order of the system calls *)
(* ===================================================================== *)

(** X10. The system calls of [convert_images_to_pdf] on a non-empty list.
    When it returns they are, in this order: [mkdir] calls, the opening of
    the output file, one read per image in input order, and one write to
    the output file.  When it raises, no write was made, unless it is the
    write that fails: then the device refuses the write, the exception is
    [OSError], and the calls are those of a run that returns.  Where the
    device takes the write, a run that raises makes no write. *)
Theorem assemble_writes_last_and_only_on_success :
  ∀ (image_paths : list Path.t) (output_pdf : Path.t) (w : World) (r : Res unit) (w' : World),
    image_paths ≠ [] →
    convert_images_to_pdf image_paths output_pdf w = (r, w') →
    ∃ evs, calls_between w w' evs
           ∧ match r with
             | Ok _ => ∃ dirs, evs = List.map EvMkdir dirs
                                     ++ EvOpenWrite output_pdf
                                        :: List.map EvOpenRead image_paths
                                     ++ [EvWrite output_pdf]
             | Raise e =>
                 (∀ q, EvWrite q ∉ evs)
                 ∨ (e = OSError
                    ∧ write_faults w !! output_pdf ≠ None
                    ∧ ∃ dirs, evs = List.map EvMkdir dirs
                                    ++ EvOpenWrite output_pdf
                                       :: List.map EvOpenRead image_paths
                                    ++ [EvWrite output_pdf])
             end
           ∧ (accepts_write w output_pdf → returned r = false → ∀ q, EvWrite q ∉ evs).
Proof.
  intros imgs out w r w' Hne Hrun.
  destruct (LogFacts.assemble_calls imgs out w r w' Hne Hrun) as (dirs & evs & Hcalls & Hevs).
  assert (Hnw : ∀ q ds, EvWrite q ∉ List.map EvMkdir ds).
  { intros q ds H. apply list_elem_of_fmap in H as (d & H & _). discriminate H. }
  assert (Hnr : ∀ q ps, EvWrite q ∉ List.map EvOpenRead ps).
  { intros q ps H. apply list_elem_of_fmap in H as (d & H & _). discriminate H. }
  assert (Hquiet : (evs = [] ∨ ∃ n, evs = EvOpenWrite out :: List.map EvOpenRead (firstn n imgs))
                   → ∀ q, EvWrite q ∉ List.map EvMkdir dirs ++ evs).
  { intros Hevs' q H. apply elem_of_app in H as [H|H]; [now apply (Hnw q dirs)|].
    destruct Hevs' as [-> | (n & ->)]; [inversion H|].
    apply elem_of_cons in H as [H|H]; [discriminate H|]. now apply (Hnr q (firstn n imgs)). }
  exists (List.map EvMkdir dirs ++ evs). split; [exact Hcalls|].
  destruct r as [[]|e].
  - split; [|discriminate]. exists dirs. now rewrite Hevs.
  - destruct Hevs as [Hevs | (-> & Hfault & ->)].
    + split; [left; now apply Hquiet|]. intros _ _. now apply Hquiet.
    + split; [right; eauto|]. intros Hacc. now destruct Hfault.
Qed.

Lemma assemble_writes_last_and_only_on_success_witness :
  let image_paths := [["in"; "A.jpg"]; ["in"; "B.png"]] in
  let output_pdf := ["in"; "result"; "new.pdf"] in
  let run := convert_images_to_pdf image_paths output_pdf world_with_full_disk in
  ∃ evs, calls_between world_with_full_disk (snd run) evs
         ∧ ((∀ q, EvWrite q ∉ evs)
            ∨ (OSError = OSError
               ∧ write_faults world_with_full_disk !! output_pdf ≠ None
               ∧ ∃ dirs, evs = List.map EvMkdir dirs
                               ++ EvOpenWrite output_pdf
                                  :: List.map EvOpenRead image_paths
                               ++ [EvWrite output_pdf]))
         ∧ (accepts_write world_with_full_disk output_pdf → false = false →
            ∀ q, EvWrite q ∉ evs).
Proof.
  intros image_paths output_pdf run.
  assert (Hne : image_paths ≠ []) by discriminate.
  assert (Hrun : convert_images_to_pdf image_paths output_pdf world_with_full_disk
                 = (Raise OSError, snd run)) by (vm_compute; reflexivity).
  exact (assemble_writes_last_and_only_on_success image_paths output_pdf
           world_with_full_disk (Raise OSError) (snd run) Hne Hrun).
Defined.



(** X12. An output path that is one of the inputs: the call never returns;
    and when that input is a regular file below directories only, the call
    empties it before it fails. *)
Theorem assemble_onto_an_input_fails :
  ∀ (image_paths : list Path.t) (output_pdf : Path.t) (w : World) (r : Res unit) (w' : World),
    output_pdf ∈ image_paths →
    convert_images_to_pdf image_paths output_pdf w = (r, w') →
    (∃ e, r = Raise e)
    ∧ (FS.is_file w output_pdf = true →
       no_file_on_the_way w (Path.parent output_pdf) →
       FS.stat w' output_pdf = Some (File empty_file)).
Proof.
  intros imgs out w r w' Hin Hrun.
  assert (Hne : imgs ≠ []) by (intros ->; inversion Hin).
  rewrite AssemblerFacts.convert_images_to_pdf_unfold in Hrun by exact Hne.
  unfold Sys.mkdir_parents in Hrun.
  destruct (SysFacts.mkdir_parents_rev_spec (rev (Path.parent out)) w)
    as (r1 & w1 & Hrun1 & Hg & Hdir & Hok1).
  rewrite rev_involutive in Hg, Hdir, Hok1. rewrite Hrun1 in Hrun.
  pose proof (AssemblerFacts.grows_at_output out w w1 Hg) as Hout1.
  destruct r1 as [[]|e1].
  2:{ injection Hrun as <- <-. split; [eauto|].
      intros _ Hway. specialize (Hok1 Hway). discriminate Hok1. }
  destruct (AssemblerFacts.open_wb_result out w1) as (r2 & w2 & Hrun2 & Hres2 & Hok2).
  rewrite Hrun2 in Hrun.
  destruct r2 as [[]|e2].
  2:{ injection Hrun as <- <-. split; [eauto|].
      intros Hfile _. unfold FS.is_file, FS.is_dir in *. rewrite Hout1 in Hok2.
      destruct (FS.stat w out) as [[|d]|]; try discriminate Hfile.
      specialize (Hok2 eq_refl (Hdir eq_refl)). discriminate Hok2. }
  destruct Hres2 as (Hroot & _ & Hn2).
  pose proof (AssemblerFacts.stat_of_nodes_insert w1 w2 out out _ Hn2 Hroot) as Hstat2.
  rewrite decide_True in Hstat2 by reflexivity.
  rewrite AssemblerFacts.convert_unfold in Hrun.
  destruct (AssemblerFacts.pages_spec imgs w2) as (r3 & w3 & Hrun3 & Hn3 & Hpages & _).
  rewrite Hrun3 in Hrun.
  destruct r3 as [pages|e3].
  - exfalso. specialize (Hpages pages eq_refl).
    apply list_elem_of_lookup in Hin as (i & Hi).
    destruct (Forall2_lookup_l _ _ _ _ _ Hpages Hi) as (pg & _ & (ras & Hras & _)).
    rewrite Hstat2 in Hras. discriminate Hras.
  - injection Hrun as <- <-. split; [eauto|]. intros _ _.
    now rewrite (SysFacts.stat_nodes w2 w3 out Hn3).
Qed.

Lemma assemble_onto_an_input_fails_witness :
  let image_paths := [["in"; "A.jpg"]; ["in"; "B.png"]] in
  let output_pdf := ["in"; "A.jpg"] in
  let run := convert_images_to_pdf image_paths output_pdf example_world in
  (∃ e, Raise ImageOpenError = Raise (A := unit) e)
  ∧ (FS.is_file example_world output_pdf = true →
     no_file_on_the_way example_world (Path.parent output_pdf) →
     FS.stat (snd run) output_pdf = Some (File empty_file)).
Proof.
  intros image_paths output_pdf run.
  assert (Hin : output_pdf ∈ image_paths) by apply list_elem_of_here.
  assert (Hrun : convert_images_to_pdf image_paths output_pdf example_world
                 = (Raise ImageOpenError, snd run)) by (vm_compute; reflexivity).
  exact (assemble_onto_an_input_fails image_paths output_pdf example_world
           (Raise ImageOpenError) (snd run) Hin Hrun).
Defined.


Module AuditMore.

Lemma audit_round_world (acc : list string) (p : Path.t) (w : World) :
  snd (Sys.try_except (audit_one acc p) (λ _, Some (mret acc)) w) = logged w (EvOpenRead p).
Proof. now rewrite AuditFacts.audit_round. Qed.

Lemma warn_loop_calls (ps : list Path.t) :
  ∀ acc w, calls_between w (snd (warn_loop acc ps w)) (List.map EvOpenRead ps).
Proof.
  induction ps as [|p ps IH]; intros acc w; simpl.
  - apply LogFacts.calls_refl.
  - rewrite io_bind_unfold, AuditFacts.audit_round.
    change (EvOpenRead p :: List.map EvOpenRead ps)
      with ([EvOpenRead p] ++ List.map EvOpenRead ps).
    eapply LogFacts.calls_trans; [|apply IH]. reflexivity.
Qed.

End AuditMore.

(** X14. [warn_huge_images] opens every path once, in input order, and makes
    no other call; and the warnings for a list made of two parts are the
    warnings for the first part followed by those for the second. *)
Theorem size_audit_reads_each_image_once :
  ∀ (a b : list Path.t) (w : World),
    calls_between w (snd (warn_huge_images (a ++ b) w)) (List.map EvOpenRead (a ++ b))
    ∧ ∃ wa wb, fst (warn_huge_images a w) = Ok wa
               ∧ fst (warn_huge_images b w) = Ok wb
               ∧ fst (warn_huge_images (a ++ b) w) = Ok (wa ++ wb).
Proof.
  intros a b w. split; [apply AuditMore.warn_loop_calls|].
  unfold warn_huge_images.
  destruct (AuditFacts.warn_loop_spec a [] w) as (w1 & -> & _).
  destruct (AuditFacts.warn_loop_spec b [] w) as (w2 & -> & _).
  destruct (AuditFacts.warn_loop_spec (a ++ b) [] w) as (w3 & -> & _).
  simpl. eexists _, _. split; [reflexivity|]. split; [reflexivity|].
  now rewrite omap_app.
Qed.

(* ===================================================================== *)
(** * Selections *)
(* ===================================================================== *)

Module SelectionFacts.

Lemma is_image_ext (w : World) (p : Path.t) : is_image w p = true → has_image_ext p = true.
Proof. unfold is_image. intros H. now apply andb_true_iff in H as [_ H]. Qed.

Lemma is_image_file (w : World) (p : Path.t) : is_image w p = true → FS.is_file w p = true.
Proof. unfold is_image. intros H. now apply andb_true_iff in H as [H _]. Qed.

Lemma is_image_exists (w : World) (p : Path.t) :
  FS.exists_ w p && is_image w p = is_image w p.
Proof.
  unfold is_image, FS.exists_, FS.is_file.
  destruct (FS.stat w p) as [[|d]|]; reflexivity.
Qed.

Lemma consistent_select (st : SelectionState) (app : App) :
  Forall (λ p, has_image_ext p = true) (default [] (images st)) →
  consistent (select st app).
Proof. intros H. split; [reflexivity|exact H]. Qed.

Lemma consistent_showwarning (a : advisory) (app : App) :
  consistent app → consistent (showwarning a app).
Proof. intros H. exact H. Qed.

(** The images a file selection starts from. *)
Lemma chosen_images_ext (w : World) (ps imgs : list Path.t) :
  Permutation imgs (List.filter (is_image w) ps) →
  Forall (λ p, is_image w p = true) imgs.
Proof.
  intros Hperm. rewrite Hperm. apply Forall_forall. intros p Hp.
  apply list_elem_of_In, filter_In in Hp. tauto.
Qed.

(** What [self.state = SelectionState("files", ...)] is computed from:
    either a name without key stops it, or the images come back sorted
    with their common directory. *)
Lemma files_selection_outcome (w : World) (ps : list Path.t) :
  List.filter (is_image w) ps ≠ [] →
  Forall (λ p, well_formed p = true) ps →
  (∃ p, p ∈ ps ∧ is_image w p = true ∧ natural_key p = Raise ValueError
        ∧ Natural.sort_by natural_key (List.filter (is_image w) ps) = Raise ValueError)
  ∨ (∃ imgs src,
       Natural.sort_by natural_key (List.filter (is_image w) ps) = Ok imgs
       ∧ common_parent w imgs = Ok src
       ∧ Permutation imgs (List.filter (is_image w) ps)
       ∧ StronglySorted (λ a b, ¬ path_lt b a) imgs
       ∧ (∀ p, p ∈ imgs → src `prefix_of` containing_dir w (resolve p))
       ∧ (∀ q, (∀ p, p ∈ imgs → q `prefix_of` containing_dir w (resolve p))
               → q `prefix_of` src)
       ∧ (Forall (λ p, ".." ∉ p) imgs →
          (∀ p, p ∈ imgs → src `prefix_of` Path.parent p)
          ∧ (∀ q, (∀ p, p ∈ imgs → q `prefix_of` Path.parent p) → q `prefix_of` src))).
Proof.
  intros Hne Hwf.
  destruct (FolderFacts.sort_by_outcome Natural.natural_key FolderFacts.natural_key_shape
              FolderFacts.natural_key_error (List.filter (is_image w) ps))
    as [(imgs & Hs & Hperm & Hsorted & _) | (Hs & Hex)].
  - right.
    pose proof (chosen_images_ext w ps imgs Hperm) as Himgs.
    assert (Hne' : imgs ≠ []).
    { intros ->. apply Permutation_nil in Hperm. congruence. }
    assert (Hwf' : Forall (λ p, well_formed p = true) imgs).
    { rewrite Hperm. apply Forall_forall. intros p Hp.
      apply list_elem_of_In, filter_In in Hp as [Hp _].
      rewrite Forall_forall in Hwf. apply Hwf. now apply list_elem_of_In. }
    destruct (PathFacts.common_parent_spec w imgs Hne' Hwf') as (src & Hsrc & Hpre & Hmax).
    exists imgs, src. split; [exact Hs|]. split; [exact Hsrc|]. split; [exact Hperm|].
    split; [eapply FolderFacts.StronglySorted_impl; [|exact Hsorted];
            apply FolderFacts.in_order_path|].
    split; [exact Hpre|]. split; [exact Hmax|].
    intros Hplain.
    assert (Hdir : ∀ p, p ∈ imgs → containing_dir w (resolve p) = Path.parent p).
    { intros p Hp. rewrite Forall_forall in Hplain.
      rewrite (PathFacts.resolve_plain p (Hplain p Hp)).
      unfold containing_dir. rewrite Forall_forall in Himgs.
      now rewrite (is_image_file w p (Himgs p Hp)). }
    split.
    + intros p Hp. rewrite <- (Hdir p Hp). now apply Hpre.
    + intros q Hq. apply Hmax. intros p Hp. rewrite (Hdir p Hp). now apply Hq.
  - left. apply Exists_exists in Hex as (p & Hp & Hkey).
    apply list_elem_of_In, filter_In in Hp as [Hp Himg].
    exists p. split; [now apply list_elem_of_In|]. auto.
Qed.

Lemma sort_by_ok_perm (l imgs : list Path.t) :
  Natural.sort_by natural_key l = Ok imgs → Permutation imgs l.
Proof.
  intros H.
  destruct (FolderFacts.sort_by_outcome Natural.natural_key FolderFacts.natural_key_shape
              FolderFacts.natural_key_error l) as [(imgs' & Hs & Hperm & _) | (Hs & _)].
  - unfold natural_key in H. rewrite H in Hs. now injection Hs as <-.
  - unfold natural_key in H. rewrite H in Hs. discriminate Hs.
Qed.

Lemma listing_ext (w : World) (folder : Path.t) (recursive : bool) (imgs : list Path.t) :
  list_images_in_folder w folder recursive = Ok imgs →
  Forall (λ p, has_image_ext p = true) imgs.
Proof.
  intros H. apply sort_by_ok_perm in H. rewrite H.
  apply Forall_forall. intros p Hp.
  apply list_elem_of_In, filter_In in Hp as [_ Hp]. now apply (is_image_ext w).
Qed.

Lemma filter_is_image_exists (w : World) (ps : list Path.t) :
  List.filter (λ p, FS.exists_ w p && is_image w p) ps = List.filter (is_image w) ps.
Proof. apply List.filter_ext. intros p. apply is_image_exists. Qed.

Lemma is_nil_false {A} (l : list A) : l ≠ [] → is_nil l = false.
Proof. destruct l; [congruence|reflexivity]. Qed.

Lemma map_nonempty {A B} (f : A → B) (l : list A) : List.map f l ≠ [] → l ≠ [].
Proof. destruct l; simpl; [auto|discriminate]. Qed.

Lemma filter_nonempty {A} (f : A → bool) (l : list A) : List.filter f l ≠ [] → l ≠ [].
Proof. destruct l; simpl; [auto|discriminate]. Qed.

Lemma dropped_well_formed (ss : list string) :
  Forall (λ p, well_formed p = true) (List.map Path.of_string ss).
Proof. apply Forall_map, Forall_forall. intros s _. apply PathMore.of_string_well_formed. Qed.

End SelectionFacts.

(** X15. [pick_files] on paths of which at least one is an image: either
    the name of one of the images has no key, and [pick_files] raises
    [ValueError]; or it returns with the selection replaced by mode
    ["files"], the images being those among the paths, each as often as it
    was given, in natural order, and the source being the deepest directory
    that holds them all, each image being taken as [resolve] gives it (its
    parent if that is a file, else itself).  For images whose paths have no
    ['..'] the source is the deepest directory that starts every parent.
    Nothing is shown. *)
Theorem pick_files_selects_sorted_images_and_their_directory :
  ∀ (filepaths : list string) (w : World) (app : App),
    List.filter (is_image w) (List.map Path.of_string filepaths) ≠ [] →
    (∃ p, p ∈ List.map Path.of_string filepaths ∧ is_image w p = true
          ∧ natural_key p = Raise ValueError
          ∧ pick_files filepaths w app = Raise ValueError)
    ∨ (∃ app' imgs src,
         pick_files filepaths w app = Ok app'
         ∧ state app' = MkSelection "files" (Some src) (Some imgs)
         ∧ shown app' = shown app
         ∧ Permutation imgs (List.filter (is_image w) (List.map Path.of_string filepaths))
         ∧ StronglySorted (λ a b, ¬ path_lt b a) imgs
         ∧ (∀ p, p ∈ imgs → src `prefix_of` containing_dir w (resolve p))
         ∧ (∀ q, (∀ p, p ∈ imgs → q `prefix_of` containing_dir w (resolve p))
                 → q `prefix_of` src)
         ∧ (Forall (λ p, ".." ∉ p) imgs →
            (∀ p, p ∈ imgs → src `prefix_of` Path.parent p)
            ∧ (∀ q, (∀ p, p ∈ imgs → q `prefix_of` Path.parent p) → q `prefix_of` src))).
Proof.
  intros filepaths w app Hne.
  pose proof (SelectionFacts.map_nonempty _ _ (SelectionFacts.filter_nonempty _ _ Hne)) as Hne'.
  unfold pick_files.
  rewrite (SelectionFacts.is_nil_false _ Hne'), (SelectionFacts.is_nil_false _ Hne).
  destruct (SelectionFacts.files_selection_outcome w (List.map Path.of_string filepaths) Hne
              (SelectionFacts.dropped_well_formed filepaths))
    as [(p & Hp & Himg & Hkey & Hs) | (imgs & src & Hs & Hsrc & Hrest)].
  - left. exists p. rewrite Hs. auto.
  - right. rewrite Hs. simpl. rewrite Hsrc. simpl.
    eexists _, imgs, src. split; [reflexivity|]. split; [reflexivity|].
    split; [reflexivity|exact Hrest].
Qed.

Lemma pick_files_selects_sorted_images_and_their_directory_witness :
  let filepaths := ["/in/B.png"; "/in/notes.txt"; "/in/A.jpg"] in
  pick_files filepaths example_world init_app = Ok app_with_selection
  ∧ ((∃ p, p ∈ List.map Path.of_string filepaths ∧ is_image example_world p = true
           ∧ natural_key p = Raise ValueError
           ∧ pick_files filepaths example_world init_app = Raise ValueError)
     ∨ (∃ app' imgs src,
          pick_files filepaths example_world init_app = Ok app'
          ∧ state app' = MkSelection "files" (Some src) (Some imgs)
          ∧ shown app' = shown init_app
          ∧ Permutation imgs (List.filter (is_image example_world)
                                (List.map Path.of_string filepaths))
          ∧ StronglySorted (λ a b, ¬ path_lt b a) imgs
          ∧ (∀ p, p ∈ imgs → src `prefix_of` containing_dir example_world (resolve p))
          ∧ (∀ q, (∀ p, p ∈ imgs → q `prefix_of` containing_dir example_world (resolve p))
                  → q `prefix_of` src)
          ∧ (Forall (λ p, ".." ∉ p) imgs →
             (∀ p, p ∈ imgs → src `prefix_of` Path.parent p)
             ∧ (∀ q, (∀ p, p ∈ imgs → q `prefix_of` Path.parent p)
                     → q `prefix_of` src)))).
Proof.
  intros filepaths.
  assert (Hne : List.filter (is_image example_world) (List.map Path.of_string filepaths) ≠ [])
    by (vm_compute; discriminate).
  split; [vm_compute; reflexivity|].
  exact (pick_files_selects_sorted_images_and_their_directory filepaths example_world
           init_app Hne).
Defined.

(** X16. A drop that names no directory and at least one image does what
    [pick_files] does with the dropped paths. *)
Theorem dropping_files_is_picking_them :
  ∀ (raw : string) (w : World) (app : App),
    Forall (λ p, FS.is_dir w p = false) (dropped_paths raw) →
    List.filter (is_image w) (dropped_paths raw) ≠ [] →
    on_drop raw w app = pick_files (Drop.tokenize raw) w app.
Proof.
  intros raw w app Hdirs Hne.
  pose proof (SelectionFacts.map_nonempty _ _ (SelectionFacts.filter_nonempty _ _ Hne)) as Htok.
  assert (Hraw : Str.nonempty raw = true).
  { destruct raw; [now destruct Htok|reflexivity]. }
  unfold on_drop, pick_files. rewrite Hraw. simpl negb. cbv iota.
  fold (dropped_paths raw).
  rewrite HandlerFacts.filter_none.
  2:{ eapply Forall_impl; [exact Hdirs|]. intros p Hp. simpl.
      now rewrite HandlerFacts.is_dir_exists. }
  rewrite SelectionFacts.filter_is_image_exists.
  rewrite (SelectionFacts.is_nil_false _ Htok).
  unfold dropped_paths in *.
  now rewrite (SelectionFacts.is_nil_false _ Hne).
Qed.

Lemma dropping_files_is_picking_them_witness :
  let raw := "/in/B.png {/in/A.jpg}" in
  on_drop raw example_world init_app = pick_files ["/in/B.png"; "/in/A.jpg"] example_world init_app.
Proof.
  intros raw.
  assert (Hdirs : Forall (λ p, FS.is_dir example_world p = false) (dropped_paths raw))
    by (repeat constructor).
  assert (Hne : List.filter (is_image example_world) (dropped_paths raw) ≠ [])
    by (vm_compute; discriminate).
  exact (dropping_files_is_picking_them raw example_world init_app Hdirs Hne).
Defined.

(** X17. Dropping a folder selects what picking it selects: when [on_drop]
    returns after routing a directory, [pick_folder] on that directory
    returns too, with the same selection and the same screen. *)
Theorem dropping_a_folder_is_picking_it :
  ∀ (raw : string) (w : World) (app app1 : App) (before after : list Path.t) (folder : Path.t),
    dropped_paths raw = before ++ folder :: after →
    Forall (λ p, FS.is_dir w p = false) before →
    FS.is_dir w folder = true →
    on_drop raw w app = Ok app1 →
    ∃ app2, pick_folder (Path.to_string folder) w app = Ok app2
            ∧ state app2 = state app1
            ∧ view app2 = view app1.
Proof.
  intros raw w app app1 before after folder Hsplit Hbefore Hdir Hdrop.
  rewrite (HandlerFacts.on_drop_folder raw w app before after folder Hsplit Hbefore Hdir) in Hdrop.
  assert (Hwf : well_formed folder = true).
  { pose proof (SelectionFacts.dropped_well_formed (Drop.tokenize raw)) as H.
    fold (dropped_paths raw) in H. rewrite Hsplit in H.
    apply Forall_app in H as [_ H]. now apply Forall_cons in H as [H _]. }
  unfold pick_folder. change (Str.nonempty (Path.to_string folder)) with true.
  simpl negb. cbv iota. rewrite (PathFacts.of_to_string folder Hwf).
  unfold route_folder in Hdrop.
  destruct (list_images_in_folder w folder (recursive_var app)) as [imgs|e]; simpl in *;
    [|discriminate].
  injection Hdrop as <-. eexists. split; [reflexivity|].
  destruct (is_nil imgs); split; reflexivity.
Qed.

Lemma dropping_a_folder_is_picking_it_witness :
  let raw := "/in/A.jpg {/in} /in/B.png /in/result" in
  let app1 := select (MkSelection "folder" (Some ["in"])
                        (Some [["in"; "A.jpg"]; ["in"; "B.png"]; ["in"; "broken.png"]]))
                     init_app in
  ∃ app2, pick_folder "/in" example_world init_app = Ok app2
          ∧ state app2 = state app1
          ∧ view app2 = view app1.
Proof.
  intros raw app1.
  assert (H1 : dropped_paths raw
               = [["in"; "A.jpg"]] ++ ["in"] :: [["in"; "B.png"]; ["in"; "result"]])
    by reflexivity.
  assert (H2 : Forall (λ p, FS.is_dir example_world p = false) [["in"; "A.jpg"]])
    by (repeat constructor).
  assert (H3 : FS.is_dir example_world ["in"] = true) by reflexivity.
  assert (H4 : on_drop raw example_world init_app = Ok app1) by (vm_compute; reflexivity).
  exact (dropping_a_folder_is_picking_it raw example_world init_app app1 _ _ _ H1 H2 H3 H4).
Defined.

(* ===================================================================== *)
(** * Merging *)
(* ===================================================================== *)

Module MergeFacts.

Lemma string_of_uint_plain (d : Decimal.uint) :
  Str.all plain_char (DecimalString.NilZero.string_of_uint d) = true.
Proof.
  unfold DecimalString.NilZero.string_of_uint.
  destruct d; try reflexivity; simpl;
    (induction d; simpl; [reflexivity|assumption..]).
Qed.

Lemma str_of_int_plain (n : Z) : Str.all plain_char (str_of_int n) = true.
Proof.
  unfold str_of_int, DecimalString.NilZero.string_of_int.
  destruct (Z.to_int n) as [d|d].
  - apply string_of_uint_plain.
  - simpl. apply string_of_uint_plain.
Qed.

Lemma pad2_plain (n : Z) : Str.all plain_char (pad2 n) = true.
Proof.
  unfold pad2. destruct (n <? 10)%Z; [simpl|]; apply str_of_int_plain.
Qed.

Lemma stamp_plain (t : datetime) : Str.all plain_char (strftime_stamp t) = true.
Proof.
  unfold strftime_stamp.
  repeat (rewrite all_append; apply andb_true_iff; split);
    try apply pad2_plain; try apply str_of_int_plain; reflexivity.
Qed.

Lemma plain_sep_free (s : string) : Str.all plain_char s = true → sep_free s = true.
Proof.
  unfold sep_free. induction s as [|c s IH]; simpl; [reflexivity|].
  intros H. apply andb_true_iff in H as [Hc Hs].
  apply andb_true_iff in Hc as [Hc _]. now rewrite Hc, IH.
Qed.

Lemma output_name_component (t : datetime) :
  Path.of_string ("merged_" ++ strftime_stamp t ++ ".pdf")
  = [("merged_" ++ strftime_stamp t ++ ".pdf")%string].
Proof.
  unfold Path.of_string.
  rewrite PathFacts.split_sep_plain.
  - reflexivity.
  - pose proof (plain_sep_free _ (stamp_plain t)) as H.
    unfold sep_free in *. simpl. now rewrite all_append, H.
Qed.

Lemma output_target_split (now : datetime) (app : App) (src : Path.t) :
  output_target now app src
  = match custom_output_dir app with Some d => d | None => src ++ ["result"] end
    ++ [("merged_" ++ strftime_stamp now ++ ".pdf")%string].
Proof.
  unfold output_target, joinpath at 1. simpl PosixPath.starts_with_sep. cbv iota.
  rewrite output_name_component. f_equal.
Qed.

Lemma output_suffix (now : datetime) (app : App) (src : Path.t) :
  Path.suffix (output_target now app src) = ".pdf".
Proof.
  rewrite output_target_split. unfold Path.suffix, Path.name. rewrite last_last.
  simpl.
  rewrite (SuffixFacts.from_last_dot_app (strftime_stamp now) "pdf") by reflexivity.
  reflexivity.
Qed.

Lemma output_not_image (now : datetime) (app : App) (src : Path.t) :
  has_image_ext (output_target now app src) = false.
Proof. unfold has_image_ext. now rewrite output_suffix. Qed.



(** Everything [merge_to_pdf] can do with a selection. *)
Lemma merge_run (now : datetime) (app : App) (w : World) (src : Path.t) (imgs : list Path.t) :
  source (state app) = Some src → images (state app) = Some imgs → imgs ≠ [] →
  ∃ r w1 w',
    (nodes w1 = nodes w ∧ write_faults w1 = write_faults w)
    ∧ convert_images_to_pdf imgs (output_target now app src) w1 = (r, w')
    ∧ merge_to_pdf now app w
      = (huge_images_info (omap (flagged w) imgs)
         ++ [UiProgressStart; UiProgressStop;
             match r with
             | Ok _ => UiSuccess (output_target now app src)
             | Raise e => UiError e
             end], w').
Proof.
  intros Hsrc Himgs Hne. unfold merge_to_pdf. rewrite Hsrc, Himgs.
  destruct imgs as [|i imgs]; [congruence|].
  destruct (AuditFacts.warn_loop_spec (i :: imgs) [] w) as (w1 & Hw & Hn).
  pose proof (AuditFacts.warn_loop_faults (i :: imgs) [] w) as Hf.
  rewrite Hw in Hf. simpl in Hf.
  change (warn_loop [] (i :: imgs) w) with (warn_huge_images (i :: imgs) w) in Hw.
  cbv beta iota zeta. rewrite Hw, app_nil_l.
  destruct (convert_images_to_pdf (i :: imgs) (output_target now app src) w1) as [r w'] eqn:Hc.
  exists r, w1, w'. split; [now split|]. split; [exact Hc|].
  destruct r as [[]|e]; reflexivity.
Qed.

End MergeFacts.

(** X18. The path [merge_to_pdf] writes to: its name is [merged_], the
    timestamp and [.pdf]; it lies in the output folder that was picked, or
    else in [result] under the source; its suffix is [.pdf], so that no
    listing and no selection ever takes it for an image. *)
Theorem merge_output_path_is_a_pdf_in_the_output_folder :
  ∀ (now : datetime) (app : App) (src : Path.t),
    Path.name (output_target now app src)
    = ("merged_" ++ strftime_stamp now ++ ".pdf")%string
    ∧ Path.parent (output_target now app src)
      = match custom_output_dir app with Some d => d | None => src ++ ["result"] end
    ∧ Path.suffix (output_target now app src) = ".pdf"
    ∧ ∀ w, is_image w (output_target now app src) = false.
Proof.
  intros now app src. split; [|split; [|split]].
  - rewrite MergeFacts.output_target_split. apply last_last.
  - rewrite MergeFacts.output_target_split. apply removelast_last.
  - apply MergeFacts.output_suffix.
  - intros w. destruct (is_image w (output_target now app src)) eqn:H; [|reflexivity].
    apply SelectionFacts.is_image_ext in H.
    now rewrite MergeFacts.output_not_image in H.
Qed.

(** X19. Every handler keeps the screen in step with the selection: when the
    application is consistent and a handler returns, it is consistent
    again. *)
Theorem handlers_keep_the_view_in_step :
  ∀ (a : action) (w : World) (app app' : App),
    consistent app → handle a w app = Ok app' → consistent app'.
Proof.
  assert (Hfolder : ∀ w folder recursive a app app',
            (images ← list_images_in_folder w folder recursive;
             mret (if is_nil images
                   then showwarning a (select (MkSelection "folder" (Some folder) (Some images)) app)
                   else select (MkSelection "folder" (Some folder) (Some images)) app))
            = Ok app' → consistent app').
  { intros w folder recursive a app app'.
    destruct (list_images_in_folder w folder recursive) as [imgs|e] eqn:Hl; simpl;
      [|discriminate].
    intros [= <-]. pose proof (SelectionFacts.listing_ext w folder recursive imgs Hl) as Hext.
    destruct (is_nil imgs); [apply SelectionFacts.consistent_showwarning|];
      now apply SelectionFacts.consistent_select. }
  assert (Hfiles : ∀ w (f : Path.t → bool) ps app app',
            (∀ p, f p = true → is_image w p = true) →
            (files ← Natural.sort_by natural_key (List.filter f ps);
             src ← common_parent w files;
             mret (select (MkSelection "files" (Some src) (Some files)) app))
            = Ok app' → consistent app').
  { intros w f ps app app' Hf.
    destruct (Natural.sort_by natural_key (List.filter f ps)) as [imgs|e] eqn:Hs; simpl;
      [|discriminate].
    destruct (common_parent w imgs) as [src|e]; simpl; [|discriminate].
    intros [= <-]. apply SelectionFacts.consistent_select. simpl.
    apply SelectionFacts.sort_by_ok_perm in Hs. rewrite Hs.
    apply Forall_forall. intros p Hp.
    apply list_elem_of_In, filter_In in Hp as [_ Hp].
    apply (SelectionFacts.is_image_ext w). now apply Hf. }
  intros [folder|filepaths|raw|folder] w app app' Hc; simpl.
  - unfold pick_folder.
    destruct (Str.nonempty folder); simpl; [|now intros [= <-]].
    apply Hfolder.
  - unfold pick_files.
    destruct (is_nil filepaths); [now intros [= <-]|].
    destruct (is_nil (List.filter _ _)); [intros [= <-]|].
    + now apply SelectionFacts.consistent_showwarning.
    + apply Hfiles. auto.
  - unfold on_drop.
    destruct (Str.nonempty raw); simpl; [|now intros [= <-]].
    destruct (List.filter _ (List.map Path.of_string (Drop.tokenize raw))) as [|folder rest].
    + destruct (is_nil (List.filter _ _)); [intros [= <-]|].
      * now apply SelectionFacts.consistent_showwarning.
      * apply Hfiles. intros p Hp. now apply andb_true_iff in Hp as [_ Hp].
    + apply Hfolder.
  - intros [= <-]. unfold pick_output_folder.
    destruct (Str.nonempty folder); exact Hc.
Qed.

Lemma handlers_keep_the_view_in_step_witness :
  consistent (select (MkSelection "folder" (Some ["in"])
                        (Some [["in"; "A.jpg"]; ["in"; "B.png"]; ["in"; "broken.png"]]))
                     init_app).
Proof.
  assert (H0 : consistent init_app) by (split; [reflexivity|constructor]).
  assert (H1 : handle (PickFolder "/in") example_world init_app
               = Ok (select (MkSelection "folder" (Some ["in"])
                               (Some [["in"; "A.jpg"]; ["in"; "B.png"]; ["in"; "broken.png"]]))
                            init_app)) by (vm_compute; reflexivity).
  exact (handlers_keep_the_view_in_step (PickFolder "/in") example_world init_app _ H0 H1).
Defined.

(** X20. [merge_to_pdf] refuses exactly when the screen shows nothing to
    merge: with a consistent application, the warning that nothing is
    selected is all it shows if and only if the screen has no source or
    counts zero images, and then no file is touched and no call is made. *)
Theorem merge_refuses_exactly_when_the_view_is_empty :
  ∀ (now : datetime) (app : App) (w : World),
    consistent app →
    (shows_nothing (view app) = true ↔ fst (merge_to_pdf now app w) = [UiNothingSelected])
    ∧ (shows_nothing (view app) = true → snd (merge_to_pdf now app w) = w).
Proof.
  intros now app w [Hview _]. rewrite Hview. unfold view_of, shows_nothing. simpl.
  destruct (source (state app)) as [src|] eqn:Hsrc.
  2:{ unfold merge_to_pdf. rewrite Hsrc. split; [split|]; reflexivity. }
  destruct (images (state app)) as [[|i imgs]|] eqn:Himgs.
  - unfold merge_to_pdf. rewrite Hsrc, Himgs. split; [split|]; reflexivity.
  - destruct (MergeFacts.merge_run now app w src (i :: imgs) Hsrc Himgs)
      as (r & w1 & w' & _ & _ & Hm); [discriminate|].
    rewrite Hm. simpl length. simpl Nat.eqb. split; [split|]; try discriminate.
    simpl fst. intros H. apply (f_equal (@length ui_event)) in H.
    rewrite length_app in H. simpl in H. lia.
  - unfold merge_to_pdf. rewrite Hsrc, Himgs. split; [split|]; reflexivity.
Qed.

Lemma merge_refuses_exactly_when_the_view_is_empty_witness :
  (shows_nothing (view init_app) = true
   ↔ fst (merge_to_pdf example_clock init_app example_world) = [UiNothingSelected])
  ∧ (shows_nothing (view init_app) = true
     → snd (merge_to_pdf example_clock init_app example_world) = example_world).
Proof.
  assert (H0 : consistent init_app) by (split; [reflexivity|constructor]).
  exact (merge_refuses_exactly_when_the_view_is_empty example_clock init_app example_world H0).
Defined.





(* ===================================================================== *)
(** * What a run leaves on disk *)
(* ===================================================================== *)

Module FrameFacts.
Import SysFacts AssemblerFacts.

Lemma assemble_frame (imgs : list Path.t) (out : Path.t) (w : World) (r : Res unit) (w' : World) :
  imgs ≠ [] → convert_images_to_pdf imgs out w = (r, w') → touched_only_at out w w'.
Proof.
  intros Hne Hrun. rewrite convert_images_to_pdf_unfold in Hrun by assumption.
  unfold Sys.mkdir_parents in Hrun.
  destruct (mkdir_parents_rev_spec (rev (Path.parent out)) w)
    as (r1 & w1 & Hrun1 & Hg & _ & _).
  rewrite rev_involutive in Hg. rewrite Hrun1 in Hrun.
  pose proof (grows_at_output out w w1 Hg) as Hout1.
  destruct r1 as [[]|e1].
  2:{ injection Hrun as <- <-. split; [now left|]. intros q _. apply Hg. }
  destruct (open_wb_result out w1) as (r2 & w2 & Hrun2 & Hres2 & _).
  rewrite Hrun2 in Hrun.
  destruct r2 as [[]|e2].
  2:{ injection Hrun as <- <-. split.
      - left. now rewrite (stat_nodes w1 w2 out Hres2).
      - intros q _. rewrite (stat_nodes w1 w2 q Hres2). apply Hg. }
  destruct Hres2 as (Hroot & Hnd & Hn2).
  assert (Hstat2 : ∀ q, FS.stat w2 q = if decide (out = q) then Some (File empty_file)
                                       else FS.stat w1 q)
    by (intros q; now apply stat_of_nodes_insert).
  rewrite convert_unfold in Hrun.
  destruct (pages_spec imgs w2) as (r3 & w3 & Hrun3 & Hn3 & _ & _).
  rewrite Hrun3 in Hrun.
  assert (Hstat3 : ∀ q, FS.stat w3 q = FS.stat w2 q) by (intros q; now apply stat_nodes).
  rewrite Hout1 in Hnd.
  destruct r3 as [pages|e3].
  - rewrite write_spec in Hrun.
    destruct (write_faults w3 !! out) as [c|]; injection Hrun as <- <-; split;
      try (right; split; [exact Hnd|]; eexists; now apply stat_put_eq);
      intros q Hq;
      rewrite (stat_put_ne _ _ (io_log w3) _ (write_faults w3) out q) by congruence;
      (replace (MkWorld (nodes w3) (io_log w3) (write_faults w3)) with w3 by now destruct w3);
      rewrite Hstat3, Hstat2; rewrite decide_False by congruence; apply Hg.
  - injection Hrun as <- <-. split.
    + right. split; [exact Hnd|]. exists empty_file.
      rewrite Hstat3, Hstat2. now rewrite decide_True.
    + intros q Hq. rewrite Hstat3, Hstat2. rewrite decide_False by congruence. apply Hg.
Qed.

Lemma touched_is_dir (out : Path.t) (w w' : World) (q : Path.t) :
  touched_only_at out w w' → FS.is_dir w q = true → FS.is_dir w' q = true.
Proof.
  intros [Hout Hrest] Hd. apply is_dir_stat in Hd. apply is_dir_stat.
  destruct (decide (q = out)) as [-> | Hq].
  - destruct Hout as [E | [Hnd _]]; [now rewrite E|contradiction].
  - destruct (Hrest q Hq) as [E | (N & _)]; [now rewrite E|congruence].
Qed.

Lemma touched_is_file (out : Path.t) (w w' : World) (q : Path.t) :
  touched_only_at out w w' → q ≠ out → FS.is_file w' q = FS.is_file w q.
Proof.
  intros [_ Hrest] Hq. unfold FS.is_file.
  destruct (Hrest q Hq) as [E | (N & D & _)]; [now rewrite E|].
  now rewrite N, D.
Qed.

Lemma touched_is_image (out : Path.t) (w w' : World) (q : Path.t) :
  touched_only_at out w w' → has_image_ext out = false → is_image w' q = is_image w q.
Proof.
  intros Ht Hext. destruct (decide (q = out)) as [-> | Hq].
  - destruct (is_image w' out) eqn:H1.
    { apply SelectionFacts.is_image_ext in H1. congruence. }
    destruct (is_image w out) eqn:H2; [|reflexivity].
    apply SelectionFacts.is_image_ext in H2. congruence.
  - unfold is_image. now rewrite (touched_is_file out w w' q Ht Hq).
Qed.

Lemma touched_candidate (out : Path.t) (w w' : World) (folder : Path.t) (recursive : bool)
    (p : Path.t) :
  touched_only_at out w w' → has_image_ext out = false → FS.is_dir w folder = true →
  candidate w' folder recursive p ↔ candidate w folder recursive p.
Proof.
  intros Ht Hext Hd. unfold candidate.
  rewrite (touched_is_image out w w' p Ht Hext), Hd.
  rewrite (touched_is_dir out w w' folder Ht Hd). reflexivity.
Qed.

Lemma relisting (out : Path.t) (w w' : World) (folder : Path.t) (recursive : bool)
    (listed : list Path.t) :
  touched_only_at out w w' → has_image_ext out = false → FS.is_dir w folder = true →
  list_images_in_folder w folder recursive = Ok listed →
  ∃ listed', list_images_in_folder w' folder recursive = Ok listed'
             ∧ Permutation listed' listed.
Proof.
  intros Ht Hext Hd Hl.
  destruct (FolderFacts.listing_outcome w folder recursive)
    as [(imgs & Hs & Hperm & _ & Hkeys) | (Hs & _)]; [|congruence].
  rewrite Hl in Hs. injection Hs as <-.
  destruct (FolderFacts.listing_outcome w' folder recursive)
    as [(imgs' & Hs' & Hperm' & _ & _) | (_ & p & Hp & Hkey)].
  - exists imgs'. split; [exact Hs'|].
    rewrite Hperm, Hperm'. apply NoDup_Permutation.
    + apply FolderFacts.NoDup_candidates.
    + apply FolderFacts.NoDup_candidates.
    + intros p. rewrite !FolderFacts.elem_of_candidates.
      now apply touched_candidate with out.
  - apply (touched_candidate out w w' folder recursive p Ht Hext Hd) in Hp.
    destruct (Hkeys p Hp) as (k & Hk). rewrite Hk in Hkey. discriminate Hkey.
Qed.

End FrameFacts.



(** X24. A merge never changes what a folder lists: after [merge_to_pdf]
    has run, whatever its outcome, [list_images_in_folder] on a directory
    whose listing returned before returns again, with the same images (up
    to the order of images with equal keys).  The document that was
    written, and the [result] folder, are not picked up. *)
Theorem merge_leaves_listings_as_they_were :
  ∀ (now : datetime) (app : App) (w : World) (folder : Path.t) (recursive : bool)
    (listed : list Path.t),
    FS.is_dir w folder = true →
    list_images_in_folder w folder recursive = Ok listed →
    ∃ listed', list_images_in_folder (snd (merge_to_pdf now app w)) folder recursive
               = Ok listed'
               ∧ Permutation listed' listed.
Proof.
  intros now app w folder recursive listed Hd Hl.
  destruct (source (state app)) as [src|] eqn:Hsrc.
  2:{ unfold merge_to_pdf. rewrite Hsrc. simpl. exists listed. now split. }
  destruct (images (state app)) as [[|i imgs]|] eqn:Himgs;
    try (unfold merge_to_pdf; rewrite Hsrc, Himgs; simpl; exists listed; now split).
  destruct (MergeFacts.merge_run now app w src (i :: imgs) Hsrc Himgs)
    as (r & w1 & w' & [Hn _] & Hc & Hm); [discriminate|].
  rewrite Hm. simpl snd.
  assert (Hne : i :: imgs ≠ []) by discriminate.
  pose proof (FrameFacts.assemble_frame _ _ _ _ _ Hne Hc) as Ht.
  assert (Hd1 : FS.is_dir w1 folder = true).
  { unfold FS.is_dir in *. now rewrite (SysFacts.stat_nodes w w1 folder Hn). }
  assert (Hl1 : list_images_in_folder w1 folder recursive = Ok listed).
  { rewrite <- Hl. unfold list_images_in_folder, FS.glob, FS.is_dir.
    rewrite (SysFacts.stat_nodes w w1 folder Hn), Hn.
    f_equal. apply List.filter_ext. intros p. unfold is_image, FS.is_file.
    now rewrite (SysFacts.stat_nodes w w1 p Hn). }
  apply (FrameFacts.relisting (output_target now app src) w1 w' folder recursive listed Ht
           (MergeFacts.output_not_image now app src) Hd1 Hl1).
Qed.

Lemma merge_leaves_listings_as_they_were_witness :
  let listed := [["in"; "A.jpg"]; ["in"; "B.png"]; ["in"; "broken.png"]] in
  ∃ listed',
    list_images_in_folder (snd (merge_to_pdf example_clock app_with_selection example_world))
                          ["in"] true = Ok listed'
    ∧ Permutation listed' listed.
Proof.
  intros listed.
  assert (Hd : FS.is_dir example_world ["in"] = true) by reflexivity.
  assert (Hl : list_images_in_folder example_world ["in"] true = Ok listed)
    by (vm_compute; reflexivity).
  exact (merge_leaves_listings_as_they_were example_clock app_with_selection example_world
           ["in"] true listed Hd Hl).
Defined.

(* ===================================================================== *)
(** * Timestamps *)
(* ===================================================================== *)

Module StampFacts.

Lemma read_str_of_int (n : Z) : read_int (str_of_int n) = Some n.
Proof.
  unfold read_int, str_of_int.
  rewrite DecimalString.NilZero.isi.
  - simpl. f_equal. apply DecimalZ.of_to.
  - intros H. destruct n; try discriminate H.
    simpl in H. injection H as H. now apply DecimalPos.Unsigned.to_uint_nonnil in H.
  - intros H. destruct n; try discriminate H.
    simpl in H. injection H as H. now apply DecimalPos.Unsigned.to_uint_nonnil in H.
Qed.

Lemma below_100 (P : Z → bool) :
  forallb P (List.map Z.of_nat (seq 0 100)) = true → ∀ n, (0 ≤ n ≤ 99)%Z → P n = true.
Proof.
  intros H n Hn. rewrite forallb_forall in H. apply H.
  apply in_map_iff. exists (Z.to_nat n). split; [lia|]. apply in_seq. lia.
Qed.

Lemma pad2_length (n : Z) : (0 ≤ n ≤ 99)%Z → String.length (pad2 n) = 2%nat.
Proof.
  intros Hn. apply Nat.eqb_eq.
  apply (below_100 (λ n, Nat.eqb (String.length (pad2 n)) 2)); [|exact Hn].
  vm_compute. reflexivity.
Qed.

Lemma pad2_read (n : Z) : (0 ≤ n ≤ 99)%Z → read_int (pad2 n) = Some n.
Proof.
  intros Hn.
  assert (H : match read_int (pad2 n) with Some m => Z.eqb m n | None => false end = true).
  { apply (below_100 (λ n, match read_int (pad2 n) with Some m => Z.eqb m n | None => false end));
      [|exact Hn].
    vm_compute. reflexivity. }
  destruct (read_int (pad2 n)) as [m|]; [|discriminate H].
  apply Z.eqb_eq in H. now subst.
Qed.

Lemma pad2_inj (n m : Z) : (0 ≤ n ≤ 99)%Z → (0 ≤ m ≤ 99)%Z → pad2 n = pad2 m → n = m.
Proof.
  intros Hn Hm H. apply (f_equal read_int) in H.
  rewrite !pad2_read in H by assumption. now injection H.
Qed.

Lemma str_of_int_inj (n m : Z) : str_of_int n = str_of_int m → n = m.
Proof.
  intros H. apply (f_equal read_int) in H. rewrite !read_str_of_int in H. now injection H.
Qed.

Lemma length_append (a b : string) :
  String.length (a ++ b) = (String.length a + String.length b)%nat.
Proof. induction a as [|c a IH]; simpl; [reflexivity|now rewrite IH]. Qed.

Lemma append_inj_l (a a' b b' : string) :
  String.length a = String.length a' → (a ++ b = a' ++ b')%string → a = a' ∧ b = b'.
Proof.
  revert a'. induction a as [|c a IH]; intros [|c' a'] Hlen H; simpl in *;
    try discriminate Hlen.
  - now split.
  - injection H as -> H. injection Hlen as Hlen.
    destruct (IH a' Hlen H) as [-> ->]. now split.
Qed.

Lemma append_inj_r (a a' b b' : string) :
  String.length b = String.length b' → (a ++ b = a' ++ b')%string → a = a' ∧ b = b'.
Proof.
  intros Hlen H. apply append_inj_l; [|exact H].
  apply (f_equal String.length) in H. rewrite !length_append in H. lia.
Qed.

Lemma valid_clock_ranges (t : datetime) :
  valid_clock t = true →
  (0 ≤ month t ≤ 99 ∧ 0 ≤ day t ≤ 99 ∧ 0 ≤ hour t ≤ 99
   ∧ 0 ≤ minute t ≤ 99 ∧ 0 ≤ second t ≤ 99)%Z.
Proof.
  unfold valid_clock. intros H.
  repeat (apply andb_true_iff in H as [H ?]).
  repeat match goal with H : (_ <=? _)%Z = true |- _ => apply Z.leb_le in H end.
  lia.
Qed.

Lemma stamp_inj (t1 t2 : datetime) :
  valid_clock t1 = true → valid_clock t2 = true →
  strftime_stamp t1 = strftime_stamp t2 → t1 = t2.
Proof.
  intros H1 H2 H.
  destruct (valid_clock_ranges t1 H1) as (Hm1 & Hd1 & Hh1 & Hi1 & Hs1).
  destruct (valid_clock_ranges t2 H2) as (Hm2 & Hd2 & Hh2 & Hi2 & Hs2).
  unfold strftime_stamp in H.
  apply append_inj_r in H as [Hy H].
  2:{ rewrite !length_append. rewrite !pad2_length by assumption. reflexivity. }
  apply append_inj_l in H as [Hmo H]; [|now rewrite !pad2_length].
  apply append_inj_l in H as [Hda H]; [|now rewrite !pad2_length].
  apply (append_inj_l "_" "_") in H as [_ H]; [|reflexivity].
  apply append_inj_l in H as [Hho H]; [|now rewrite !pad2_length].
  apply append_inj_l in H as [Hmi Hse]; [|now rewrite !pad2_length].
  apply str_of_int_inj in Hy. apply pad2_inj in Hmo, Hda, Hho, Hmi, Hse; try assumption.
  destruct t1, t2. simpl in *. congruence.
Qed.

End StampFacts.

(** X25. Merges at different seconds write to different files: for clock
    readings in range and the same selection and output folder, the output
    paths of [merge_to_pdf] are equal if and only if the readings are.  (Two
    merges within one second share their output path.) *)
Theorem merges_at_different_seconds_write_different_files :
  ∀ (t1 t2 : datetime) (app : App) (src : Path.t),
    valid_clock t1 = true → valid_clock t2 = true →
    (output_target t1 app src = output_target t2 app src ↔ t1 = t2).
Proof.
  intros t1 t2 app src H1 H2. split; [|now intros ->].
  intros H. rewrite !MergeFacts.output_target_split in H.
  apply app_inj_tail in H as [_ H].
  injection H as H.
  apply (StampFacts.append_inj_r _ _ ".pdf" ".pdf") in H as [H _]; [|reflexivity].
  now apply StampFacts.stamp_inj.
Qed.

Lemma merges_at_different_seconds_write_different_files_witness :
  let later := MkDatetime 2024 3 9 14 5 1 in
  output_target example_clock app_with_selection ["in"]
  = output_target later app_with_selection ["in"] ↔ example_clock = later.
Proof.
  intros later.
  assert (H1 : valid_clock example_clock = true) by reflexivity.
  assert (H2 : valid_clock later = true) by reflexivity.
  exact (merges_at_different_seconds_write_different_files example_clock later
           app_with_selection ["in"] H1 H2).
Defined.
